(** * Assessment session and progression engine

    A shallow embedding of the two Mongoose models of the backend,
    [models/AssessmentSession.ts] and [models/AssessmentProgress.ts], and the
    properties of their instance methods.

    Conventions of the embedding:
    - a JavaScript [Number] that holds a count, a score or a number of points
      is an integer [Z]; the integers up to [2 ^ 53] are doubles, and the
      sums the code takes of them are exact there;
    - the percentages [Math.round((a / b) * 100)] of [calculateScore],
      [completionPercentage] and [incrementStats] are computed as the source
      computes them: the quotient and the product are each rounded to the
      nearest double, a tie going to the even one ([Number_div],
      [Number_mul]; the exponent is not bounded, so there is neither
      overflow nor a subnormal number). The single quotients of
      [durationMinutes] and of the average score and the arithmetic of
      [generateOTP] are exact rationals [Q];
    - a [Date] is its number of milliseconds since the epoch, and every
      [new Date()] / [Date.now()] of a method is an argument of the method;
    - an optional field is an [option]; [undefined] and [null] are [None];
    - an instance method that assigns to [this] is a computation in the
      monad [M] over the document; one that only reads [this] is a function
      of the document;
    - a thrown [Error] leaves the document as the method had made it so far. *)

From Stdlib Require Import ZArith QArith Qround Qpower Lia Lqa.
From stdpp Require Import base option list sorting strings pretty.

Local Open Scope string_scope.
Local Open Scope list_scope.
Local Open Scope Z_scope.

(** ** Enumerations of [types/index.ts] *)

Inductive AssessmentLevel := A1 | A2 | B1 | B2 | C1 | C2.

Inductive AssessmentStatus :=
  NOT_STARTED | IN_PROGRESS | COMPLETED | FAILED | EXPIRED.

Inductive QuestionType := MULTIPLE_CHOICE | TRUE_FALSE | SCENARIO | PRACTICAL.

Inductive Severity := low | medium | high.

#[global] Instance AssessmentLevel_eq_dec : EqDecision AssessmentLevel.
Proof. solve_decision. Defined.
#[global] Instance AssessmentStatus_eq_dec : EqDecision AssessmentStatus.
Proof. solve_decision. Defined.
#[global] Instance QuestionType_eq_dec : EqDecision QuestionType.
Proof. solve_decision. Defined.

(** ** Embedded documents

    Each record lives in a module of its own so that the fields keep the
    names they have in the interfaces. *)

Module QuestionOption.
Record t := mk {
  id : string;
  text : string;
  isCorrect : bool;
  order : Z;
}.
End QuestionOption.

Module AssessmentQuestion.
Record t := mk {
  questionId : string;
  order : Z;
  competency : string;
  level : AssessmentLevel;
  points : Z;
  timeAllowed : Z;
  questionText : string;
  questionType : QuestionType;
  options : option (list QuestionOption.t);
  imageUrl : option string;
  audioUrl : option string;
  videoUrl : option string;
}.
End AssessmentQuestion.

Module AssessmentAnswer.
Record t := mk {
  questionId : string;
  selectedAnswers : list string;
  timeSpent : Z;
  isCorrect : bool;
  pointsEarned : Z;
  answeredAt : Z;
  changedAnswers : Z;
  tabSwitches : Z;
  copyPasteDetected : bool;
}.
End AssessmentAnswer.

Module CheatingFlag.
Record t := mk {
  type : string;
  details : string;
  timestamp : Z;
  severity : Severity;
}.
End CheatingFlag.

(** ** The session document *)

Module Session.
Record t := mk {
  userId : string;
  step : Z;
  status : AssessmentStatus;
  questions : list AssessmentQuestion.t;
  startTime : option Z;
  endTime : option Z;
  timeAllowed : Z;
  timeRemaining : option Z;
  answers : list AssessmentAnswer.t;
  score : option Z;
  percentage : option Z;
  levelAchieved : option AssessmentLevel;
  passed : bool;
  canProceedToNextStep : bool;
  nextStepUnlockedAt : option Z;
  ipAddress : option string;
  userAgent : option string;
  browserFingerprint : option string;
  isCompleted : bool;
  isSubmitted : bool;
  hasCheatingFlags : bool;
  cheatingDetails : list CheatingFlag.t;
}.

(** Assignments [this.f = v], one per field that a method assigns. *)
Definition set_status v (s : t) : t :=
  let '(mk a b _ d e f g h i j k l m n o p q r u w x y) := s in
  mk a b v d e f g h i j k l m n o p q r u w x y.
Definition set_endTime v (s : t) : t :=
  let '(mk a b c d e _ g h i j k l m n o p q r u w x y) := s in
  mk a b c d e v g h i j k l m n o p q r u w x y.
Definition set_answers v (s : t) : t :=
  let '(mk a b c d e f g h _ j k l m n o p q r u w x y) := s in
  mk a b c d e f g h v j k l m n o p q r u w x y.
Definition set_score v (s : t) : t :=
  let '(mk a b c d e f g h i _ k l m n o p q r u w x y) := s in
  mk a b c d e f g h i v k l m n o p q r u w x y.
Definition set_percentage v (s : t) : t :=
  let '(mk a b c d e f g h i j _ l m n o p q r u w x y) := s in
  mk a b c d e f g h i j v l m n o p q r u w x y.
Definition set_levelAchieved v (s : t) : t :=
  let '(mk a b c d e f g h i j k _ m n o p q r u w x y) := s in
  mk a b c d e f g h i j k v m n o p q r u w x y.
Definition set_passed v (s : t) : t :=
  let '(mk a b c d e f g h i j k l _ n o p q r u w x y) := s in
  mk a b c d e f g h i j k l v n o p q r u w x y.
Definition set_canProceedToNextStep v (s : t) : t :=
  let '(mk a b c d e f g h i j k l m _ o p q r u w x y) := s in
  mk a b c d e f g h i j k l m v o p q r u w x y.
Definition set_nextStepUnlockedAt v (s : t) : t :=
  let '(mk a b c d e f g h i j k l m n _ p q r u w x y) := s in
  mk a b c d e f g h i j k l m n v p q r u w x y.
Definition set_isCompleted v (s : t) : t :=
  let '(mk a b c d e f g h i j k l m n o p q r _ w x y) := s in
  mk a b c d e f g h i j k l m n o p q r v w x y.
Definition set_isSubmitted v (s : t) : t :=
  let '(mk a b c d e f g h i j k l m n o p q r u _ x y) := s in
  mk a b c d e f g h i j k l m n o p q r u v x y.
Definition set_hasCheatingFlags v (s : t) : t :=
  let '(mk a b c d e f g h i j k l m n o p q r u w _ y) := s in
  mk a b c d e f g h i j k l m n o p q r u w v y.
Definition set_cheatingDetails v (s : t) : t :=
  let '(mk a b c d e f g h i j k l m n o p q r u w x _) := s in
  mk a b c d e f g h i j k l m n o p q r u w x v.
End Session.

(** ** Methods as computations over the document *)

Inductive Error :=
  | JsError (message : string)
  | ValidationError.

Definition Result (A : Type) : Type := (Error + A)%type.

Definition M (St A : Type) : Type := St -> Result A * St.

#[global] Instance M_ret {St} : MRet (M St) :=
  fun A (a : A) s => (inr a, s).

#[global] Instance M_bind {St} : MBind (M St) :=
  fun A B (k : A -> M St B) (m : M St A) s =>
    match m s with
    | (inr a, s') => k a s'
    | (inl e, s') => (inl e, s')
    end.

Definition this {St} : M St St := fun s => (inr s, s).

Definition assign {St} (f : St -> St) : M St unit := fun s => (inr tt, f s).

Definition throw {St A} (e : Error) : M St A := fun s => (inl e, s).

(** Calling a method that only reads the document. *)
Definition call {St A} (f : St -> A) : M St A := fun s => (inr (f s), s).

Definition state_after {St A} (r : Result A * St) : St := snd r.
Definition succeeded {St A} (r : Result A * St) : bool :=
  match fst r with inr _ => true | inl _ => false end.

(** ** JavaScript built-ins used by the models *)

(** [Math.round x], the integer nearest to [x], a half rounding up:
    the floor of [x + 1/2]. *)
Definition Math_round (x : Q) : Z := Qfloor (x + (1 # 2))%Q.

(** *** Arithmetic on doubles

    A finite double is a rational number [m * 2 ^ e] with [m] an integer
    of at most 53 bits. [x / y] and [x * y] on doubles are the exact
    quotient and product rounded to the nearest double, a tie going to the
    double whose [m] is even. *)

(** The exponent of the binade of a positive rational: the integer [l]
    with [2 ^ l <= q < 2 ^ (l + 1)]. *)
Definition floorLog2 (q : Q) : Z :=
  if Qle_bool 1 q then Z.log2 (Qfloor q) else - Z.log2_up (Qceiling (/ q)).

(** The integer nearest to a rational, a half going to the even
    neighbour. *)
Definition roundHalfEven (x : Q) : Z :=
  let f := Qfloor x in
  match (x - inject_Z f ?= 1 # 2)%Q with
  | Lt => f
  | Gt => f + 1
  | Eq => if Z.even f then f else f + 1
  end.

(** The double nearest to a positive rational [q]: with
    [2 ^ l <= q < 2 ^ (l + 1)], the multiple of [2 ^ (l - 52)] nearest to
    [q]. *)
Definition roundPositive (q : Q) : Q :=
  let e := floorLog2 q - 52 in
  (inject_Z (roundHalfEven (q / 2 ^ e)) * 2 ^ e)%Q.

(** The double nearest to a rational. *)
Definition toDouble (q : Q) : Q :=
  match (q ?= 0)%Q with
  | Eq => 0%Q
  | Gt => roundPositive q
  | Lt => (- roundPositive (- q))%Q
  end.

(** [x / y] and [x * y]. *)
Definition Number_div (x y : Q) : Q := toDouble (x / y).
Definition Number_mul (x y : Q) : Q := toDouble (x * y).

(** [[...l].sort()] on an array of strings: the default comparison orders
    strings by their code units. *)
Definition sort (l : list string) : list string := merge_sort String.le l.

(** [l.every((x, index) => f x index)]. *)
Definition every {A} (f : A -> nat -> bool) (l : list A) : bool :=
  forallb id (imap (fun i x => f x i) l).

(** [l.reduce((sum, x) => sum + f x, 0)]. *)
Definition reduce_sum {A} (f : A -> Z) (l : list A) : Z :=
  foldl (fun sum x => sum + f x) 0 l.

(** [x || 0] on an optional number: the number when it is set and not zero. *)
Definition or_zero (x : option Z) : Z :=
  match x with
  | Some v => if bool_decide (v = 0) then 0 else v
  | None => 0
  end.

(** ** [models/AssessmentSession.ts] *)

Import Session.

Record ScoreResult := {
  score_of : Z;
  percentage_of : Z;
  correctAnswers_of : nat;
}.

(** [calculateScore] *)
Definition calculateScore (s : Session.t) : ScoreResult :=
  if bool_decide (length (answers s) = 0%nat) then
    {| score_of := 0; percentage_of := 0; correctAnswers_of := 0 |}
  else
    let totalPoints := reduce_sum AssessmentQuestion.points (questions s) in
    let earnedPoints := reduce_sum AssessmentAnswer.pointsEarned (answers s) in
    let correctAnswers :=
      length (filter (fun a => AssessmentAnswer.isCorrect a = true) (answers s)) in
    let percentage :=
      if bool_decide (0 < totalPoints)
      then Math_round
             (Number_mul
                (Number_div (inject_Z earnedPoints) (inject_Z totalPoints))
                100)
      else 0 in
    {| score_of := earnedPoints;
       percentage_of := percentage;
       correctAnswers_of := correctAnswers |}.

Record LevelPair := { low_level : AssessmentLevel; high_level : AssessmentLevel }.

Definition stepLevelMap (step : Z) : option LevelPair :=
  match step with
  | 1 => Some {| low_level := A1; high_level := A2 |}
  | 2 => Some {| low_level := B1; high_level := B2 |}
  | 3 => Some {| low_level := C1; high_level := C2 |}
  | _ => None
  end.

(** [determineLevel] *)
Definition determineLevel (s : Session.t) : option AssessmentLevel :=
  let percentage := percentage_of (calculateScore s) in
  if bool_decide (percentage < 25) then None
  else
    match stepLevelMap (step s) with
    | None => None
    | Some levels =>
        Some (if bool_decide (50 <= percentage)
              then high_level levels else low_level levels)
    end.

(** [canProceedToNext] *)
Definition canProceedToNext (s : Session.t) : bool :=
  let percentage := percentage_of (calculateScore s) in
  bool_decide (75 <= percentage) && bool_decide (step s < 3).

(** [addCheatingFlag]; [now] is the reading of [new Date()]. *)
Definition addCheatingFlag (type details : string) (severity : Severity)
    (now : Z) : M Session.t unit :=
  s ← this;
  assign (set_cheatingDetails
            (cheatingDetails s ++
             [ {| CheatingFlag.type := type;
                  CheatingFlag.details := details;
                  CheatingFlag.timestamp := now;
                  CheatingFlag.severity := severity |} ]));;
  assign (set_hasCheatingFlags true).

(** [checkAnswerCorrectness] *)
Definition checkAnswerCorrectness (question : AssessmentQuestion.t)
    (selectedAnswers : list string) : bool :=
  match AssessmentQuestion.questionType question,
        AssessmentQuestion.options question with
  | MULTIPLE_CHOICE, Some options =>
      let correctOptions :=
        QuestionOption.id <$>
          filter (fun opt => QuestionOption.isCorrect opt = true) options in
      let sortedCorrect := sort correctOptions in
      let sortedSelected := sort selectedAnswers in
      bool_decide (length sortedCorrect = length sortedSelected) &&
      every (fun answer index =>
               bool_decide (sortedSelected !! index = Some answer))
            sortedCorrect
  | _, _ => false
  end.

(** [questions.find(q => q.questionId === questionId)] *)
Definition findQuestion (questionId : string) (s : Session.t)
    : option AssessmentQuestion.t :=
  snd <$> list_find (fun q => AssessmentQuestion.questionId q = questionId)
            (questions s).

(** [answers.findIndex(a => a.questionId === questionId)], together with the
    element at that index; [None] is the index [-1]. *)
Definition findAnswer (questionId : string) (s : Session.t)
    : option (nat * AssessmentAnswer.t) :=
  list_find (fun a => AssessmentAnswer.questionId a = questionId) (answers s).

(** [submitAnswer]; [now] is the reading of [new Date()]. *)
Definition submitAnswer (questionId : string) (selectedAnswers : list string)
    (timeSpent : Z) (now : Z) : M Session.t unit :=
  s ← this;
  match findQuestion questionId s with
  | None => throw (JsError "Question not found in session")
  | Some question =>
      let existingAnswerIndex := findAnswer questionId s in
      let isCorrect := checkAnswerCorrectness question selectedAnswers in
      let pointsEarned :=
        if isCorrect then AssessmentQuestion.points question else 0 in
      let answerData :=
        {| AssessmentAnswer.questionId := questionId;
           AssessmentAnswer.selectedAnswers := selectedAnswers;
           AssessmentAnswer.timeSpent := timeSpent;
           AssessmentAnswer.isCorrect := isCorrect;
           AssessmentAnswer.pointsEarned := pointsEarned;
           AssessmentAnswer.answeredAt := now;
           AssessmentAnswer.changedAnswers :=
             match existingAnswerIndex with
             | Some (_, existing) => AssessmentAnswer.changedAnswers existing + 1
             | None => 0
             end;
           AssessmentAnswer.tabSwitches := 0;
           AssessmentAnswer.copyPasteDetected := false |} in
      match existingAnswerIndex with
      | Some (index, _) =>
          assign (set_answers (<[index := answerData]> (answers s)))
      | None =>
          assign (set_answers (answers s ++ [answerData]))
      end;;
      s ← this;
      if bool_decide (status s = NOT_STARTED)
      then assign (set_status IN_PROGRESS)
      else mret tt
  end.

(** [getRemainingTime]; [now] is the reading of [Date.now()]. *)
Definition getRemainingTime (now : Z) (s : Session.t) : Z :=
  match startTime s with
  | None => 0
  | Some start =>
      if isCompleted s then 0
      else
        let elapsedMs := now - start in
        let elapsedSeconds := elapsedMs / 1000 in
        let remainingSeconds := Z.max 0 (timeAllowed s - elapsedSeconds) in
        remainingSeconds
  end.

(** [isExpired] *)
Definition isExpired (now : Z) (s : Session.t) : bool :=
  bool_decide (getRemainingTime now s = 0) && negb (isCompleted s).

(** The [pre('save')] hook of the session schema; [now] is the reading of
    the hook's [new Date()]. [cheatingDetails] is an array in every document
    (the schema default is the empty array), so the hook always takes the
    branch that compares its length with 0. *)
Definition sessionPreSave (now : Z) : M Session.t unit :=
  s ← this;
  (if isCompleted s && bool_decide (status s <> COMPLETED)
   then assign (set_status COMPLETED) else mret tt);;
  s ← this;
  (if isCompleted s && bool_decide (endTime s = None)
   then assign (set_endTime (Some now)) else mret tt);;
  s ← this;
  assign (set_hasCheatingFlags
            (bool_decide (0 < length (cheatingDetails s))%nat)).

Section SessionPersistence.

(** [save()] runs the schema's validators and then the [pre('save')] hook;
    when validation rejects the document the hook does not run and the
    returned promise is rejected. The validators are those of the schema;
    the results below hold whatever they accept. *)
Variable sessionValid : Session.t -> bool.

Definition sessionSave (now : Z) : M Session.t unit :=
  s ← this;
  if sessionValid s then sessionPreSave now else throw ValidationError.

(** [markCompleted]; [tEnd] and [tUnlock] are the readings of its two
    [new Date()], [tSave] the one of the hook. *)
Definition markCompleted (tEnd tUnlock tSave : Z) : M Session.t unit :=
  s ← this;
  if isCompleted s then mret tt
  else
    results ← call calculateScore;
    achievedLevel ← call determineLevel;
    assign (set_score (Some (score_of results)));;
    assign (set_percentage (Some (percentage_of results)));;
    assign (set_levelAchieved achievedLevel);;
    assign (set_passed (bool_decide (25 <= percentage_of results)));;
    proceed ← call canProceedToNext;
    assign (set_canProceedToNextStep proceed);;
    assign (set_isCompleted true);;
    assign (set_isSubmitted true);;
    assign (set_endTime (Some tEnd));;
    assign (set_status COMPLETED);;
    s ← this;
    (if canProceedToNextStep s
     then assign (set_nextStepUnlockedAt (Some tUnlock)) else mret tt);;
    sessionSave tSave.

End SessionPersistence.

(** ** [models/AssessmentProgress.ts] *)

Module CompetencyScore.
Record t := mk {
  competency : string;
  score : Z;
  level : AssessmentLevel;
  questionsAttempted : Z;
  correctAnswers : Z;
  lastUpdated : Z;
}.
End CompetencyScore.

Module Achievement.
Record t := mk {
  id : string;
  name : string;
  description : string;
  type : string;
  unlockedAt : Z;
  iconUrl : option string;
}.
End Achievement.

Module Progress.
Record t := mk {
  userId : string;
  currentStep : Z;
  highestLevelAchieved : AssessmentLevel;
  step1Completed : bool;
  step1Score : option Z;
  step1Level : option AssessmentLevel;
  step1CompletedAt : option Z;
  step2Completed : bool;
  step2Score : option Z;
  step2Level : option AssessmentLevel;
  step2CompletedAt : option Z;
  step3Completed : bool;
  step3Score : option Z;
  step3Level : option AssessmentLevel;
  step3CompletedAt : option Z;
  totalAssessmentsTaken : Z;
  totalTimeSpent : Z;
  averageScore : Z;
  competencyScores : list CompetencyScore.t;
  canRetakeStep1 : bool;
  nextAssessmentDate : option Z;
  achievements : list Achievement.t;
}.

Definition set_currentStep v (p : t) : t :=
  let '(mk a _ c d e f g h i j k l m n o q r u w x y z) := p in
  mk a v c d e f g h i j k l m n o q r u w x y z.
Definition set_highestLevelAchieved v (p : t) : t :=
  let '(mk a b _ d e f g h i j k l m n o q r u w x y z) := p in
  mk a b v d e f g h i j k l m n o q r u w x y z.
(** The four assignments of one [case] of [updateStepProgress]. *)
Definition set_step1 completed sc lv at_ (p : t) : t :=
  let '(mk a b c _ _ _ _ h i j k l m n o q r u w x y z) := p in
  mk a b c completed sc lv at_ h i j k l m n o q r u w x y z.
Definition set_step2 completed sc lv at_ (p : t) : t :=
  let '(mk a b c d e f g _ _ _ _ l m n o q r u w x y z) := p in
  mk a b c d e f g completed sc lv at_ l m n o q r u w x y z.
Definition set_step3 completed sc lv at_ (p : t) : t :=
  let '(mk a b c d e f g h i j k _ _ _ _ q r u w x y z) := p in
  mk a b c d e f g h i j k completed sc lv at_ q r u w x y z.
Definition set_totalAssessmentsTaken v (p : t) : t :=
  let '(mk a b c d e f g h i j k l m n o _ r u w x y z) := p in
  mk a b c d e f g h i j k l m n o v r u w x y z.
Definition set_averageScore v (p : t) : t :=
  let '(mk a b c d e f g h i j k l m n o q r _ w x y z) := p in
  mk a b c d e f g h i j k l m n o q r v w x y z.
Definition set_competencyScores v (p : t) : t :=
  let '(mk a b c d e f g h i j k l m n o q r u _ x y z) := p in
  mk a b c d e f g h i j k l m n o q r u v x y z.
Definition set_canRetakeStep1 v (p : t) : t :=
  let '(mk a b c d e f g h i j k l m n o q r u w _ y z) := p in
  mk a b c d e f g h i j k l m n o q r u w v y z.
Definition set_achievements v (p : t) : t :=
  let '(mk a b c d e f g h i j k l m n o q r u w x y _) := p in
  mk a b c d e f g h i j k l m n o q r u w x y v.
End Progress.

Import Progress.

Definition levelOrder : list AssessmentLevel := [A1; A2; B1; B2; C1; C2].

(** [l.indexOf(x)]: the first index of [x], or [-1]. *)
Definition indexOf {A} `{EqDecision A} (x : A) (l : list A) : Z :=
  match list_find (fun y => y = x) l with
  | Some (i, _) => Z.of_nat i
  | None => -1
  end.

(** [Math.max(...l)] on a non-empty array [x :: l]. *)
Definition Math_max (x : Z) (l : list Z) : Z := foldl Z.max x l.

(** [[a, b, c].filter(Boolean)] and
    [.filter(x => x !== undefined && x !== null)]: the values that are set. *)
Definition defined {A} (l : list (option A)) : list A := omap id l.

(** The [pre('save')] hook of the progress schema, in its three parts:
    "update current step based on completed steps", *)
Definition updateCurrentStep : M Progress.t unit :=
  p ← this;
  if step3Completed p then assign (set_currentStep 3)
  else if step2Completed p then assign (set_currentStep 3)
  else if step1Completed p then assign (set_currentStep 2)
  else assign (set_currentStep 1).

(** "update highest level achieved" ([levelOrder[highestIndex]] is always
    defined, see [levelOrder_rank] below: the index is the [indexOf] of a
    level), *)
Definition updateHighestLevel : M Progress.t unit :=
  p ← this;
  let levels := defined [step1Level p; step2Level p; step3Level p] in
  match levels with
  | [] => mret tt
  | level :: rest =>
      let highestIndex :=
        Math_max (indexOf level levelOrder)
                 ((fun level => indexOf level levelOrder) <$> rest) in
      if bool_decide (0 <= highestIndex) then
        match levelOrder !! Z.to_nat highestIndex with
        | Some highest => assign (set_highestLevelAchieved highest)
        | None => mret tt
        end
      else mret tt
  end.

(** and "calculate average score". *)
Definition updateAverageScore : M Progress.t unit :=
  p ← this;
  let scores := defined [step1Score p; step2Score p; step3Score p] in
  if bool_decide (0 < length scores)%nat then
    assign (set_averageScore
              (Math_round (inject_Z (reduce_sum id scores) /
                           inject_Z (Z.of_nat (length scores)))%Q))
  else mret tt.

Definition progressPreSave : M Progress.t unit :=
  updateCurrentStep;; updateHighestLevel;; updateAverageScore.

Section ProgressPersistence.

(** As for sessions: [save()] validates, then runs the hook. *)
Variable progressValid : Progress.t -> bool.

Definition progressSave : M Progress.t unit :=
  p ← this;
  if progressValid p then progressPreSave else throw ValidationError.

(** [updateStepProgress]; [now] is the reading of [new Date()]. *)
Definition updateStepProgress (step : Z) (score : Z)
    (level : AssessmentLevel) (now : Z) : M Progress.t unit :=
  match step with
  | 1 =>
      assign (set_step1 true (Some score) (Some level) (Some now));;
      if bool_decide (score < 25)
      then assign (set_canRetakeStep1 false) else mret tt
  | 2 => assign (set_step2 true (Some score) (Some level) (Some now))
  | 3 => assign (set_step3 true (Some score) (Some level) (Some now))
  | _ => mret tt
  end;;
  p ← this;
  assign (set_totalAssessmentsTaken (totalAssessmentsTaken p + 1));;
  progressSave.

(** [updateCompetencyScore]; an argument left out takes its default,
    [questionsAttempted = 1] and [correctAnswers = 0]. *)
Definition updateCompetencyScore (competency : string) (score : Z)
    (level : AssessmentLevel) (questionsAttempted correctAnswers : option Z)
    (now : Z) : M Progress.t unit :=
  let questionsAttempted := default 1 questionsAttempted in
  let correctAnswers := default 0 correctAnswers in
  p ← this;
  match list_find (fun cs => CompetencyScore.competency cs = competency)
          (competencyScores p) with
  | Some (existingIndex, existing) =>
      let updated :=
        {| CompetencyScore.competency := CompetencyScore.competency existing;
           CompetencyScore.score := Z.max (CompetencyScore.score existing) score;
           CompetencyScore.level := level;
           CompetencyScore.questionsAttempted :=
             CompetencyScore.questionsAttempted existing + questionsAttempted;
           CompetencyScore.correctAnswers :=
             CompetencyScore.correctAnswers existing + correctAnswers;
           CompetencyScore.lastUpdated := now |} in
      assign (set_competencyScores
                (<[existingIndex := updated]> (competencyScores p)))
  | None =>
      assign (set_competencyScores
                (competencyScores p ++
                 [ {| CompetencyScore.competency := competency;
                      CompetencyScore.score := score;
                      CompetencyScore.level := level;
                      CompetencyScore.questionsAttempted := questionsAttempted;
                      CompetencyScore.correctAnswers := correctAnswers;
                      CompetencyScore.lastUpdated := now |} ]))
  end;;
  progressSave.

(** [addAchievement] *)
Definition addAchievement (achievement : Achievement.t) : M Progress.t unit :=
  p ← this;
  match list_find (fun a => Achievement.id a = Achievement.id achievement)
          (achievements p) with
  | Some _ => mret tt
  | None =>
      assign (set_achievements (achievements p ++ [achievement]));;
      progressSave
  end.

End ProgressPersistence.

(** [canTakeStep] *)
Definition canTakeStep (step : Z) (p : Progress.t) : bool :=
  match step with
  | 1 => canRetakeStep1 p || negb (step1Completed p)
  | 2 => step1Completed p && bool_decide (75 <= or_zero (step1Score p))
  | 3 => step2Completed p && bool_decide (75 <= or_zero (step2Score p))
  | _ => false
  end.

(** [getNextAvailableStep] *)
Definition getNextAvailableStep (p : Progress.t) : option Z :=
  if canTakeStep 1 p then Some 1
  else if canTakeStep 2 p then Some 2
  else if canTakeStep 3 p then Some 3
  else None.

(** ** Sequences of engine operations *)

Inductive SessionOp :=
  | SubmitAnswer (questionId : string) (selectedAnswers : list string)
      (timeSpent now : Z)
  | AddCheatingFlag (type details : string) (severity : Severity) (now : Z)
  | MarkCompleted (tEnd tUnlock tSave : Z)
  | SaveSession (now : Z).

Definition performSession (valid : Session.t -> bool) (op : SessionOp)
    : M Session.t unit :=
  match op with
  | SubmitAnswer questionId selectedAnswers timeSpent now =>
      submitAnswer questionId selectedAnswers timeSpent now
  | AddCheatingFlag type details severity now =>
      addCheatingFlag type details severity now
  | MarkCompleted tEnd tUnlock tSave => markCompleted valid tEnd tUnlock tSave
  | SaveSession now => sessionSave valid now
  end.

(** The document after a sequence of calls; a call that throws reports its
    error to the caller and the next call finds the document as it was
    left. *)
Definition runSession (valid : Session.t -> bool) (ops : list SessionOp)
    (s : Session.t) : Session.t :=
  foldl (fun s op => state_after (performSession valid op s)) s ops.

Inductive ProgressOp :=
  | UpdateStepProgress (step score : Z) (level : AssessmentLevel) (now : Z)
  | UpdateCompetencyScore (competency : string) (score : Z)
      (level : AssessmentLevel) (questionsAttempted correctAnswers : option Z)
      (now : Z)
  | AddAchievement (achievement : Achievement.t)
  | SaveProgress.

Definition performProgress (valid : Progress.t -> bool) (op : ProgressOp)
    : M Progress.t unit :=
  match op with
  | UpdateStepProgress step score level now =>
      updateStepProgress valid step score level now
  | UpdateCompetencyScore competency score level attempted correct now =>
      updateCompetencyScore valid competency score level attempted correct now
  | AddAchievement achievement => addAchievement valid achievement
  | SaveProgress => progressSave valid
  end.

Definition runProgress (valid : Progress.t -> bool) (ops : list ProgressOp)
    (p : Progress.t) : Progress.t :=
  foldl (fun p op => state_after (performProgress valid op p)) p ops.

(** ** Notions the properties are stated with *)

Definition sumZ (l : list Z) : Z := foldr Z.add 0 l.

(** The points a session can give: the sum over its question snapshot. *)
Definition totalPossiblePoints (s : Session.t) : Z :=
  sumZ (AssessmentQuestion.points <$> questions s).

(** The points a session has given: the sum over its answers. *)
Definition earnedPoints (s : Session.t) : Z :=
  sumZ (AssessmentAnswer.pointsEarned <$> answers s).

(** [p] is [x / y] rounded to the nearest integer, a half rounding up
    ([0 < y]): [p - 1/2 <= x / y < p + 1/2]. *)
Definition nearest (p x y : Z) : Prop :=
  2 * p * y - y <= 2 * x /\ 2 * x < 2 * p * y + y.

(** [p] is an integer nearest to [x / y] ([0 < y]), with nothing said on
    which one where [x / y] is half-way between two integers:
    [p - 1/2 <= x / y <= p + 1/2]. *)
Definition closest (p x y : Z) : Prop :=
  2 * p * y - y <= 2 * x <= 2 * p * y + y.

(** [Math.round((e / t) * 100)], the expression of the three
    percentages. *)
Definition percent (e t : Z) : Z :=
  Math_round (Number_mul (Number_div (inject_Z e) (inject_Z t)) 100).

(** The unit roundoff of doubles, [2 ^ -53]. *)
Definition roundoff : Q := 1 # 9007199254740992.

(** What fixes [roundHalfEven x]: it is within one half of [x], and even
    when [x] is half-way between two integers. *)
Definition isRoundHalfEven (x : Q) (m : Z) : Prop :=
  (inject_Z m - (1 # 2) <= x)%Q /\ (x <= inject_Z m + (1 # 2))%Q /\
  ((x == inject_Z m + (1 # 2))%Q -> Z.even m = true) /\
  ((x == inject_Z m - (1 # 2))%Q -> Z.even m = true).

(** The ids of the options of a question that are marked correct. *)
Definition correctOptionIds (q : AssessmentQuestion.t) : list string :=
  match AssessmentQuestion.options q with
  | Some options =>
      QuestionOption.id <$>
        filter (fun opt => QuestionOption.isCorrect opt = true) options
  | None => []
  end.

(** The entries of the answers list for one question. *)
Definition answersFor (questionId : string) (s : Session.t)
    : list AssessmentAnswer.t :=
  filter (fun a => AssessmentAnswer.questionId a = questionId) (answers s).

(** A session as it is created: no answer yet (the schema default), and
    questions that satisfy the schema's [min: 1] on [points]. *)
Definition noAnswers (s : Session.t) : Prop := answers s = [].

Definition pointsPositive (s : Session.t) : Prop :=
  Forall (fun q => 1 <= AssessmentQuestion.points q) (questions s).

(** What the answers of a session owe to its snapshot: one entry per
    question id at most, and every entry scored against the question that
    [find] returns for its id. *)
Definition scoredAgainst (s : Session.t) (a : AssessmentAnswer.t) : Prop :=
  exists q,
    findQuestion (AssessmentAnswer.questionId a) s = Some q /\
    AssessmentAnswer.isCorrect a =
      checkAnswerCorrectness q (AssessmentAnswer.selectedAnswers a) /\
    AssessmentAnswer.pointsEarned a =
      (if AssessmentAnswer.isCorrect a then AssessmentQuestion.points q else 0).

Definition consistent (s : Session.t) : Prop :=
  NoDup (AssessmentAnswer.questionId <$> answers s) /\
  Forall (scoredAgainst s) (answers s).

(** The points of the question that [find] returns for an id, 0 when the
    snapshot has no question of that id. *)
Definition pointsOf (qs : list AssessmentQuestion.t) (questionId : string) : Z :=
  match list_find (fun q => AssessmentQuestion.questionId q = questionId) qs with
  | Some (_, q) => AssessmentQuestion.points q
  | None => 0
  end.

(** The rank of a level in the ordering A1 < A2 < B1 < B2 < C1 < C2. *)
Definition rank (l : AssessmentLevel) : Z :=
  match l with
  | A1 => 0 | A2 => 1 | B1 => 2 | B2 => 3 | C1 => 4 | C2 => 5
  end.

(** The entry that [submitAnswer] builds for a question [q] of the
    snapshot, from the change counter it computed. *)
Definition recordedAnswer (q : AssessmentQuestion.t) (questionId : string)
    (selectedAnswers : list string) (timeSpent now changed : Z)
    : AssessmentAnswer.t :=
  {| AssessmentAnswer.questionId := questionId;
     AssessmentAnswer.selectedAnswers := selectedAnswers;
     AssessmentAnswer.timeSpent := timeSpent;
     AssessmentAnswer.isCorrect := checkAnswerCorrectness q selectedAnswers;
     AssessmentAnswer.pointsEarned :=
       if checkAnswerCorrectness q selectedAnswers
       then AssessmentQuestion.points q else 0;
     AssessmentAnswer.answeredAt := now;
     AssessmentAnswer.changedAnswers := changed;
     AssessmentAnswer.tabSwitches := 0;
     AssessmentAnswer.copyPasteDetected := false |}.

(** The per-step levels and the per-step scores that are set. *)
Definition levelsSet (p : Progress.t) : list AssessmentLevel :=
  defined [step1Level p; step2Level p; step3Level p].

Definition scoresSet (p : Progress.t) : list Z :=
  defined [step1Score p; step2Score p; step3Score p].

(** The three derived fields of a progress record agree with its per-step
    fields: the current step; the highest level, when a level is set; the
    average score, the mean of the scores that are set rounded to the
    nearest integer, when a score is set. *)
Definition derivedFields (p : Progress.t) : Prop :=
  currentStep p =
    (if step2Completed p || step3Completed p then 3
     else if step1Completed p then 2 else 1) /\
  (levelsSet p <> [] ->
   highestLevelAchieved p ∈ levelsSet p /\
   forall l, l ∈ levelsSet p -> rank l <= rank (highestLevelAchieved p)) /\
  (scoresSet p <> [] ->
   nearest (averageScore p) (sumZ (scoresSet p))
           (Z.of_nat (length (scoresSet p)))).

(** ** Sessions and progress records used as examples *)

Definition mcOptions : list QuestionOption.t :=
  [ {| QuestionOption.id := "a"; QuestionOption.text := "first";
       QuestionOption.isCorrect := true; QuestionOption.order := 1 |};
    {| QuestionOption.id := "b"; QuestionOption.text := "second";
       QuestionOption.isCorrect := false; QuestionOption.order := 2 |} ].

Definition question (id : string) (type : QuestionType) (points : Z)
    : AssessmentQuestion.t :=
  {| AssessmentQuestion.questionId := id;
     AssessmentQuestion.order := 1;
     AssessmentQuestion.competency := "information_search";
     AssessmentQuestion.level := A1;
     AssessmentQuestion.points := points;
     AssessmentQuestion.timeAllowed := 60;
     AssessmentQuestion.questionText := "?";
     AssessmentQuestion.questionType := type;
     AssessmentQuestion.options := Some mcOptions;
     AssessmentQuestion.imageUrl := None;
     AssessmentQuestion.audioUrl := None;
     AssessmentQuestion.videoUrl := None |}.

(** A session as [create] leaves it, started at time 0. *)
Definition newSession (step : Z) (questions : list AssessmentQuestion.t)
    : Session.t :=
  {| Session.userId := "u1";
     Session.step := step;
     Session.status := NOT_STARTED;
     Session.questions := questions;
     Session.startTime := Some 0;
     Session.endTime := None;
     Session.timeAllowed := 2640;
     Session.timeRemaining := None;
     Session.answers := [];
     Session.score := None;
     Session.percentage := None;
     Session.levelAchieved := None;
     Session.passed := false;
     Session.canProceedToNextStep := false;
     Session.nextStepUnlockedAt := None;
     Session.ipAddress := None;
     Session.userAgent := None;
     Session.browserFingerprint := None;
     Session.isCompleted := false;
     Session.isSubmitted := false;
     Session.hasCheatingFlags := false;
     Session.cheatingDetails := [] |}.

Definition questionName (i : nat) : string := "q" +:+ pretty i.

(** 44 multiple-choice questions of one point each. *)
Definition questions44 : list AssessmentQuestion.t :=
  (fun i => question (questionName i) MULTIPLE_CHOICE 1) <$> seq 0 44.

(** The right option for the first [n] questions, the wrong one for the
    others. *)
Definition answerFirst (n : nat) : list SessionOp :=
  (fun i => SubmitAnswer (questionName i)
              (if bool_decide (i < n)%nat then ["a"] else ["b"]) 30 1000)
    <$> seq 0 44.

Definition acceptAll {A} (_ : A) : bool := true.

(** The step-1 session of the scenario: 30 of 44 answers right. *)
Definition session30of44 : Session.t :=
  runSession acceptAll (answerFirst 30) (newSession 1 questions44).

(** A session with one two-option question, and the same once completed. *)
Definition oneQuestion : Session.t :=
  newSession 1 [question "q1" MULTIPLE_CHOICE 1].

Definition oneQuestionCompleted : Session.t :=
  runSession acceptAll [MarkCompleted 1000 1000 1000] oneQuestion.

(** The same session after a wrong answer to its question. *)
Definition oneQuestionAnswered : Session.t :=
  runSession acceptAll [SubmitAnswer "q1" ["b"] 5 7] oneQuestion.

(** 40 multiple-choice questions of one point each, and the sessions that
    answer the first 23 and the first 24 of them right. *)
Definition questions40 : list AssessmentQuestion.t :=
  (fun i => question (questionName i) MULTIPLE_CHOICE 1) <$> seq 0 40.

Definition session23of40 : Session.t :=
  runSession acceptAll (take 40 (answerFirst 23)) (newSession 1 questions40).

Definition session24of40 : Session.t :=
  runSession acceptAll (take 40 (answerFirst 24)) (newSession 1 questions40).

(** A document that the schema accepts and no method produces: the one
    answer of the one-point question carries five points. *)
Definition sessionOverpaid : Session.t :=
  Session.set_answers
    [ {| AssessmentAnswer.questionId := "q1";
         AssessmentAnswer.selectedAnswers := ["a"];
         AssessmentAnswer.timeSpent := 5;
         AssessmentAnswer.isCorrect := true;
         AssessmentAnswer.pointsEarned := 5;
         AssessmentAnswer.answeredAt := 7;
         AssessmentAnswer.changedAnswers := 0;
         AssessmentAnswer.tabSwitches := 0;
         AssessmentAnswer.copyPasteDetected := false |} ]
    oneQuestion.

(** A session whose only question is a true/false one that carries the
    same two options. *)
Definition oneTrueFalse : Session.t :=
  newSession 1 [question "q1" TRUE_FALSE 1].

(** A progress record as [createForUser] leaves it. *)
Definition newProgress : Progress.t :=
  {| Progress.userId := "u1";
     Progress.currentStep := 1;
     Progress.highestLevelAchieved := A1;
     Progress.step1Completed := false;
     Progress.step1Score := None;
     Progress.step1Level := None;
     Progress.step1CompletedAt := None;
     Progress.step2Completed := false;
     Progress.step2Score := None;
     Progress.step2Level := None;
     Progress.step2CompletedAt := None;
     Progress.step3Completed := false;
     Progress.step3Score := None;
     Progress.step3Level := None;
     Progress.step3CompletedAt := None;
     Progress.totalAssessmentsTaken := 0;
     Progress.totalTimeSpent := 0;
     Progress.averageScore := 0;
     Progress.competencyScores := [];
     Progress.canRetakeStep1 := true;
     Progress.nextAssessmentDate := None;
     Progress.achievements := [] |}.

(** Step 1 passed with 80, then step 2 with 75. *)
Definition progress80and75 : Progress.t :=
  runProgress acceptAll
    [UpdateStepProgress 1 80 A2 1000; UpdateStepProgress 2 75 B2 2000]
    newProgress.

(** Step 1 failed with 11. *)
Definition progressFailed : Progress.t :=
  runProgress acceptAll [UpdateStepProgress 1 11 A1 1000] newProgress.

(** * Further parts of the models *)

(** ** Virtuals of the session schema *)

(** [durationMinutes]; [now] is the reading of [new Date()]. *)
Definition durationMinutes (now : Z) (s : Session.t) : Z :=
  match startTime s with
  | None => 0
  | Some start =>
      let endTime := match endTime s with Some e => e | None => now end in
      let durationMs := endTime - start in
      Math_round (inject_Z durationMs / inject_Z (1000 * 60))
  end.

(** [completionPercentage] *)
Definition completionPercentage (s : Session.t) : Z :=
  if bool_decide (length (questions s) = 0%nat) then 0
  else Math_round
         (Number_mul
            (Number_div (inject_Z (Z.of_nat (length (answers s))))
                        (inject_Z (Z.of_nat (length (questions s)))))
            100).

(** [statusText]: every status has an entry in [statusMap], so the
    ['Unknown'] of [statusMap[this.status] || 'Unknown'] is never taken. *)
Definition statusText (s : Session.t) : string :=
  match status s with
  | NOT_STARTED => "Not Started"
  | IN_PROGRESS => "In Progress"
  | COMPLETED => "Completed"
  | FAILED => "Failed"
  | EXPIRED => "Expired"
  end.

(** The fields of a session that hold the outcome of its completion. *)
Definition resultFields (s : Session.t) :=
  (score s, percentage s, levelAchieved s, passed s, canProceedToNextStep s,
   nextStepUnlockedAt s, endTime s, status s, isCompleted s, isSubmitted s).

(** A session whose questions all have one point. *)
Definition unitPoints (s : Session.t) : Prop :=
  Forall (fun q => AssessmentQuestion.points q = 1) (questions s).

(** ** Further methods and virtuals of the progress schema *)

(** [calculateOverallProgress]; the decimal constants are exact. *)
Definition calculateOverallProgress (p : Progress.t) : Z :=
  let progress := 0%Q in
  let progress :=
    if step1Completed p then (progress + (3333 # 100))%Q else progress in
  let progress :=
    if step2Completed p then (progress + (3333 # 100))%Q else progress in
  let progress :=
    if step3Completed p then (progress + (3334 # 100))%Q else progress in
  Math_round progress.

(** [completionStatus] *)
Definition completionStatus (p : Progress.t) : string :=
  if step3Completed p then "Completed"
  else if step2Completed p then "Advanced"
  else if step1Completed p then "Intermediate"
  else "Beginner".

(** [stepsCompleted] *)
Definition stepsCompleted (p : Progress.t) : Z :=
  let completed := 0 in
  let completed := if step1Completed p then completed + 1 else completed in
  let completed := if step2Completed p then completed + 1 else completed in
  let completed := if step3Completed p then completed + 1 else completed in
  completed.

(** [l.reduce(f)] without an initial value, on a non-empty array: the
    accumulator starts as the first element. *)
Definition reduce1 {A} (f : A -> A -> A) (first : A) (rest : list A) : A :=
  foldl f first rest.

(** [bestCompetency] *)
Definition bestCompetency (p : Progress.t) : option CompetencyScore.t :=
  match competencyScores p with
  | [] => None
  | first :: rest =>
      Some (reduce1
              (fun best current =>
                 if bool_decide (CompetencyScore.score best <
                                 CompetencyScore.score current)
                 then current else best)
              first rest)
  end.

(** [weakestCompetency] *)
Definition weakestCompetency (p : Progress.t) : option CompetencyScore.t :=
  match competencyScores p with
  | [] => None
  | first :: rest =>
      Some (reduce1
              (fun weakest current =>
                 if bool_decide (CompetencyScore.score current <
                                 CompetencyScore.score weakest)
                 then current else weakest)
              first rest)
  end.

(** [l.join(', ')]. *)
Fixpoint join (sep : string) (l : list string) : string :=
  match l with
  | [] => EmptyString
  | [x] => x
  | x :: rest => x +:+ sep +:+ join sep rest
  end.

(** [getRecommendations]; [`${nextStep}`] is the decimal notation of the
    step, and [if (nextStep)] passes for every number but 0. *)
Definition getRecommendations (p : Progress.t) : list string :=
  let recommendations := [] in
  let weakCompetencies :=
    filter (fun cs => CompetencyScore.score cs < 50) (competencyScores p) in
  let recommendations :=
    if bool_decide (0 < length weakCompetencies)%nat then
      recommendations ++
      ["Focus on improving: " +:+
       join ", " (CompetencyScore.competency <$> weakCompetencies)]
    else recommendations in
  let nextStep := getNextAvailableStep p in
  let recommendations :=
    match nextStep with
    | Some n =>
        if bool_decide (n = 0) then recommendations
        else recommendations ++
             ["You're ready to take Step " +:+ pretty n +:+ "!"]
    | None => recommendations
    end in
  let recommendations :=
    if step3Completed p then
      recommendations ++
      ["Congratulations! You have completed all assessment steps."]
    else recommendations in
  let recommendations :=
    if bool_decide (averageScore p < 75) then
      recommendations ++
      ["Consider practicing more to improve your overall score."]
    else recommendations in
  recommendations.

(** The entry of a competency in the scores of a record, as [findIndex]
    finds it. *)
Definition findCompetency (competency : string) (p : Progress.t)
    : option CompetencyScore.t :=
  snd <$> list_find (fun cs => CompetencyScore.competency cs = competency)
            (competencyScores p).

(** The index of that entry, as [findIndex] returns it; [None] is [-1]. *)
Definition findCompetencyIndex (competency : string) (p : Progress.t)
    : option nat :=
  fst <$> list_find (fun cs => CompetencyScore.competency cs = competency)
            (competencyScores p).

(** The four fields that a progress record keeps for one step; no step
    other than 1, 2 and 3 has fields. *)
Definition stepFields (step : Z) (p : Progress.t)
    : option (bool * option Z * option AssessmentLevel * option Z) :=
  match step with
  | 1 => Some (step1Completed p, step1Score p, step1Level p, step1CompletedAt p)
  | 2 => Some (step2Completed p, step2Score p, step2Level p, step2CompletedAt p)
  | 3 => Some (step3Completed p, step3Score p, step3Level p, step3CompletedAt p)
  | _ => None
  end.

(** The current step that the completion flags of a record call for. *)
Definition stepReached (p : Progress.t) : Z :=
  if step2Completed p || step3Completed p then 3
  else if step1Completed p then 2 else 1.

(** An operation that records a failed step 1 (a score below 25). *)
Definition failsStep1 (op : ProgressOp) : bool :=
  match op with
  | UpdateStepProgress step score _ _ =>
      bool_decide (step = 1) && bool_decide (score < 25)
  | _ => false
  end.

(** The step scores of a record are within the bounds of the schema. *)
Definition scoresInRange (p : Progress.t) : Prop :=
  Forall (fun x => 0 <= x <= 100) (scoresSet p).

(** ** The user model ([models/User.ts]): one-time passwords and locking *)

Inductive UserRole := ADMIN | STUDENT | SUPERVISOR.

Module OTPData.
Record t := mk {
  code : string;
  expiresAt : Z;
  attempts : Z;
  isUsed : bool;
}.
End OTPData.

(** The progress summary embedded in the user document. *)
Module UserProgress.
Record t := mk {
  currentStep : Z;
  highestLevelAchieved : AssessmentLevel;
  lastAssessmentDate : option Z;
  totalAssessmentsTaken : Z;
}.
End UserProgress.

Module User.
Record t := mk {
  firstName : string;
  lastName : string;
  email : string;
  password : string;
  role : UserRole;
  isEmailVerified : bool;
  isActive : bool;
  lastLogin : option Z;
  profilePicture : option string;
  loginAttempts : Z;
  lockUntil : option Z;
  passwordResetToken : option string;
  passwordResetExpires : option Z;
  emailVerificationToken : option string;
  emailVerificationExpires : option Z;
  otp : option OTPData.t;
  assessmentProgress : UserProgress.t;
  registrationIP : option string;
  lastLoginIP : option string;
  preferredLanguage : string;
  timezone : string;
}.

Definition set_otp v (u : t) : t :=
  let '(mk a b c d e f g h i j k l m n o _ q r s w x) := u in
  mk a b c d e f g h i j k l m n o v q r s w x.
End User.

(** [isAccountLocked] (the virtual [isLocked] has the same body); [now] is
    the reading of [new Date()]. *)
Definition isAccountLocked (now : Z) (u : User.t) : bool :=
  match User.lockUntil u with
  | Some lockUntil => bool_decide (now < lockUntil)
  | None => false
  end.

(** [generateOTP]; [expireMinutes] is [config.OTP_EXPIRE_TIME], [random] the
    value of [Math.random()] and [now] the reading of [Date.now()]. The
    product and the sum are taken exactly, where the source rounds them to
    doubles. *)
Definition generateOTP (expireMinutes : Z) (random : Q) (now : Z)
    : M User.t string :=
  let otp := pretty (Qfloor (100000 + random * 900000)%Q) in
  assign (User.set_otp
            (Some {| OTPData.code := otp;
                     OTPData.expiresAt := now + expireMinutes * 60 * 1000;
                     OTPData.attempts := 0;
                     OTPData.isUsed := false |}));;
  mret otp.

(** [verifyOTP]; [now] is the reading of [new Date()]. *)
Definition verifyOTP (candidateOTP : string) (now : Z) : M User.t bool :=
  u ← this;
  match User.otp u with
  | None => mret false
  | Some otp =>
      if OTPData.isUsed otp || bool_decide (OTPData.expiresAt otp < now)
      then mret false
      else
        let otp :=
          {| OTPData.code := OTPData.code otp;
             OTPData.expiresAt := OTPData.expiresAt otp;
             OTPData.attempts := OTPData.attempts otp + 1;
             OTPData.isUsed := OTPData.isUsed otp |} in
        assign (User.set_otp (Some otp));;
        let used :=
          {| OTPData.code := OTPData.code otp;
             OTPData.expiresAt := OTPData.expiresAt otp;
             OTPData.attempts := OTPData.attempts otp;
             OTPData.isUsed := true |} in
        if bool_decide (5 < OTPData.attempts otp) then
          assign (User.set_otp (Some used));; mret false
        else if bool_decide (OTPData.code otp = candidateOTP) then
          assign (User.set_otp (Some used));; mret true
        else mret false
  end.

(** [clearOTP] *)
Definition clearOTP : M User.t unit := assign (User.set_otp None).

(** A call of [verifyOTP], and the results of a sequence of calls on the
    document that each call leaves to the next. *)
Fixpoint verifyAll (calls : list (string * Z)) (u : User.t)
    : list bool * User.t :=
  match calls with
  | [] => ([], u)
  | (candidate, now) :: calls =>
      let '(r, u') := verifyOTP candidate now u in
      let '(rs, u'') := verifyAll calls u' in
      (match r with inr b => b | inl _ => false end :: rs, u'')
  end.

(** ** The question model ([models/Question.ts]) *)

Module QuestionModel.
Record t := mk {
  questionText : string;
  questionType : QuestionType;
  competency : string;
  level : AssessmentLevel;
  step : Z;
  options : option (list QuestionOption.t);
  correctAnswers : list string;
  difficulty : Z;
  timeAllowed : Z;
  points : Z;
  explanation : option string;
  tags : list string;
  isActive : bool;
  imageUrl : option string;
  audioUrl : option string;
  videoUrl : option string;
  timesAnswered : Z;
  correctAnswerRate : Z;
}.

Definition set_options v (q : t) : t :=
  let '(mk a b c d e _ g h i j k l m n o p r s) := q in
  mk a b c d e v g h i j k l m n o p r s.
Definition set_difficulty v (q : t) : t :=
  let '(mk a b c d e f g _ i j k l m n o p r s) := q in
  mk a b c d e f g v i j k l m n o p r s.
Definition set_timesAnswered v (q : t) : t :=
  let '(mk a b c d e f g h i j k l m n o p _ s) := q in
  mk a b c d e f g h i j k l m n o p v s.
Definition set_correctAnswerRate v (q : t) : t :=
  let '(mk a b c d e f g h i j k l m n o p r _) := q in
  mk a b c d e f g h i j k l m n o p r v.

(** [isCorrectAnswer] *)
Definition isCorrectAnswer (selectedAnswers : list string) (q : t) : bool :=
  if bool_decide (length selectedAnswers = 0%nat) then false
  else
    let sortedCorrect := sort (correctAnswers q) in
    let sortedSelected := sort selectedAnswers in
    bool_decide (length sortedCorrect = length sortedSelected) &&
    every (fun answer index =>
             bool_decide (sortedSelected !! index = Some answer))
          sortedCorrect.

(** [calculateScore] *)
Definition calculateScore (selectedAnswers : list string) (q : t) : Z :=
  if isCorrectAnswer selectedAnswers q then points q else 0.

(** The name of a level, as a template literal prints it. *)
Definition levelName (l : AssessmentLevel) : string :=
  match l with
  | A1 => "A1" | A2 => "A2" | B1 => "B1" | B2 => "B2" | C1 => "C1" | C2 => "C2"
  end.

(** The table of the levels of each step in the pre-save hook. *)
Definition stepLevels (step : Z) : option (list AssessmentLevel) :=
  match step with
  | 1 => Some [A1; A2]
  | 2 => Some [B1; B2]
  | 3 => Some [C1; C2]
  | _ => None
  end.

(** [s.toLowerCase()] on the letters A to Z; every other code unit is left
    as it is. The hook only asks whether the result is ['true'] or
    ['false'], and no character outside A to Z has one of the letters of
    these two words as its lower case. *)
Definition lowerChar (c : Ascii.ascii) : Ascii.ascii :=
  let n := Ascii.nat_of_ascii c in
  if bool_decide (65 <= n <= 90)%nat then Ascii.ascii_of_nat (n + 32) else c.

Fixpoint toLowerCase (s : string) : string :=
  match s with
  | EmptyString => EmptyString
  | String c rest => String (lowerChar c) (toLowerCase rest)
  end.

(** A word between double quotes. *)
Definition quoted (s : string) : string :=
  String (Ascii.ascii_of_nat 34) (s +:+ String (Ascii.ascii_of_nat 34) EmptyString).

(** The [pre('save')] hook of the question schema, in its four parts.
    [next(err)] ends the hook and fails the save; reading [includes] of the
    missing entry of a step other than 1, 2 and 3 throws a [TypeError],
    which fails the save as well. An option without id has the empty string
    as id.

    "Validate step and level consistency", *)
Definition checkStepLevel : M t unit :=
  q ← this;
  match stepLevels (step q) with
  | None =>
      throw (JsError "Cannot read properties of undefined (reading 'includes')")
  | Some levels =>
      if negb (bool_decide (level q ∈ levels)) then
        throw (JsError ("Level " +:+ levelName (level q) +:+
                        " is not valid for Step " +:+ pretty (step q)))
      else mret tt
  end.

(** "generate option IDs for multiple choice questions", *)
Definition generateOptionIds : M t unit :=
  q ← this;
  match questionType q, options q with
  | MULTIPLE_CHOICE, Some options =>
      assign (set_options
                (Some (imap (fun index option =>
                               if bool_decide
                                    (QuestionOption.id option = EmptyString)
                               then {| QuestionOption.id :=
                                         "option_" +:+ pretty (index + 1)%nat;
                                       QuestionOption.text :=
                                         QuestionOption.text option;
                                       QuestionOption.isCorrect :=
                                         QuestionOption.isCorrect option;
                                       QuestionOption.order :=
                                         QuestionOption.order option |}
                               else option)
                            options)))
  | _, _ => mret tt
  end.

(** "validate correct answers for multiple choice", *)
Definition checkMultipleChoice : M t unit :=
  q ← this;
  match questionType q with
  | MULTIPLE_CHOICE =>
      match options q with
      | None | Some [] =>
          throw (JsError "Multiple choice questions must have options")
      | Some options =>
          let optionIds := QuestionOption.id <$> options in
          let invalidAnswers :=
            filter (fun answer => answer ∉ optionIds) (correctAnswers q) in
          if bool_decide (0 < length invalidAnswers)%nat then
            throw (JsError ("Correct answers contain invalid option IDs: "
                            +:+ join ", " invalidAnswers))
          else mret tt
      end
  | _ => mret tt
  end.

(** and "for true/false questions, ensure correct answers are valid". *)
Definition checkTrueFalse : M t unit :=
  q ← this;
  match questionType q with
  | TRUE_FALSE =>
      let validAnswers := ["true"; "false"] in
      let invalidAnswers :=
        filter (fun answer => toLowerCase answer ∉ validAnswers)
               (correctAnswers q) in
      if bool_decide (0 < length invalidAnswers)%nat then
        throw (JsError ("True/false questions must have " +:+ quoted "true"
                        +:+ " or " +:+ quoted "false"
                        +:+ " as correct answers"))
      else mret tt
  | _ => mret tt
  end.

Definition questionPreSave : M t unit :=
  checkStepLevel;; generateOptionIds;; checkMultipleChoice;; checkTrueFalse.

Section QuestionPersistence.

(** As for the other models: [save()] validates, then runs the hook. *)
Variable questionValid : t -> bool.

Definition questionSave : M t unit :=
  q ← this;
  if questionValid q then questionPreSave else throw ValidationError.

(** [incrementStats] *)
Definition incrementStats (isCorrect : bool) : M t unit :=
  q ← this;
  assign (set_timesAnswered (timesAnswered q + 1));;
  q ← this;
  (if bool_decide (timesAnswered q = 1) then
     assign (set_correctAnswerRate (if isCorrect then 100 else 0))
   else
     let previousCorrect :=
       Math_round
         (Number_mul (Number_div (inject_Z (correctAnswerRate q)) 100)
                     (inject_Z (timesAnswered q - 1))) in
     let newCorrect := previousCorrect + (if isCorrect then 1 else 0) in
     assign (set_correctAnswerRate
               (Math_round
                  (Number_mul
                     (Number_div (inject_Z newCorrect)
                                 (inject_Z (timesAnswered q)))
                     100))));;
  questionSave.

(** [updateDifficulty] *)
Definition updateDifficulty : M t unit :=
  q ← this;
  if bool_decide (10 <= timesAnswered q) then
    (if bool_decide (80 < correctAnswerRate q) then
       assign (set_difficulty (Z.max 1 (difficulty q - 1)))
     else if bool_decide (correctAnswerRate q < 40) then
       assign (set_difficulty (Z.min 5 (difficulty q + 1)))
     else mret tt);;
    questionSave
  else mret tt.

End QuestionPersistence.
End QuestionModel.

(** ** Example documents of the further models *)

(** A user as registration leaves it, without a one-time password. *)
Definition newUser : User.t :=
  {| User.firstName := "Ada";
     User.lastName := "Lovelace";
     User.email := "ada@example.com";
     User.password := "secret";
     User.role := STUDENT;
     User.isEmailVerified := false;
     User.isActive := true;
     User.lastLogin := None;
     User.profilePicture := None;
     User.loginAttempts := 0;
     User.lockUntil := None;
     User.passwordResetToken := None;
     User.passwordResetExpires := None;
     User.emailVerificationToken := None;
     User.emailVerificationExpires := None;
     User.otp := None;
     User.assessmentProgress :=
       {| UserProgress.currentStep := 1;
          UserProgress.highestLevelAchieved := A1;
          UserProgress.lastAssessmentDate := None;
          UserProgress.totalAssessmentsTaken := 0 |};
     User.registrationIP := None;
     User.lastLoginIP := None;
     User.preferredLanguage := "en";
     User.timezone := "UTC" |}.

(** A step-1 multiple-choice question of two options, the first of them
    without an id, whose correct answer names the id that the hook
    generates for it. *)
Definition newQuestion : QuestionModel.t :=
  {| QuestionModel.questionText := "Which of these is a search engine?";
     QuestionModel.questionType := MULTIPLE_CHOICE;
     QuestionModel.competency := "information_search";
     QuestionModel.level := A1;
     QuestionModel.step := 1;
     QuestionModel.options :=
       Some [ {| QuestionOption.id := EmptyString;
                 QuestionOption.text := "DuckDuckGo";
                 QuestionOption.isCorrect := true;
                 QuestionOption.order := 1 |};
              {| QuestionOption.id := "b";
                 QuestionOption.text := "A spreadsheet";
                 QuestionOption.isCorrect := false;
                 QuestionOption.order := 2 |} ];
     QuestionModel.correctAnswers := ["option_1"];
     QuestionModel.difficulty := 1;
     QuestionModel.timeAllowed := 60;
     QuestionModel.points := 1;
     QuestionModel.explanation := None;
     QuestionModel.tags := [];
     QuestionModel.isActive := true;
     QuestionModel.imageUrl := None;
     QuestionModel.audioUrl := None;
     QuestionModel.videoUrl := None;
     QuestionModel.timesAnswered := 0;
     QuestionModel.correctAnswerRate := 0 |}.

(** * Properties *)

(** ** Rounding *)

Lemma Math_round_div (x y : Z) :
  0 < y -> Math_round (inject_Z x / inject_Z y) = (2 * x + y) / (2 * y).
Proof.
  intros Hy. unfold Math_round.
  destruct y as [|py|py]; try lia.
  assert (Heq : (inject_Z x / inject_Z (Z.pos py) + (1 # 2) ==
                 (2 * x + Z.pos py) # (2 * py))%Q).
  { unfold Qeq, Qdiv, Qinv, Qmult, Qplus, inject_Z. simpl. lia. }
  rewrite (Qfloor_comp _ _ Heq). reflexivity.
Qed.

Lemma nearest_div (x y : Z) : 0 < y -> nearest ((2 * x + y) / (2 * y)) x y.
Proof.
  intros Hy. unfold nearest.
  pose proof (Z.div_mod (2 * x + y) (2 * y) ltac:(lia)) as Hd.
  pose proof (Z.mod_pos_bound (2 * x + y) (2 * y) ltac:(lia)) as Hm.
  nia.
Qed.

Lemma nearest_unique (p p' x y : Z) :
  0 < y -> nearest p x y -> nearest p' x y -> p = p'.
Proof. unfold nearest. intros Hy [H1 H2] [H3 H4]. nia. Qed.

(** ** Rounding to a double *)

Lemma pow2_Z (l : Z) : 0 <= l -> (2 ^ l == inject_Z (2 ^ l))%Q.
Proof. intros Hl. by rewrite Zpower_Qpower. Qed.

Lemma pow2_pos (l : Z) : (0 < 2 ^ l)%Q.
Proof. by apply Qpower_0_lt. Qed.

Lemma pow2_succ (l : Z) : (2 ^ (l + 1) == 2 * 2 ^ l)%Q.
Proof. rewrite Qpower_plus by done. change (2 ^ 1)%Q with 2%Q. lra. Qed.

Lemma floorLog2_spec (q : Q) :
  (0 < q)%Q -> (2 ^ floorLog2 q <= q)%Q /\ (q < 2 ^ (floorLog2 q + 1))%Q.
Proof.
  intros Hq. unfold floorLog2. destruct (Qle_bool 1 q) eqn:Hone.
  - apply Qle_bool_iff in Hone.
    assert (Hc : 1 <= Qfloor q).
    { change 1 with (Qfloor 1). by apply Qfloor_resp_le. }
    destruct (Z.log2_spec (Qfloor q)) as [Hlo Hhi]; [lia|].
    pose proof (Z.log2_nonneg (Qfloor q)) as Hl.
    rewrite !pow2_Z by lia. split.
    + apply Qle_trans with (inject_Z (Qfloor q)); [|apply Qfloor_le].
      by rewrite <- Zle_Qle.
    + apply Qlt_le_trans with (inject_Z (Qfloor q + 1)); [apply Qlt_floor|].
      rewrite <- Zle_Qle. unfold Z.succ in Hhi. lia.
  - assert (Hlt : (q < 1)%Q).
    { apply Qnot_le_lt. intros H. apply Qle_bool_iff in H. congruence. }
    assert (Hinv : (1 < / q)%Q).
    { apply Qlt_shift_inv_l; [done|]. lra. }
    pose proof (Qle_ceiling (/ q)) as Hceil.
    pose proof (Qceiling_lt (/ q)) as Hceil'.
    assert (Hc : 1 < Qceiling (/ q)).
    { rewrite Zlt_Qlt. by apply Qlt_le_trans with (/ q). }
    destruct (Z.log2_up_spec (Qceiling (/ q)) Hc) as [Hlo Hhi].
    pose proof (Z.log2_up_pos (Qceiling (/ q)) Hc) as Hj.
    set (j := Z.log2_up (Qceiling (/ q))) in *.
    assert (Hone' : (q * / q == 1)%Q) by (apply Qmult_inv_r; lra).
    split.
    + rewrite Qpower_opp, pow2_Z by lia.
      assert (0 < inject_Z (2 ^ j))%Q.
      { change 0%Q with (inject_Z 0). rewrite <- Zlt_Qlt. lia. }
      apply Qle_shift_inv_r; [done|]. rewrite <- Hone'.
      apply Qmult_le_l; [done|].
      apply Qle_trans with (inject_Z (Qceiling (/ q))); [done|].
      by rewrite <- Zle_Qle.
    + replace (- j + 1) with (- (j - 1)) by lia.
      rewrite Qpower_opp, pow2_Z by lia.
      assert (0 < inject_Z (2 ^ (j - 1)))%Q.
      { change 0%Q with (inject_Z 0). rewrite <- Zlt_Qlt. lia. }
      apply Qlt_shift_inv_l; [done|]. rewrite <- Hone'.
      apply Qmult_lt_l; [done|].
      apply Qle_lt_trans with (inject_Z (Qceiling (/ q) - 1)); [|done].
      rewrite <- Zle_Qle. unfold Z.pred in Hlo. replace (j - 1) with (j + -1) by lia. lia.
Qed.

Lemma floorLog2_unique (q : Q) (l : Z) :
  (2 ^ l <= q)%Q -> (q < 2 ^ (l + 1))%Q -> floorLog2 q = l.
Proof.
  intros Hlo Hhi.
  assert (Hq : (0 < q)%Q) by (pose proof (pow2_pos l); lra).
  destruct (floorLog2_spec q Hq) as [Hlo' Hhi'].
  assert (floorLog2 q < l + 1).
  { apply (Qpower_lt_compat_l_inv 2); [lra|reflexivity]. }
  assert (l < floorLog2 q + 1).
  { apply (Qpower_lt_compat_l_inv 2); [lra|reflexivity]. }
  lia.
Qed.

Lemma floorLog2_comp (q q' : Q) : (q == q')%Q -> floorLog2 q = floorLog2 q'.
Proof.
  intros H. unfold floorLog2.
  assert (Qle_bool 1 q = Qle_bool 1 q') as ->.
  { apply eq_true_iff_eq. rewrite !Qle_bool_iff. by rewrite H. }
  by rewrite (Qfloor_comp _ _ H), (Qceiling_comp (/ q) (/ q')) by by rewrite H.
Qed.

Lemma floorLog2_mono (q q' : Q) :
  (0 < q)%Q -> (q <= q')%Q -> floorLog2 q <= floorLog2 q'.
Proof.
  intros Hq Hle.
  destruct (floorLog2_spec q Hq) as [Hlo _].
  destruct (floorLog2_spec q') as [_ Hhi']; [lra|].
  assert (floorLog2 q < floorLog2 q' + 1); [|lia].
  apply (Qpower_lt_compat_l_inv 2); [lra|reflexivity].
Qed.

Lemma roundHalfEven_spec (x : Q) : isRoundHalfEven x (roundHalfEven x).
Proof.
  unfold isRoundHalfEven, roundHalfEven.
  pose proof (Qfloor_le x) as Hlo. pose proof (Qlt_floor x) as Hhi.
  rewrite inject_Z_plus in Hhi. change (inject_Z 1) with 1%Q in Hhi.
  destruct (Qcompare_spec (x - inject_Z (Qfloor x)) (1 # 2)) as [He|Hl|Hg].
  - destruct (Z.even (Qfloor x)) eqn:Hev.
    + split_and!; [lra|lra|done|intros; lra].
    + rewrite inject_Z_plus. change (inject_Z 1) with 1%Q.
      assert (Z.even (Qfloor x + 1) = true).
      { rewrite Z.even_add, Hev. reflexivity. }
      split_and!; [lra|lra|done|done].
  - split_and!; [lra|lra|intros; lra|intros; lra].
  - rewrite inject_Z_plus. change (inject_Z 1) with 1%Q.
    split_and!; [lra|lra|intros; lra|intros; lra].
Qed.

Lemma isRoundHalfEven_mono (x y : Q) (m m' : Z) :
  isRoundHalfEven x m -> isRoundHalfEven y m' -> (x <= y)%Q -> m <= m'.
Proof.
  intros (Hlo & _ & _ & Hev) (_ & Hhi' & Hev' & _) Hle.
  destruct (Z.le_gt_cases m m') as [|Hgt]; [done|exfalso].
  assert (Hq : (inject_Z m' + 1 <= inject_Z m)%Q).
  { change 1%Q with (inject_Z 1). rewrite <- inject_Z_plus, <- Zle_Qle. lia. }
  assert (Hm : m = m' + 1).
  { apply Z.le_antisymm; [|lia].
    rewrite Zle_Qle, inject_Z_plus. change (inject_Z 1) with 1%Q. lra. }
  assert (Z.even m = true) by (apply Hev; lra).
  assert (Z.even m' = true) by (apply Hev'; subst m; rewrite inject_Z_plus in *; change (inject_Z 1) with 1%Q in *; lra).
  subst m. rewrite Z.even_add in *. destruct (Z.even m'); done.
Qed.

Lemma roundHalfEven_mono (x y : Q) :
  (x <= y)%Q -> roundHalfEven x <= roundHalfEven y.
Proof.
  intros. eapply isRoundHalfEven_mono; [apply roundHalfEven_spec..|done].
Qed.

Lemma roundHalfEven_comp (x y : Q) :
  (x == y)%Q -> roundHalfEven x = roundHalfEven y.
Proof.
  intros H. apply Z.le_antisymm; apply roundHalfEven_mono; lra.
Qed.

Lemma roundHalfEven_Z (m : Z) : roundHalfEven (inject_Z m) = m.
Proof.
  apply Z.le_antisymm.
  - eapply (isRoundHalfEven_mono _ (inject_Z m) _ m);
      [apply roundHalfEven_spec| |lra].
    split_and!; try lra; intros; lra.
  - eapply (isRoundHalfEven_mono (inject_Z m) _ m);
      [|apply roundHalfEven_spec|lra].
    split_and!; try lra; intros; lra.
Qed.

Lemma pow2_52 : (2 ^ 52 == 4503599627370496)%Q.
Proof. reflexivity. Qed.

Lemma pow2_53 : (2 ^ 53 == 9007199254740992)%Q.
Proof. reflexivity. Qed.

Section RoundPositive.

Variable q : Q.
Hypothesis Hq : (0 < q)%Q.

Let e := floorLog2 q - 52.
Let x := (q / 2 ^ e)%Q.

Lemma scaled_value : (q == x * 2 ^ e)%Q.
Proof.
  subst x. pose proof (pow2_pos e). field. lra.
Qed.

Lemma scaled_bounds : (4503599627370496 <= x)%Q /\ (x < 9007199254740992)%Q.
Proof.
  destruct (floorLog2_spec q Hq) as [Hlo Hhi].
  pose proof (pow2_pos e) as He.
  replace (floorLog2 q + 1) with (53 + e) in Hhi by (subst e; lia).
  replace (floorLog2 q) with (52 + e) in Hlo by (subst e; lia).
  rewrite Qpower_plus in Hlo, Hhi by done.
  rewrite pow2_52 in Hlo. rewrite pow2_53 in Hhi.
  subst x. split.
  - by apply Qle_shift_div_l.
  - by apply Qlt_shift_div_r.
Qed.

Lemma mantissa_bounds :
  4503599627370496 <= roundHalfEven x <= 9007199254740992.
Proof.
  destruct scaled_bounds as [Hlo Hhi]. split.
  - rewrite <- (roundHalfEven_Z 4503599627370496).
    by apply roundHalfEven_mono.
  - rewrite <- (roundHalfEven_Z 9007199254740992).
    apply roundHalfEven_mono, Qlt_le_weak, Hhi.
Qed.

Lemma roundPositive_error :
  (q * (1 - roundoff) <= roundPositive q)%Q /\
  (roundPositive q <= q * (1 + roundoff))%Q.
Proof.
  destruct scaled_bounds as [Hlo Hhi].
  destruct (roundHalfEven_spec x) as (Hm1 & Hm2 & _).
  pose proof (pow2_pos e) as He.
  unfold roundPositive. fold e. fold x.
  set (m := inject_Z (roundHalfEven x)) in *.
  pose proof scaled_value as Hv. unfold roundoff.
  assert (H1 : ((x - m) * 2 ^ e <= (1 # 2) * 2 ^ e)%Q)
    by (apply Qmult_le_compat_r; lra).
  assert (H2 : ((m - x) * 2 ^ e <= (1 # 2) * 2 ^ e)%Q)
    by (apply Qmult_le_compat_r; lra).
  assert (H3 : (4503599627370496 * 2 ^ e <= x * 2 ^ e)%Q)
    by (apply Qmult_le_compat_r; lra).
  set (E := (2 ^ e)%Q) in *. set (xE := (x * E)%Q) in *.
  assert (H1' : (xE - m * E <= (1 # 2) * E)%Q) by (subst xE; lra).
  assert (H2' : (m * E - xE <= (1 # 2) * E)%Q) by (subst xE; lra).
  split; lra.
Qed.

Lemma roundPositive_lower : (2 ^ floorLog2 q <= roundPositive q)%Q.
Proof.
  pose proof mantissa_bounds as [Hm _]. pose proof (pow2_pos e) as He.
  replace (floorLog2 q) with (52 + e) at 1 by (subst e; lia).
  rewrite Qpower_plus, pow2_52 by done.
  unfold roundPositive. fold e. fold x.
  apply Qmult_le_compat_r; [|lra].
  change 4503599627370496%Q with (inject_Z 4503599627370496).
  by rewrite <- Zle_Qle.
Qed.

Lemma roundPositive_upper : (roundPositive q <= 2 ^ (floorLog2 q + 1))%Q.
Proof.
  pose proof mantissa_bounds as [_ Hm]. pose proof (pow2_pos e) as He.
  replace (floorLog2 q + 1) with (53 + e) by (subst e; lia).
  rewrite Qpower_plus, pow2_53 by done.
  unfold roundPositive. fold e. fold x.
  apply Qmult_le_compat_r; [|lra].
  change 9007199254740992%Q with (inject_Z 9007199254740992).
  by rewrite <- Zle_Qle.
Qed.

End RoundPositive.

Lemma roundPositive_pos (q : Q) : (0 < q)%Q -> (0 < roundPositive q)%Q.
Proof.
  intros Hq. pose proof (roundPositive_lower q Hq).
  pose proof (pow2_pos (floorLog2 q)). lra.
Qed.

Lemma roundPositive_mono (q q' : Q) :
  (0 < q)%Q -> (q <= q')%Q -> (roundPositive q <= roundPositive q')%Q.
Proof.
  intros Hq Hle. assert (Hq' : (0 < q')%Q) by lra.
  pose proof (floorLog2_mono q q' Hq Hle) as Hl.
  destruct (decide (floorLog2 q = floorLog2 q')) as [Heq|Hne].
  - unfold roundPositive. rewrite Heq.
    pose proof (pow2_pos (floorLog2 q' - 52)) as He.
    apply Qmult_le_compat_r; [|lra]. rewrite <- Zle_Qle.
    apply roundHalfEven_mono.
    apply Qmult_le_compat_r; [done|]. apply Qinv_le_0_compat. lra.
  - apply Qle_trans with (2 ^ (floorLog2 q + 1))%Q;
      [by apply roundPositive_upper|].
    apply Qle_trans with (2 ^ floorLog2 q')%Q;
      [|by apply roundPositive_lower].
    apply Qpower_le_compat_l; [lia|lra].
Qed.

Lemma roundPositive_comp (q q' : Q) :
  (q == q')%Q -> (roundPositive q == roundPositive q')%Q.
Proof.
  intros H. unfold roundPositive. rewrite (floorLog2_comp q q' H).
  rewrite (roundHalfEven_comp (q / _) (q' / 2 ^ (floorLog2 q' - 52))); [done|].
  by rewrite H.
Qed.

Lemma toDouble_zero (q : Q) : (q == 0)%Q -> toDouble q = 0%Q.
Proof. intros H. unfold toDouble. by rewrite (proj1 (Qeq_alt q 0) H). Qed.

Lemma toDouble_pos (q : Q) : (0 < q)%Q -> toDouble q = roundPositive q.
Proof. intros H. unfold toDouble. by rewrite (proj1 (Qgt_alt q 0) H). Qed.

Lemma toDouble_neg (q : Q) :
  (q < 0)%Q -> toDouble q = (- roundPositive (- q))%Q.
Proof. intros H. unfold toDouble. by rewrite (proj1 (Qlt_alt q 0) H). Qed.

Lemma toDouble_mono (q q' : Q) : (q <= q')%Q -> (toDouble q <= toDouble q')%Q.
Proof.
  intros Hle.
  destruct (Qcompare_spec q 0) as [Hz|Hn|Hp],
           (Qcompare_spec q' 0) as [Hz'|Hn'|Hp']; try lra.
  - rewrite (toDouble_zero q), (toDouble_zero q') by done. lra.
  - rewrite (toDouble_zero q), (toDouble_pos q') by done.
    pose proof (roundPositive_pos q' Hp'). lra.
  - rewrite (toDouble_neg q), (toDouble_zero q') by done.
    pose proof (roundPositive_pos (- q)). lra.
  - rewrite (toDouble_neg q), (toDouble_neg q') by done.
    pose proof (roundPositive_mono (- q') (- q)). lra.
  - rewrite (toDouble_neg q), (toDouble_pos q') by done.
    pose proof (roundPositive_pos (- q)). pose proof (roundPositive_pos q').
    lra.
  - rewrite (toDouble_pos q), (toDouble_pos q') by done.
    by apply roundPositive_mono.
Qed.

Lemma toDouble_comp (q q' : Q) : (q == q')%Q -> (toDouble q == toDouble q')%Q.
Proof.
  intros H. apply Qle_antisym; apply toDouble_mono; lra.
Qed.

Lemma toDouble_nonneg (q : Q) : (0 <= q)%Q -> (0 <= toDouble q)%Q.
Proof. intros H. change 0%Q with (toDouble 0). by apply toDouble_mono. Qed.

(** The relative error of a rounding is at most the unit roundoff. *)
Lemma toDouble_error (q : Q) :
  (0 <= q)%Q ->
  (q * (1 - roundoff) <= toDouble q)%Q /\ (toDouble q <= q * (1 + roundoff))%Q.
Proof.
  intros Hq. destruct (Qcompare_spec q 0) as [Hz|Hn|Hp]; [|lra|].
  - rewrite (toDouble_zero q) by done. unfold roundoff. lra.
  - rewrite (toDouble_pos q) by done. by apply roundPositive_error.
Qed.

(** An integer of at most 53 bits is a double. *)
Lemma toDouble_integer (k : Z) :
  0 <= k <= 9007199254740992 -> (toDouble (inject_Z k) == inject_Z k)%Q.
Proof.
  intros Hk. destruct (decide (k = 0)) as [->|Hne]; [done|].
  assert (Hpos : (0 < inject_Z k)%Q).
  { change 0%Q with (inject_Z 0). rewrite <- Zlt_Qlt. lia. }
  rewrite toDouble_pos by done. unfold roundPositive.
  destruct (floorLog2_spec _ Hpos) as [Hlo _].
  set (l := floorLog2 (inject_Z k)) in *.
  assert (Hl : l <= 53).
  { apply (Qpower_le_compat_l_inv 2); [|reflexivity].
    apply Qle_trans with (inject_Z k); [done|].
    rewrite pow2_53. change 9007199254740992%Q with (inject_Z 9007199254740992).
    rewrite <- Zle_Qle. lia. }
  destruct (decide (l = 53)) as [Hl53|Hl53].
  - assert (k = 9007199254740992) as ->.
    { apply Z.le_antisymm; [lia|]. rewrite Zle_Qle.
      rewrite Hl53, pow2_53 in Hlo. exact Hlo. }
    rewrite Hl53. reflexivity.
  - assert (He : (2 ^ (l - 52) == / inject_Z (2 ^ (52 - l)))%Q).
    { replace (l - 52) with (- (52 - l)) by lia.
      rewrite Qpower_opp, pow2_Z by lia. reflexivity. }
    assert (Hp : (0 < inject_Z (2 ^ (52 - l)))%Q).
    { change 0%Q with (inject_Z 0). rewrite <- Zlt_Qlt. lia. }
    rewrite (roundHalfEven_comp _ (inject_Z (k * 2 ^ (52 - l)))).
    + rewrite roundHalfEven_Z, He, inject_Z_mult. field. lra.
    + rewrite He, inject_Z_mult. field. lra.
Qed.

(** ** A ratio as a percentage *)

Lemma Math_round_mono (x y : Q) : (x <= y)%Q -> Math_round x <= Math_round y.
Proof. intros H. unfold Math_round. apply Qfloor_resp_le. lra. Qed.

Lemma Math_round_Z (k : Z) : Math_round (inject_Z k) = k.
Proof.
  unfold Math_round. apply Z.le_antisymm.
  - assert (Qfloor (inject_Z k + (1 # 2)) < k + 1); [|lia].
    rewrite Zlt_Qlt.
    apply Qle_lt_trans with (inject_Z k + (1 # 2))%Q; [apply Qfloor_le|].
    rewrite inject_Z_plus. change (inject_Z 1) with 1%Q. lra.
  - rewrite <- (Qfloor_Z k) at 1. apply Qfloor_resp_le. lra.
Qed.

Lemma percent_mono (e e' t : Z) :
  0 < t -> e <= e' -> percent e t <= percent e' t.
Proof.
  intros Ht He. unfold percent. apply Math_round_mono.
  unfold Number_mul, Number_div. apply toDouble_mono.
  apply Qmult_le_compat_r; [|lra]. apply toDouble_mono.
  apply Qmult_le_compat_r; [by rewrite <- Zle_Qle|].
  apply Qinv_le_0_compat. change 0%Q with (inject_Z 0).
  rewrite <- Zle_Qle. lia.
Qed.

Lemma percent_zero (t : Z) : percent 0 t = 0.
Proof.
  unfold percent, Number_div, Number_mul.
  rewrite (toDouble_zero (inject_Z 0 / inject_Z t)).
  - reflexivity.
  - change (inject_Z 0) with 0%Q. unfold Qdiv. ring.
Qed.

Lemma percent_all (t : Z) : 0 < t -> percent t t = 100.
Proof.
  intros Ht. unfold percent, Number_mul, Number_div.
  assert (H : (inject_Z t / inject_Z t == 1)%Q).
  { field. intros H. unfold Qeq in H. simpl in H. lia. }
  assert (H1 : (toDouble (inject_Z t / inject_Z t) == 1)%Q).
  { rewrite (toDouble_comp _ 1 H). reflexivity. }
  assert (H2 : (toDouble (toDouble (inject_Z t / inject_Z t) * 100) == 100)%Q).
  { rewrite (toDouble_comp _ 100); [reflexivity|]. rewrite H1. reflexivity. }
  unfold Math_round. by rewrite (Qfloor_comp _ (100 + (1 # 2))%Q) by by rewrite H2.
Qed.

Lemma percent_range (e t : Z) : 0 <= e <= t -> 0 < t -> 0 <= percent e t <= 100.
Proof.
  intros He Ht. split.
  - rewrite <- (percent_zero t). apply percent_mono; lia.
  - rewrite <- (percent_all t Ht). apply percent_mono; lia.
Qed.

(** Within the first [2 ^ 43] integers the two roundings of the quotient
    and of the product move the percentage by less than the distance of
    [100 * e / t] to the next half-integer, so the result is within one half
    of the exact percentage. *)
Lemma percent_closest (e t : Z) :
  0 <= e <= 8796093022208 -> 0 < t -> closest (percent e t) (100 * e) t.
Proof.
  intros He Ht. unfold percent, Math_round, Number_mul, Number_div.
  set (E := inject_Z e). set (T := inject_Z t).
  assert (HE : (0 <= E)%Q /\ (E <= 8796093022208)%Q).
  { subst E. split.
    - change 0%Q with (inject_Z 0). rewrite <- Zle_Qle. lia.
    - change 8796093022208%Q with (inject_Z 8796093022208).
      rewrite <- Zle_Qle. lia. }
  assert (HT : (0 < T)%Q).
  { subst T. change 0%Q with (inject_Z 0). rewrite <- Zlt_Qlt. lia. }
  set (y := (E / T)%Q).
  assert (Hy : (y * T == E)%Q) by (subst y; field; lra).
  assert (Hy0 : (0 <= y)%Q).
  { subst y. apply Qmult_le_0_compat; [lra|]. apply Qinv_le_0_compat. lra. }
  destruct (toDouble_error y Hy0) as [Hd1 Hd2].
  pose proof (toDouble_nonneg y Hy0) as Hd0.
  set (d := toDouble y) in *.
  destruct (toDouble_error (d * 100)) as [Hv1 Hv2]; [lra|].
  set (v := toDouble (d * 100)) in *.
  pose proof (Qfloor_le (v + (1 # 2))) as Hp1.
  pose proof (Qlt_floor (v + (1 # 2))) as Hp2.
  set (p := Qfloor (v + (1 # 2))) in *.
  rewrite inject_Z_plus in Hp2. change (inject_Z 1) with 1%Q in Hp2.
  set (P := inject_Z p) in *. unfold roundoff in *.
  assert (H1 : ((P - (1 # 2)) * T <=
                100 * (1 + (1 # 9007199254740992)) *
                  (1 + (1 # 9007199254740992)) * y * T)%Q)
    by (apply Qmult_le_compat_r; lra).
  assert (H2 : (100 * (1 - (1 # 9007199254740992)) *
                  (1 - (1 # 9007199254740992)) * y * T <=
                (P + (1 # 2)) * T)%Q)
    by (apply Qmult_le_compat_r; lra).
  assert (Hup : (100 * (1 + (1 # 9007199254740992)) *
                   (1 + (1 # 9007199254740992)) * y * T ==
                 100 * (1 + (1 # 9007199254740992)) *
                   (1 + (1 # 9007199254740992)) * E)%Q)
    by (rewrite <- Hy; ring).
  assert (Hdn : (100 * (1 - (1 # 9007199254740992)) *
                   (1 - (1 # 9007199254740992)) * y * T ==
                 100 * (1 - (1 # 9007199254740992)) *
                   (1 - (1 # 9007199254740992)) * E)%Q)
    by (rewrite <- Hy; ring).
  rewrite Hup in H1. rewrite Hdn in H2.
  assert (H3 : (2 * (P * T) < 200 * E + 1 + T)%Q) by lra.
  assert (H4 : (200 * E < 2 * (P * T) + T + 1)%Q) by lra.
  assert (H3' : 2 * (p * t) < 200 * e + 1 + t).
  { rewrite Zlt_Qlt, !inject_Z_plus, !inject_Z_mult. exact H3. }
  assert (H4' : 200 * e < 2 * (p * t) + t + 1).
  { rewrite Zlt_Qlt, !inject_Z_plus, !inject_Z_mult. exact H4. }
  unfold closest. lia.
Qed.

Lemma closest_nearest (p x y : Z) :
  closest p x y -> (forall k, 2 * x <> (2 * k + 1) * y) -> nearest p x y.
Proof. unfold closest, nearest. intros [H1 H2] Hk. specialize (Hk p). lia. Qed.

(** ** Sums *)

Lemma reduce_sum_from {A} (f : A -> Z) (l : list A) (z : Z) :
  foldl (fun sum x => sum + f x) z l = z + sumZ (f <$> l).
Proof.
  revert z. induction l as [|x l IH]; intros z; [simpl; lia|].
  rewrite fmap_cons.
  change (sumZ (f x :: (f <$> l))) with (f x + sumZ (f <$> l)).
  cbn [foldl]. rewrite IH. lia.
Qed.

Lemma reduce_sum_sumZ {A} (f : A -> Z) (l : list A) :
  reduce_sum f l = sumZ (f <$> l).
Proof. unfold reduce_sum. rewrite reduce_sum_from. lia. Qed.

(** ** Running the methods *)

Ltac run_method :=
  unfold mbind, M_bind, mret, M_ret, this, assign, throw, call, state_after;
  cbn beta iota.

Lemma submitAnswer_unknown questionId selectedAnswers timeSpent now s :
  findQuestion questionId s = None ->
  submitAnswer questionId selectedAnswers timeSpent now s =
    (inl (JsError "Question not found in session"), s).
Proof. intros Hq. unfold submitAnswer. run_method. by rewrite Hq. Qed.

Lemma submitAnswer_known questionId selectedAnswers timeSpent now s q :
  findQuestion questionId s = Some q ->
  exists s',
    submitAnswer questionId selectedAnswers timeSpent now s = (inr tt, s') /\
    questions s' = questions s /\
    isCompleted s' = isCompleted s /\
    status s' = (if bool_decide (status s = NOT_STARTED)
                 then IN_PROGRESS else status s) /\
    answers s' =
      match findAnswer questionId s with
      | Some (index, existing) =>
          <[index := recordedAnswer q questionId selectedAnswers timeSpent now
                       (AssessmentAnswer.changedAnswers existing + 1)]>
            (answers s)
      | None =>
          answers s ++
          [recordedAnswer q questionId selectedAnswers timeSpent now 0]
      end.
Proof.
  intros Hq. unfold submitAnswer. run_method. rewrite Hq.
  unfold findAnswer. destruct s; cbn.
  destruct (list_find _ answers0) as [[index existing]|]; cbn;
    case_bool_decide; cbn; eexists; (split; [reflexivity|]); cbn;
    repeat split; try done.
Qed.

(** ** The scoring rule *)

Lemma calculateScore_ext s1 s2 :
  answers s1 = answers s2 -> questions s1 = questions s2 ->
  calculateScore s1 = calculateScore s2.
Proof. intros Ha Hq. unfold calculateScore. by rewrite Ha, Hq. Qed.

Lemma canProceedToNext_ext s1 s2 :
  answers s1 = answers s2 -> questions s1 = questions s2 -> step s1 = step s2 ->
  canProceedToNext s1 = canProceedToNext s2.
Proof.
  intros Ha Hq Hs. unfold canProceedToNext.
  by rewrite (calculateScore_ext s1 s2), Hs.
Qed.

Lemma calculateScore_score s : score_of (calculateScore s) = earnedPoints s.
Proof.
  unfold calculateScore, earnedPoints. case_bool_decide as Hlen; cbn.
  - apply length_zero_iff_nil in Hlen. by rewrite Hlen.
  - apply reduce_sum_sumZ.
Qed.


Lemma calculateScore_percentage s :
  percentage_of (calculateScore s) =
    if bool_decide (0 < totalPossiblePoints s)
    then percent (earnedPoints s) (totalPossiblePoints s)
    else 0.
Proof.
  unfold calculateScore, earnedPoints, totalPossiblePoints.
  case_bool_decide as Hlen; cbn [percentage_of].
  - apply length_zero_iff_nil in Hlen. rewrite Hlen.
    case_bool_decide; [|done]. symmetry. apply percent_zero.
  - rewrite !reduce_sum_sumZ. by case_bool_decide.
Qed.

Lemma percentage_closest s :
  0 < totalPossiblePoints s -> 0 <= earnedPoints s <= 8796093022208 ->
  closest (percentage_of (calculateScore s))
          (100 * earnedPoints s) (totalPossiblePoints s).
Proof.
  intros Ht He. rewrite calculateScore_percentage, bool_decide_true by done.
  by apply percent_closest.
Qed.

Lemma percentage_no_points s :
  totalPossiblePoints s <= 0 -> percentage_of (calculateScore s) = 0.
Proof.
  intros Ht. rewrite calculateScore_percentage, bool_decide_false; [done|lia].
Qed.


(** ** Completion *)

Lemma markCompleted_done valid tEnd tUnlock tSave s :
  isCompleted s = true ->
  markCompleted valid tEnd tUnlock tSave s = (inr tt, s).
Proof. intros Hc. unfold markCompleted. run_method. by rewrite Hc. Qed.

Lemma markCompleted_run valid tEnd tUnlock tSave s :
  isCompleted s = false ->
  let s' := state_after (markCompleted valid tEnd tUnlock tSave s) in
  score s' = Some (score_of (calculateScore s)) /\
  percentage s' = Some (percentage_of (calculateScore s)) /\
  levelAchieved s' = determineLevel s /\
  passed s' = bool_decide (25 <= percentage_of (calculateScore s)) /\
  canProceedToNextStep s' = canProceedToNext s /\
  status s' = COMPLETED /\
  isCompleted s' = true /\
  isSubmitted s' = true /\
  endTime s' = Some tEnd /\
  nextStepUnlockedAt s' =
    (if canProceedToNext s then Some tUnlock else nextStepUnlockedAt s) /\
  questions s' = questions s /\
  answers s' = answers s.
Proof.
  intros Hc s'. subst s'.
  unfold markCompleted, sessionSave, sessionPreSave. run_method.
  destruct s. cbn [isCompleted] in *. subst.
  cbn -[calculateScore determineLevel canProceedToNext].
  match goal with |- context [determineLevel ?o] =>
    match goal with |- context [canProceedToNext ?x] =>
      rewrite (canProceedToNext_ext x o) by reflexivity;
      generalize (canProceedToNext o) (determineLevel o) (calculateScore o)
    end end.
  intros b lv r.
  destruct b; cbn; destruct (valid _); cbn; repeat split.
Qed.


(** ** What the operations leave alone *)

Lemma addCheatingFlag_frame type details severity now s :
  let s' := state_after (addCheatingFlag type details severity now s) in
  questions s' = questions s /\ answers s' = answers s.
Proof. unfold addCheatingFlag. run_method. by destruct s. Qed.

Lemma sessionSave_frame valid now s :
  let s' := state_after (sessionSave valid now s) in
  questions s' = questions s /\ answers s' = answers s.
Proof.
  unfold sessionSave, sessionPreSave. run_method. destruct s. cbn.
  destruct (valid _); cbn; [|done].
  destruct isCompleted0; cbn; [|done].
  destruct (bool_decide (status0 <> COMPLETED)); cbn;
    by destruct endTime0.
Qed.

Lemma markCompleted_frame valid tEnd tUnlock tSave s :
  let s' := state_after (markCompleted valid tEnd tUnlock tSave s) in
  questions s' = questions s /\ answers s' = answers s.
Proof.
  destruct (isCompleted s) eqn:Hc.
  - by rewrite markCompleted_done.
  - by destruct (markCompleted_run valid tEnd tUnlock tSave s Hc)
      as (_ & _ & _ & _ & _ & _ & _ & _ & _ & _ & ? & ?).
Qed.

Lemma submitAnswer_questions questionId selectedAnswers timeSpent now s :
  questions (state_after (submitAnswer questionId selectedAnswers timeSpent now s))
  = questions s.
Proof.
  destruct (findQuestion questionId s) as [q|] eqn:Hq.
  - destruct (submitAnswer_known questionId selectedAnswers timeSpent now s q Hq)
      as (s' & -> & ? & _). done.
  - by rewrite submitAnswer_unknown.
Qed.

Lemma performSession_questions valid op s :
  questions (state_after (performSession valid op s)) = questions s.
Proof.
  destruct op; cbn [performSession].
  - apply submitAnswer_questions.
  - apply addCheatingFlag_frame.
  - apply markCompleted_frame.
  - apply sessionSave_frame.
Qed.

Lemma runSession_cons valid op ops s :
  runSession valid (op :: ops) s =
  runSession valid ops (state_after (performSession valid op s)).
Proof. reflexivity. Qed.

Lemma runSession_questions valid ops s :
  questions (runSession valid ops s) = questions s.
Proof.
  revert s. induction ops as [|op ops IH]; intros s; [done|].
  by rewrite runSession_cons, IH, performSession_questions.
Qed.

(** ** Answers stay consistent with the snapshot *)

Lemma findQuestion_ext questionId s1 s2 :
  questions s1 = questions s2 ->
  findQuestion questionId s1 = findQuestion questionId s2.
Proof. intros Hq. unfold findQuestion. by rewrite Hq. Qed.

Lemma scoredAgainst_ext s1 s2 a :
  questions s1 = questions s2 -> scoredAgainst s1 a -> scoredAgainst s2 a.
Proof.
  intros Hq (q & Hf & Hrest). exists q.
  by rewrite <- (findQuestion_ext _ s1 s2 Hq).
Qed.

Lemma consistent_ext s1 s2 :
  questions s1 = questions s2 -> answers s1 = answers s2 ->
  consistent s1 -> consistent s2.
Proof.
  intros Hq Ha [Hnd Hall]. split; rewrite <- Ha; [done|].
  eapply Forall_impl; [exact Hall|]. intros a. by apply scoredAgainst_ext.
Qed.

Lemma recordedAnswer_scoredAgainst s q questionId selectedAnswers timeSpent now c :
  findQuestion questionId s = Some q ->
  scoredAgainst s (recordedAnswer q questionId selectedAnswers timeSpent now c).
Proof. intros Hq. exists q. by cbn. Qed.

Lemma findAnswer_Some questionId s index existing :
  findAnswer questionId s = Some (index, existing) ->
  answers s !! index = Some existing /\
  AssessmentAnswer.questionId existing = questionId.
Proof. unfold findAnswer. intros (? & ? & _)%list_find_Some. done. Qed.

Lemma findAnswer_None questionId s :
  findAnswer questionId s = None ->
  questionId ∉ AssessmentAnswer.questionId <$> answers s.
Proof.
  unfold findAnswer. intros Hn%list_find_None.
  intros (a & -> & Ha)%list_elem_of_fmap.
  by eapply (proj1 (Forall_forall _ _) Hn a).
Qed.

Lemma submitAnswer_consistent questionId selectedAnswers timeSpent now s :
  consistent s ->
  consistent (state_after (submitAnswer questionId selectedAnswers timeSpent now s)).
Proof.
  intros Hc. destruct (findQuestion questionId s) as [q|] eqn:Hq.
  2:{ by rewrite submitAnswer_unknown. }
  destruct (submitAnswer_known questionId selectedAnswers timeSpent now s q Hq)
    as (s' & -> & Hqs & _ & _ & Hans).
  unfold state_after; cbn [snd].
  destruct Hc as [Hnd Hall]. split; rewrite Hans.
  - destruct (findAnswer questionId s) as [[index existing]|] eqn:Hfa.
    + apply findAnswer_Some in Hfa as [Hl Hid].
      rewrite list_fmap_insert. cbn [recordedAnswer AssessmentAnswer.questionId].
      rewrite list_insert_id; [done|].
      by rewrite list_lookup_fmap, Hl; cbn; rewrite Hid.
    + apply findAnswer_None in Hfa.
      rewrite fmap_app. apply NoDup_app. split_and!; [done| |].
      * intros x Hx. cbn. rewrite list_elem_of_singleton. by intros ->.
      * cbn. apply NoDup_singleton.
  - assert (Hrec : forall c,
      scoredAgainst s' (recordedAnswer q questionId selectedAnswers timeSpent now c)).
    { intros c. apply recordedAnswer_scoredAgainst.
      by rewrite (findQuestion_ext _ s' s Hqs). }
    assert (Hold : Forall (scoredAgainst s') (answers s)).
    { eapply Forall_impl; [exact Hall|]. intros a.
      by apply scoredAgainst_ext. }
    destruct (findAnswer questionId s) as [[index existing]|].
    + by apply Forall_insert.
    + apply Forall_app. split; [done|]. by apply Forall_singleton.
Qed.

Lemma performSession_consistent valid op s :
  consistent s -> consistent (state_after (performSession valid op s)).
Proof.
  intros Hc. destruct op; cbn [performSession].
  - by apply submitAnswer_consistent.
  - eapply consistent_ext; [| |exact Hc]; symmetry; apply addCheatingFlag_frame.
  - eapply consistent_ext; [| |exact Hc]; symmetry; apply markCompleted_frame.
  - eapply consistent_ext; [| |exact Hc]; symmetry; apply sessionSave_frame.
Qed.

Lemma noAnswers_consistent s : noAnswers s -> consistent s.
Proof.
  unfold noAnswers, consistent. intros ->. split; [apply NoDup_nil_2|done].
Qed.

Lemma runSession_consistent valid ops s :
  consistent s -> consistent (runSession valid ops s).
Proof.
  revert s. induction ops as [|op ops IH]; intros s Hc; [done|].
  rewrite runSession_cons. by apply IH, performSession_consistent.
Qed.

(** ** The points earned never exceed the points possible *)

Lemma pointsOf_cons q qs questionId :
  pointsOf (q :: qs) questionId =
    if decide (AssessmentQuestion.questionId q = questionId)
    then AssessmentQuestion.points q else pointsOf qs questionId.
Proof.
  unfold pointsOf. cbn [list_find]. case_decide; [done|].
  by destruct (list_find _ qs) as [[i x]|].
Qed.

Lemma pointsOf_nonneg qs questionId :
  Forall (fun q => 0 <= AssessmentQuestion.points q) qs ->
  0 <= pointsOf qs questionId.
Proof.
  intros Hqs. unfold pointsOf.
  destruct (list_find _ qs) as [[i q]|] eqn:Hf; [|done].
  apply list_find_Some in Hf as (Hl & _ & _).
  by eapply (Forall_lookup_1 _ _ _ _ Hqs Hl).
Qed.

Lemma sumZ_cons x l : sumZ (x :: l) = x + sumZ l.
Proof. reflexivity. Qed.

Lemma sumZ_pointsOf_nonneg qs ids :
  Forall (fun q => 0 <= AssessmentQuestion.points q) qs ->
  0 <= sumZ (pointsOf qs <$> ids).
Proof.
  intros Hqs. induction ids as [|i ids IH]; [done|].
  rewrite fmap_cons, sumZ_cons.
  pose proof (pointsOf_nonneg qs i Hqs). lia.
Qed.

Lemma sumZ_pointsOf_skip q qs ids :
  AssessmentQuestion.questionId q ∉ ids ->
  sumZ (pointsOf (q :: qs) <$> ids) = sumZ (pointsOf qs <$> ids).
Proof.
  induction ids as [|i ids IH]; intros Hni; [done|].
  apply not_elem_of_cons in Hni as [Hne Hni].
  rewrite !fmap_cons, !sumZ_cons, IH by done.
  rewrite pointsOf_cons. by rewrite decide_False.
Qed.

Lemma sumZ_pointsOf_cons q qs ids :
  Forall (fun q => 0 <= AssessmentQuestion.points q) (q :: qs) ->
  NoDup ids ->
  sumZ (pointsOf (q :: qs) <$> ids) <=
    AssessmentQuestion.points q + sumZ (pointsOf qs <$> ids).
Proof.
  intros Hqs Hnd. apply Forall_cons in Hqs as [Hq Hqs].
  induction Hnd as [|i ids Hni Hnd IH].
  - cbn. lia.
  - rewrite !fmap_cons, !sumZ_cons, pointsOf_cons.
    pose proof (pointsOf_nonneg qs i Hqs).
    case_decide as Hi.
    + subst i. rewrite sumZ_pointsOf_skip by done. lia.
    + lia.
Qed.

Lemma sumZ_pointsOf_le qs ids :
  Forall (fun q => 0 <= AssessmentQuestion.points q) qs ->
  NoDup ids ->
  sumZ (pointsOf qs <$> ids) <= sumZ (AssessmentQuestion.points <$> qs).
Proof.
  intros Hqs Hnd. induction qs as [|q qs IH].
  - clear. induction ids as [|i ids IH]; [done|].
    rewrite fmap_cons, sumZ_cons. unfold pointsOf at 1. cbn. cbn in IH. lia.
  - pose proof (sumZ_pointsOf_cons q qs ids Hqs Hnd).
    apply Forall_cons in Hqs as [Hq Hqs]. specialize (IH Hqs).
    rewrite fmap_cons, sumZ_cons. lia.
Qed.

Lemma scoredAgainst_bounds s a :
  Forall (fun q => 0 <= AssessmentQuestion.points q) (questions s) ->
  scoredAgainst s a ->
  0 <= AssessmentAnswer.pointsEarned a <=
    pointsOf (questions s) (AssessmentAnswer.questionId a).
Proof.
  intros Hqs (q & Hf & _ & Hp). unfold findQuestion in Hf. unfold pointsOf.
  destruct (list_find _ (questions s)) as [[i q']|] eqn:Hl; [|done].
  cbn in Hf. injection Hf as ->.
  apply list_find_Some in Hl as (Hl & _ & _).
  pose proof (Forall_lookup_1 _ _ _ _ Hqs Hl) as Hq. cbn in Hq.
  rewrite Hp. destruct (AssessmentAnswer.isCorrect a); lia.
Qed.

Lemma earnedPoints_bounds s :
  consistent s -> pointsPositive s ->
  0 <= earnedPoints s <= totalPossiblePoints s.
Proof.
  intros [Hnd Hall] Hpos.
  assert (Hqs : Forall (fun q => 0 <= AssessmentQuestion.points q) (questions s)).
  { eapply Forall_impl; [exact Hpos|]. cbn. intros; lia. }
  pose proof (sumZ_pointsOf_le (questions s) _ Hqs Hnd) as Hle.
  unfold earnedPoints, totalPossiblePoints.
  enough (0 <= sumZ (AssessmentAnswer.pointsEarned <$> answers s) <=
          sumZ (pointsOf (questions s) <$>
                  (AssessmentAnswer.questionId <$> answers s))) by lia.
  clear Hle Hnd. induction Hall as [|a l Ha Hl IH]; [done|].
  rewrite !fmap_cons, !sumZ_cons.
  pose proof (scoredAgainst_bounds s a Hqs Ha). lia.
Qed.

Lemma percentage_range s :
  0 <= earnedPoints s <= totalPossiblePoints s ->
  0 <= percentage_of (calculateScore s) <= 100.
Proof.
  intros He. rewrite calculateScore_percentage.
  case_bool_decide as Ht; [|lia]. by apply percent_range.
Qed.

Lemma percentage_mono s1 s2 :
  questions s1 = questions s2 ->
  score_of (calculateScore s1) <= score_of (calculateScore s2) ->
  percentage_of (calculateScore s1) <= percentage_of (calculateScore s2).
Proof.
  intros Hq. rewrite !calculateScore_score, !calculateScore_percentage.
  unfold totalPossiblePoints. rewrite Hq. intros He.
  case_bool_decide; [|done]. by apply percent_mono.
Qed.

(** C2 (as amended). The percentage that [calculateScore] returns is
    [Math.round((earned / total) * 100)] as doubles compute it, where
    [total] is the sum of the points of the questions of the snapshot, and 0
    when that sum is 0. For a sum of at most [2 ^ 53] and up to [2 ^ 43]
    points earned it is an integer within one half of the exact percentage,
    hence the exact percentage rounded to the nearest integer whenever that
    is not half-way between two integers. In every session that the engine operations produce from a
    session created without answers whose questions have at least one point
    each, the percentage lies between 0 and 100; and between two sessions
    with the same questions, the one with the lower score does not have the
    higher percentage. *)
Theorem calculateScore_percentage_spec :
  (forall s,
     let pct := percentage_of (calculateScore s) in
     score_of (calculateScore s) = earnedPoints s /\
     pct = (if bool_decide (0 < totalPossiblePoints s)
            then percent (earnedPoints s) (totalPossiblePoints s)
            else 0) /\
     (0 < totalPossiblePoints s <= 9007199254740992 ->
     0 <= earnedPoints s <= 8796093022208 ->
      closest pct (100 * earnedPoints s) (totalPossiblePoints s) /\
      ((forall k, 2 * (100 * earnedPoints s)
                  <> (2 * k + 1) * totalPossiblePoints s) ->
       nearest pct (100 * earnedPoints s) (totalPossiblePoints s)))) /\
  (forall valid ops s0,
     noAnswers s0 -> pointsPositive s0 ->
     0 <= percentage_of (calculateScore (runSession valid ops s0)) <= 100) /\
  (forall s1 s2,
     questions s1 = questions s2 ->
     score_of (calculateScore s1) <= score_of (calculateScore s2) ->
     percentage_of (calculateScore s1) <= percentage_of (calculateScore s2)).
Proof.
  split_and!.
  - intros s pct. split_and!.
    + apply calculateScore_score.
    + apply calculateScore_percentage.
    + intros [Ht _] He. pose proof (percentage_closest s Ht He) as Hc.
      split; [done|]. by apply closest_nearest.
  - intros valid ops s0 Hna Hpos.
    apply percentage_range, earnedPoints_bounds.
    + by apply runSession_consistent, noAnswers_consistent.
    + unfold pointsPositive. by rewrite runSession_questions.
  - apply percentage_mono.
Qed.

(** ** The leveling rule *)

Lemma determineLevel_failed s :
  percentage_of (calculateScore s) < 25 -> determineLevel s = None.
Proof. intros Hp. unfold determineLevel. by rewrite bool_decide_true. Qed.

Lemma determineLevel_passed s levels :
  25 <= percentage_of (calculateScore s) ->
  stepLevelMap (step s) = Some levels ->
  determineLevel s =
    Some (if bool_decide (50 <= percentage_of (calculateScore s))
          then high_level levels else low_level levels).
Proof.
  intros Hp Hl. unfold determineLevel.
  rewrite bool_decide_false by lia. by rewrite Hl.
Qed.

Lemma percentage_30_of_44 s :
  totalPossiblePoints s = 44 -> earnedPoints s = 30 ->
  percentage_of (calculateScore s) = 68.
Proof.
  intros Ht He. rewrite calculateScore_percentage, Ht, He. reflexivity.
Qed.

(** C3. For a session of step 1, 2 or 3, [determineLevel] returns no level
    when the percentage is below 25, the low level of the step's pair (A1,
    B1, C1) when it is at least 25 and below 50, and the high level (A2, B2,
    C2) when it is at least 50. A step-1 session with 30 points earned out
    of 44 possible has percentage 68 and level A2, as has the session that
    answers 30 of 44 one-point questions right. *)
Theorem determineLevel_spec :
  (forall s,
     1 <= step s <= 3 ->
     let pct := percentage_of (calculateScore s) in
     (pct < 25 -> determineLevel s = None) /\
     (25 <= pct < 50 ->
      determineLevel s =
        Some (match step s with 1 => A1 | 2 => B1 | _ => C1 end)) /\
     (50 <= pct ->
      determineLevel s =
        Some (match step s with 1 => A2 | 2 => B2 | _ => C2 end))) /\
  (forall s,
     step s = 1 -> totalPossiblePoints s = 44 -> earnedPoints s = 30 ->
     percentage_of (calculateScore s) = 68 /\ determineLevel s = Some A2) /\
  score_of (calculateScore session30of44) = 30 /\
  percentage_of (calculateScore session30of44) = 68 /\
  determineLevel session30of44 = Some A2.
Proof.
  split_and!.
  - intros s Hs pct. split_and!.
    + apply determineLevel_failed.
    + intros Hp.
      assert (step s = 1 \/ step s = 2 \/ step s = 3) as [E|[E|E]] by lia;
        rewrite E;
        (erewrite determineLevel_passed; [|lia|by rewrite E]);
        by rewrite bool_decide_false by lia.
    + intros Hp.
      assert (step s = 1 \/ step s = 2 \/ step s = 3) as [E|[E|E]] by lia;
        rewrite E;
        (erewrite determineLevel_passed; [|lia|by rewrite E]);
        by rewrite bool_decide_true by lia.
  - intros s Hs Ht He.
    pose proof (percentage_30_of_44 s Ht He) as Hp. split; [done|].
    erewrite determineLevel_passed; [|lia|by rewrite Hs].
    by rewrite bool_decide_true by lia.
  - by vm_compute.
  - by vm_compute.
  - by vm_compute.
Qed.

(** ** Correctness of an answer *)

Lemma every_lookup (l k : list string) :
  every (fun answer index => bool_decide (k !! index = Some answer)) l = true ->
  forall i x, l !! i = Some x -> k !! i = Some x.
Proof.
  unfold every. intros Hall i x Hl.
  rewrite forallb_forall in Hall.
  assert (Hin : In (bool_decide (k !! i = Some x))
                   (imap (fun i x => bool_decide (k !! i = Some x)) l)).
  { apply list_elem_of_In, list_elem_of_lookup. exists i.
    by rewrite list_lookup_imap, Hl. }
  apply Hall in Hin. by apply bool_decide_eq_true in Hin.
Qed.

Lemma every_refl (l : list string) :
  every (fun answer index => bool_decide (l !! index = Some answer)) l = true.
Proof.
  unfold every. apply forallb_forall. intros b Hb.
  apply list_elem_of_In, list_elem_of_lookup in Hb as [i Hi].
  rewrite list_lookup_imap in Hi.
  destruct (l !! i) as [x|] eqn:Hl; cbn in Hi; [|done].
  injection Hi as <-. by apply bool_decide_eq_true.
Qed.

Lemma same_arrays (l k : list string) :
  bool_decide (length l = length k) &&
  every (fun answer index => bool_decide (k !! index = Some answer)) l = true
  <-> l = k.
Proof.
  rewrite andb_true_iff, bool_decide_eq_true. split.
  - intros [Hlen Hall]. apply list_eq_same_length with (length l); [done..|].
    intros i x y _ Hl Hk. pose proof (every_lookup l k Hall i x Hl). congruence.
  - intros ->. split; [done|apply every_refl].
Qed.

Lemma sort_eq_Permutation (l k : list string) : sort l = sort k <-> l ≡ₚ k.
Proof.
  unfold sort. split.
  - intros Heq.
    rewrite <- (merge_sort_Permutation String.le l),
            <- (merge_sort_Permutation String.le k).
    by rewrite Heq.
  - intros Hp. apply (StronglySorted_unique String.le).
    + apply StronglySorted_merge_sort; apply _.
    + apply StronglySorted_merge_sort; apply _.
    + by rewrite !merge_sort_Permutation.
Qed.

Lemma checkAnswerCorrectness_multiple_choice q options selectedAnswers :
  AssessmentQuestion.questionType q = MULTIPLE_CHOICE ->
  AssessmentQuestion.options q = Some options ->
  checkAnswerCorrectness q selectedAnswers = true <->
  selectedAnswers ≡ₚ correctOptionIds q.
Proof.
  intros Ht Ho. unfold checkAnswerCorrectness, correctOptionIds.
  rewrite Ht, Ho. rewrite same_arrays, sort_eq_Permutation.
  split; by intros ->.
Qed.

Lemma checkAnswerCorrectness_other q selectedAnswers :
  AssessmentQuestion.questionType q <> MULTIPLE_CHOICE ->
  checkAnswerCorrectness q selectedAnswers = false.
Proof.
  intros Ht. unfold checkAnswerCorrectness.
  by destruct (AssessmentQuestion.questionType q).
Qed.

Lemma Permutation_same_elements (l k : list string) :
  NoDup l -> NoDup k -> l ≡ₚ k <-> (forall x, x ∈ l <-> x ∈ k).
Proof.
  intros Hl Hk. split.
  - intros Hp x. by rewrite Hp.
  - intros Hx. by apply NoDup_Permutation.
Qed.

(** ** One entry per question *)

Lemma filter_absent {A} (f : A -> string) (k : string) (l : list A) :
  k ∉ f <$> l -> filter (fun x => f x = k) l = [].
Proof.
  induction l as [|x l IH]; intros Hk; [done|].
  rewrite fmap_cons in Hk. apply not_elem_of_cons in Hk as [Hne Hk].
  rewrite filter_cons_False by done. by apply IH.
Qed.

Lemma filter_insert_unique {A} (f : A -> string) (k : string) (l : list A)
    (i : nat) (old new : A) :
  NoDup (f <$> l) -> l !! i = Some old -> f old = k -> f new = k ->
  filter (fun x => f x = k) (<[i := new]> l) = [new].
Proof.
  revert i. induction l as [|x l IH]; intros i Hnd Hl Hold Hnew; [done|].
  rewrite fmap_cons in Hnd. apply NoDup_cons in Hnd as [Hx Hnd].
  destruct i as [|i]; cbn in Hl.
  - change (<[0%nat := new]> (x :: l)) with (new :: l).
    injection Hl as ->. rewrite filter_cons_True by done.
    rewrite filter_absent; [done|]. by rewrite <- Hold.
  - change (<[S i := new]> (x :: l)) with (x :: <[i := new]> l).
    rewrite filter_cons_False.
    + by apply (IH i).
    + intros Hfx. apply Hx. rewrite Hfx, <- Hold.
      apply list_elem_of_fmap. exists old. split; [done|].
      by eapply list_elem_of_lookup_2.
Qed.

Lemma answersFor_absent questionId s :
  findAnswer questionId s = None -> answersFor questionId s = [].
Proof. intros Hn%findAnswer_None. by apply filter_absent. Qed.

Lemma answersFor_present questionId s index existing :
  NoDup (AssessmentAnswer.questionId <$> answers s) ->
  findAnswer questionId s = Some (index, existing) ->
  answersFor questionId s = [existing].
Proof.
  intros Hnd [Hl Hid]%findAnswer_Some. unfold answersFor.
  rewrite <- (list_insert_id (answers s) index existing Hl) at 1.
  by eapply filter_insert_unique.
Qed.

Lemma answers_within_questions s :
  consistent s -> (length (answers s) <= length (questions s))%nat.
Proof.
  intros [Hnd Hall].
  rewrite <- (length_fmap AssessmentAnswer.questionId (answers s)),
          <- (length_fmap AssessmentQuestion.questionId (questions s)).
  apply submseteq_length, NoDup_submseteq; [done|].
  intros x (a & -> & Ha)%list_elem_of_fmap.
  pose proof (proj1 (Forall_forall _ _) Hall a Ha) as (q & Hq & _).
  unfold findQuestion in Hq.
  destruct (list_find _ (questions s)) as [[i q']|] eqn:Hf; [|done].
  apply list_find_Some in Hf as (Hl & Hid & _).
  apply list_elem_of_fmap. exists q'. split; [done|].
  by eapply list_elem_of_lookup_2.
Qed.

(** What a successful [submitAnswer] leaves for the question, in a session
    whose answers are consistent with its snapshot. *)
Lemma submitAnswer_entry questionId selectedAnswers timeSpent now s q :
  consistent s ->
  findQuestion questionId s = Some q ->
  exists s' entry,
    submitAnswer questionId selectedAnswers timeSpent now s = (inr tt, s') /\
    answersFor questionId s' = [entry] /\
    AssessmentAnswer.selectedAnswers entry = selectedAnswers /\
    AssessmentAnswer.isCorrect entry = checkAnswerCorrectness q selectedAnswers /\
    AssessmentAnswer.pointsEarned entry =
      (if AssessmentAnswer.isCorrect entry
       then AssessmentQuestion.points q else 0) /\
    match answersFor questionId s with
    | [] =>
        AssessmentAnswer.changedAnswers entry = 0 /\
        length (answers s') = S (length (answers s))
    | prior :: _ =>
        AssessmentAnswer.changedAnswers entry =
          AssessmentAnswer.changedAnswers prior + 1 /\
        length (answers s') = length (answers s)
    end /\
    (length (answers s') <= length (questions s'))%nat.
Proof.
  intros Hc Hq.
  pose proof (submitAnswer_consistent questionId selectedAnswers timeSpent now s Hc)
    as Hc'.
  destruct (submitAnswer_known questionId selectedAnswers timeSpent now s q Hq)
    as (s' & Hrun & Hqs & _ & _ & Hans).
  rewrite Hrun in Hc'. unfold state_after in Hc'; cbn [snd] in Hc'.
  destruct Hc as [Hnd Hall].
  destruct (findAnswer questionId s) as [[index existing]|] eqn:Hfa.
  - exists s', (recordedAnswer q questionId selectedAnswers timeSpent now
                  (AssessmentAnswer.changedAnswers existing + 1)).
    rewrite (answersFor_present _ _ _ _ Hnd Hfa).
    apply findAnswer_Some in Hfa as [Hl Hid].
    split_and!; try done.
    + unfold answersFor. rewrite Hans. by eapply filter_insert_unique.
    + by rewrite Hans, length_insert.
    + by apply answers_within_questions.
  - exists s', (recordedAnswer q questionId selectedAnswers timeSpent now 0).
    rewrite (answersFor_absent _ _ Hfa).
    split_and!; try done.
    + unfold answersFor. rewrite Hans, filter_app.
      fold (answersFor questionId s). rewrite (answersFor_absent _ _ Hfa).
      by rewrite filter_cons_True.
    + rewrite Hans, length_app. cbn. lia.
    + by apply answers_within_questions.
Qed.

Lemma submitAnswer_findAnswer questionId selectedAnswers timeSpent now s q :
  findQuestion questionId s = Some q ->
  exists s' index changed,
    submitAnswer questionId selectedAnswers timeSpent now s = (inr tt, s') /\
    findAnswer questionId s' =
      Some (index,
            recordedAnswer q questionId selectedAnswers timeSpent now changed).
Proof.
  intros Hq.
  destruct (submitAnswer_known questionId selectedAnswers timeSpent now s q Hq)
    as (s' & Hrun & _ & _ & _ & Hans).
  exists s'. unfold findAnswer in *. rewrite Hans.
  destruct (list_find _ (answers s)) as [[index existing]|] eqn:Hfa.
  - exists index, (AssessmentAnswer.changedAnswers existing + 1).
    split; [done|].
    apply list_find_Some in Hfa as (Hl & Hid & Hfirst).
    apply list_find_Some. split_and!.
    + apply list_lookup_insert_eq. by eapply lookup_lt_Some.
    + done.
    + intros j y Hj Hlt. rewrite list_lookup_insert_ne in Hj by lia.
      by eapply Hfirst.
  - exists (length (answers s)), 0. split; [done|].
    rewrite list_find_app_r by done. cbn [list_find].
    by rewrite decide_True.
Qed.

(** C4 (as amended). In a session that the engine operations produce from
    one created without answers, a successful [submitAnswer] for a question
    of the snapshot leaves exactly one entry for that question: a first
    submission appends it with change counter 0, a resubmission overwrites
    the prior entry (the list keeps its length) with the prior counter plus
    one. For a multiple-choice question with options, the entry is correct
    exactly when the selected ids are the ids of the options marked correct
    up to order, repetitions counted; when neither list repeats an id this is
    equality of the two sets. The entry earns the points of the question
    when it is correct and 0 otherwise, and the answers list is no longer
    than the questions list. *)
Theorem submitAnswer_one_entry valid ops s0 questionId selectedAnswers
    timeSpent now q :
  noAnswers s0 ->
  findQuestion questionId (runSession valid ops s0) = Some q ->
  exists s' entry,
    submitAnswer questionId selectedAnswers timeSpent now
      (runSession valid ops s0) = (inr tt, s') /\
    answersFor questionId s' = [entry] /\
    AssessmentAnswer.selectedAnswers entry = selectedAnswers /\
    match answersFor questionId (runSession valid ops s0) with
    | [] =>
        AssessmentAnswer.changedAnswers entry = 0 /\
        length (answers s') = S (length (answers (runSession valid ops s0)))
    | prior :: _ =>
        AssessmentAnswer.changedAnswers entry =
          AssessmentAnswer.changedAnswers prior + 1 /\
        length (answers s') = length (answers (runSession valid ops s0))
    end /\
    (AssessmentQuestion.questionType q = MULTIPLE_CHOICE ->
     is_Some (AssessmentQuestion.options q) ->
     (AssessmentAnswer.isCorrect entry = true <->
      selectedAnswers ≡ₚ correctOptionIds q) /\
     (NoDup selectedAnswers -> NoDup (correctOptionIds q) ->
      (AssessmentAnswer.isCorrect entry = true <->
       forall x, x ∈ selectedAnswers <-> x ∈ correctOptionIds q))) /\
    AssessmentAnswer.pointsEarned entry =
      (if AssessmentAnswer.isCorrect entry
       then AssessmentQuestion.points q else 0) /\
    (length (answers s') <= length (questions s'))%nat.
Proof.
  intros Hna Hq.
  assert (Hc : consistent (runSession valid ops s0))
    by by apply runSession_consistent, noAnswers_consistent.
  destruct (submitAnswer_entry questionId selectedAnswers timeSpent now _ q Hc Hq)
    as (s' & entry & Hrun & Hone & Hsel & Hcorrect & Hpoints & Hprior & Hlen).
  exists s', entry. split_and!; try done.
  intros Hmc [options Ho].
  pose proof (checkAnswerCorrectness_multiple_choice q options selectedAnswers
                Hmc Ho) as Hperm.
  rewrite <- Hcorrect in Hperm. split; [done|].
  intros Hnd1 Hnd2. by rewrite Hperm, Permutation_same_elements.
Qed.


(** ** Questions that are not multiple choice *)

Lemma scoredAgainst_multiple_choice s a :
  scoredAgainst s a ->
  AssessmentAnswer.pointsEarned a <> 0 ->
  exists q,
    findQuestion (AssessmentAnswer.questionId a) s = Some q /\
    AssessmentQuestion.questionType q = MULTIPLE_CHOICE.
Proof.
  intros (q & Hq & Hcorrect & Hpoints) Hne. exists q. split; [done|].
  destruct (decide (AssessmentQuestion.questionType q = MULTIPLE_CHOICE))
    as [|Hother]; [done|].
  rewrite (checkAnswerCorrectness_other q _ Hother) in Hcorrect.
  by rewrite Hcorrect in Hpoints.
Qed.

Lemma findQuestion_elem_of questionId s q :
  findQuestion questionId s = Some q -> q ∈ questions s.
Proof.
  unfold findQuestion.
  destruct (list_find _ (questions s)) as [[i q']|] eqn:Hf; [|done].
  cbn. intros [= ->]. apply list_find_Some in Hf as (Hl & _ & _).
  by eapply list_elem_of_lookup_2.
Qed.

Lemma no_multiple_choice_no_points s :
  consistent s ->
  Forall (fun q => AssessmentQuestion.questionType q <> MULTIPLE_CHOICE)
         (questions s) ->
  earnedPoints s = 0.
Proof.
  intros [_ Hall] Hqs. unfold earnedPoints.
  induction Hall as [|a l Ha Hl IH]; [done|].
  rewrite fmap_cons, sumZ_cons, IH.
  destruct (decide (AssessmentAnswer.pointsEarned a = 0)) as [->|Hne]; [done|].
  destruct (scoredAgainst_multiple_choice s a Ha Hne) as (q & Hq & Hmc).
  apply findQuestion_elem_of in Hq.
  by pose proof (proj1 (Forall_forall _ _) Hqs q Hq).
Qed.

(** C10. When the question of the snapshot found for the id is not
    multiple-choice, [submitAnswer] succeeds whatever ids are selected and
    the entry it records for the question is incorrect with 0 points. Hence,
    in every session that the engine operations produce from one created
    without answers, an entry with points belongs to a multiple-choice
    question, and a session without multiple-choice questions has score 0. *)
Theorem submitAnswer_not_multiple_choice :
  (forall questionId selectedAnswers timeSpent now s q,
     findQuestion questionId s = Some q ->
     AssessmentQuestion.questionType q <> MULTIPLE_CHOICE ->
     exists s' index entry,
       submitAnswer questionId selectedAnswers timeSpent now s = (inr tt, s') /\
       findAnswer questionId s' = Some (index, entry) /\
       AssessmentAnswer.selectedAnswers entry = selectedAnswers /\
       AssessmentAnswer.isCorrect entry = false /\
       AssessmentAnswer.pointsEarned entry = 0) /\
  (forall valid ops s0 a,
     noAnswers s0 ->
     a ∈ answers (runSession valid ops s0) ->
     AssessmentAnswer.pointsEarned a <> 0 ->
     exists q,
       findQuestion (AssessmentAnswer.questionId a) (runSession valid ops s0)
         = Some q /\
       AssessmentQuestion.questionType q = MULTIPLE_CHOICE) /\
  (forall valid ops s0,
     noAnswers s0 ->
     Forall (fun q => AssessmentQuestion.questionType q <> MULTIPLE_CHOICE)
            (questions s0) ->
     score_of (calculateScore (runSession valid ops s0)) = 0).
Proof.
  split_and!.
  - intros questionId selectedAnswers timeSpent now s q Hq Hother.
    destruct (submitAnswer_findAnswer questionId selectedAnswers timeSpent now s q Hq)
      as (s' & index & changed & Hrun & Hfind).
    exists s', index, (recordedAnswer q questionId selectedAnswers timeSpent now changed).
    split_and!; try done; cbn;
      by rewrite (checkAnswerCorrectness_other q _ Hother).
  - intros valid ops s0 a Hna Ha Hne.
    assert (Hc : consistent (runSession valid ops s0))
      by by apply runSession_consistent, noAnswers_consistent.
    apply scoredAgainst_multiple_choice; [|done].
    by apply (proj1 (Forall_forall _ _) (proj2 Hc) a).
  - intros valid ops s0 Hna Hqs.
    rewrite calculateScore_score. apply no_multiple_choice_no_points.
    + by apply runSession_consistent, noAnswers_consistent.
    + by rewrite runSession_questions.
Qed.

(** ** Remaining time *)

Lemma getRemainingTime_completed now s :
  isCompleted s = true -> getRemainingTime now s = 0.
Proof. intros Hc. unfold getRemainingTime. rewrite Hc. by case_match. Qed.

Lemma getRemainingTime_running now s start :
  startTime s = Some start -> isCompleted s = false ->
  getRemainingTime now s = Z.max 0 (timeAllowed s - (now - start) / 1000).
Proof. intros Hs Hc. unfold getRemainingTime. by rewrite Hs, Hc. Qed.

(** C6 (as amended). For a session with a start time that is not completed,
    [getRemainingTime] is [max(0, timeAllowed - e)] where [e] is the number
    of whole seconds elapsed since [startTime]; it is 0 exactly from the
    instant [startTime + timeAllowed] onward. For a completed session it is
    0 at any time. Evaluating it leaves every field of the session as it
    was. *)
Theorem getRemainingTime_spec now s start :
  startTime s = Some start ->
  exists elapsed,
    1000 * elapsed <= now - start < 1000 * (elapsed + 1) /\
    getRemainingTime now s =
      (if isCompleted s then 0 else Z.max 0 (timeAllowed s - elapsed)) /\
    (isCompleted s = false ->
     (getRemainingTime now s = 0 <-> start + 1000 * timeAllowed s <= now)) /\
    call (getRemainingTime now) s = (inr (getRemainingTime now s), s).
Proof.
  intros Hs. exists ((now - start) / 1000).
  pose proof (Z.div_mod (now - start) 1000 ltac:(lia)) as Hd.
  pose proof (Z.mod_pos_bound (now - start) 1000 ltac:(lia)) as Hm.
  split_and!; try lia.
  - destruct (isCompleted s) eqn:Hc.
    + by apply getRemainingTime_completed.
    + by apply getRemainingTime_running.
  - intros Hc. rewrite (getRemainingTime_running now s start Hs Hc). lia.
  - reflexivity.
Qed.

(** ** Step eligibility *)

Lemma or_zero_ge (x : option Z) :
  75 <= or_zero x <-> exists v, x = Some v /\ 75 <= v.
Proof.
  unfold or_zero. destruct x as [v|].
  - case_bool_decide; split.
    + lia.
    + intros (v' & [= <-] & ?). lia.
    + intros. by exists v.
    + by intros (v' & [= <-] & ?).
  - split; [lia|]. by intros (v & ? & _).
Qed.

Lemma canTakeStep_range step p :
  canTakeStep step p = true -> step = 1 \/ step = 2 \/ step = 3.
Proof.
  unfold canTakeStep.
  destruct step as [|[[]|[]|]|]; try done; auto.
Qed.

Lemma canTakeStep_1 p :
  canTakeStep 1 p = true <->
  canRetakeStep1 p = true \/ step1Completed p = false.
Proof.
  cbn. rewrite orb_true_iff, negb_true_iff. done.
Qed.

Lemma canTakeStep_2 p :
  canTakeStep 2 p = true <->
  step1Completed p = true /\ exists v, step1Score p = Some v /\ 75 <= v.
Proof.
  cbn. by rewrite andb_true_iff, bool_decide_eq_true, or_zero_ge.
Qed.

Lemma canTakeStep_3 p :
  canTakeStep 3 p = true <->
  step2Completed p = true /\ exists v, step2Score p = Some v /\ 75 <= v.
Proof.
  cbn. by rewrite andb_true_iff, bool_decide_eq_true, or_zero_ge.
Qed.

Lemma getNextAvailableStep_Some p k :
  getNextAvailableStep p = Some k <->
  canTakeStep k p = true /\ forall j, 1 <= j < k -> canTakeStep j p = false.
Proof.
  unfold getNextAvailableStep. split.
  - destruct (canTakeStep 1 p) eqn:H1; [|destruct (canTakeStep 2 p) eqn:H2;
      [|destruct (canTakeStep 3 p) eqn:H3]]; intros Heq; try done;
      injection Heq as <-; (split; [done|]); intros j Hj;
      assert (j = 1 \/ j = 2) as [->| ->] by lia; first [done | lia].
  - intros [Hk Hfirst].
    destruct (canTakeStep_range k p Hk) as [->|[->| ->]].
    + by rewrite Hk.
    + by rewrite (Hfirst 1), Hk by lia.
    + by rewrite (Hfirst 1), (Hfirst 2), Hk by lia.
Qed.

Lemma getNextAvailableStep_None p :
  getNextAvailableStep p = None <-> forall k, canTakeStep k p = false.
Proof.
  unfold getNextAvailableStep. split.
  - destruct (canTakeStep 1 p) eqn:H1; [done|].
    destruct (canTakeStep 2 p) eqn:H2; [done|].
    destruct (canTakeStep 3 p) eqn:H3; [done|].
    intros _ k. destruct (canTakeStep k p) eqn:Hk; [|done].
    destruct (canTakeStep_range k p Hk) as [->|[->| ->]]; congruence.
  - intros Hnone. by rewrite !Hnone.
Qed.

(** C7. [canTakeStep(1)] holds exactly when the step-1 retake flag is set
    or step 1 was never completed; [canTakeStep(2)] exactly when step 1 is
    completed with a score of at least 75; [canTakeStep(3)] exactly when
    step 2 is completed with a score of at least 75. [getNextAvailableStep]
    returns the lowest-numbered eligible step, and none exactly when no step
    is eligible. *)
Theorem canTakeStep_spec p :
  (canTakeStep 1 p = true <->
   canRetakeStep1 p = true \/ step1Completed p = false) /\
  (canTakeStep 2 p = true <->
   step1Completed p = true /\ exists v, step1Score p = Some v /\ 75 <= v) /\
  (canTakeStep 3 p = true <->
   step2Completed p = true /\ exists v, step2Score p = Some v /\ 75 <= v) /\
  (forall k,
     getNextAvailableStep p = Some k <->
     (k = 1 \/ k = 2 \/ k = 3) /\ canTakeStep k p = true /\
     forall j, 1 <= j < k -> canTakeStep j p = false) /\
  (getNextAvailableStep p = None <-> forall k, canTakeStep k p = false).
Proof.
  split_and!.
  - apply canTakeStep_1.
  - apply canTakeStep_2.
  - apply canTakeStep_3.
  - intros k. rewrite getNextAvailableStep_Some. split.
    + intros [Hk Hfirst]. split_and!; [|done..].
      by apply (canTakeStep_range k p).
    + by intros (_ & Hk & Hfirst).
  - apply getNextAvailableStep_None.
Qed.

(** ** The pre-save recomputation of the progress record *)

Lemma indexOf_levelOrder l : indexOf l levelOrder = rank l.
Proof. by destruct l. Qed.

Lemma levelOrder_rank l : levelOrder !! Z.to_nat (rank l) = Some l.
Proof. by destruct l. Qed.

Lemma rank_nonneg l : 0 <= rank l.
Proof. destruct l; cbn; lia. Qed.

Lemma Math_max_spec x l :
  Math_max x l ∈ x :: l /\ forall y, y ∈ x :: l -> y <= Math_max x l.
Proof.
  unfold Math_max. revert x. induction l as [|z l IH]; intros x.
  - cbn. split; [by left|]. intros y ->%list_elem_of_singleton. lia.
  - cbn [foldl]. destruct (IH (Z.max x z)) as [Hin Hge]. split.
    + apply elem_of_cons in Hin as [Hin|Hin].
      * rewrite Hin. destruct (Z.max_spec x z) as [[_ ->]|[_ ->]].
        -- right; left.
        -- left.
      * by do 2 right.
    + intros y Hy.
      assert (Z.max x z <= foldl Z.max (Z.max x z) l) by (apply Hge; left).
      apply elem_of_cons in Hy as [->|Hy]; [lia|].
      apply elem_of_cons in Hy as [->|Hy]; [lia|].
      apply Hge. by right.
Qed.

Lemma updateCurrentStep_run p :
  updateCurrentStep p =
    (inr tt,
     set_currentStep
       (if step2Completed p || step3Completed p then 3
        else if step1Completed p then 2 else 1) p).
Proof.
  unfold updateCurrentStep. run_method.
  by destruct (step3Completed p), (step2Completed p), (step1Completed p).
Qed.

Lemma set_highestLevelAchieved_same p :
  set_highestLevelAchieved (highestLevelAchieved p) p = p.
Proof. by destruct p. Qed.

Lemma set_averageScore_same p : set_averageScore (averageScore p) p = p.
Proof. by destruct p. Qed.

Lemma updateHighestLevel_run p :
  exists highest,
    updateHighestLevel p = (inr tt, set_highestLevelAchieved highest p) /\
    (levelsSet p = [] -> highest = highestLevelAchieved p) /\
    (levelsSet p <> [] ->
     highest ∈ levelsSet p /\
     forall l, l ∈ levelsSet p -> rank l <= rank highest).
Proof.
  unfold updateHighestLevel. run_method. fold (levelsSet p).
  destruct (levelsSet p) as [|level rest] eqn:Hlevels.
  - exists (highestLevelAchieved p).
    by rewrite set_highestLevelAchieved_same.
  - set (f := fun level => indexOf level levelOrder).
    change (indexOf level levelOrder) with (f level).
    destruct (Math_max_spec (f level) (f <$> rest)) as [Hin Hge].
    rewrite <- fmap_cons in Hin, Hge.
    apply list_elem_of_fmap in Hin as (highest & Hmax & Hin).
    assert (Hf : forall l, f l = rank l) by (intros l; apply indexOf_levelOrder).
    rewrite (Hf highest) in Hmax.
    exists highest. rewrite Hmax, levelOrder_rank.
    rewrite bool_decide_true by apply rank_nonneg.
    split_and!; [done..|]. intros _. split; [done|].
    intros l Hl. rewrite <- Hmax, <- (Hf l).
    apply Hge, list_elem_of_fmap. by exists l.
Qed.

Lemma updateAverageScore_run p :
  exists average,
    updateAverageScore p = (inr tt, set_averageScore average p) /\
    (scoresSet p = [] -> average = averageScore p) /\
    (scoresSet p <> [] ->
     nearest average (sumZ (scoresSet p)) (Z.of_nat (length (scoresSet p)))).
Proof.
  unfold updateAverageScore. run_method. fold (scoresSet p).
  case_bool_decide as Hlen.
  - eexists. split; [reflexivity|]. split.
    + intros Hnil. rewrite Hnil in Hlen. cbn in Hlen. lia.
    + intros _. rewrite Math_round_div by lia.
      rewrite reduce_sum_sumZ, list_fmap_id. apply nearest_div. lia.
  - exists (averageScore p). rewrite set_averageScore_same.
    split_and!; [done..|]. intros Hne.
    destruct (scoresSet p); [done|]. cbn in Hlen. lia.
Qed.

Lemma progressPreSave_run p :
  exists highest average,
    progressPreSave p =
      (inr tt,
       set_averageScore average
         (set_highestLevelAchieved highest
            (set_currentStep
               (if step2Completed p || step3Completed p then 3
                else if step1Completed p then 2 else 1) p))) /\
    (levelsSet p = [] -> highest = highestLevelAchieved p) /\
    (levelsSet p <> [] ->
     highest ∈ levelsSet p /\
     forall l, l ∈ levelsSet p -> rank l <= rank highest) /\
    (scoresSet p = [] -> average = averageScore p) /\
    (scoresSet p <> [] ->
     nearest average (sumZ (scoresSet p)) (Z.of_nat (length (scoresSet p)))).
Proof.
  set (p1 := set_currentStep _ p).
  destruct (updateHighestLevel_run p1) as (highest & Hrun2 & Hh1 & Hh2).
  destruct (updateAverageScore_run (set_highestLevelAchieved highest p1))
    as (average & Hrun3 & Ha1 & Ha2).
  exists highest, average. split.
  - unfold progressPreSave. unfold mbind at 1 2, M_bind.
    rewrite updateCurrentStep_run. fold p1. by rewrite Hrun2, Hrun3.
  - assert (levelsSet p1 = levelsSet p) as <- by by destruct p.
    assert (highestLevelAchieved p1 = highestLevelAchieved p) as <-
      by by destruct p.
    assert (scoresSet (set_highestLevelAchieved highest p1) = scoresSet p)
      as <- by by destruct p.
    assert (averageScore (set_highestLevelAchieved highest p1) = averageScore p)
      as <- by by destruct p.
    done.
Qed.

Lemma progressPreSave_derived p :
  exists p',
    progressPreSave p = (inr tt, p') /\
    derivedFields p' /\
    canRetakeStep1 p' = canRetakeStep1 p /\
    (levelsSet p = [] -> highestLevelAchieved p' = highestLevelAchieved p) /\
    (scoresSet p = [] -> averageScore p' = averageScore p).
Proof.
  destruct (progressPreSave_run p)
    as (highest & average & Hrun & Hh1 & Hh2 & Ha1 & Ha2).
  eexists. split; [exact Hrun|].
  destruct p; cbn in *. unfold derivedFields, levelsSet, scoresSet. cbn.
  by split_and!.
Qed.

Lemma progressSave_run (valid : Progress.t -> bool) (p : Progress.t) :
  if valid p then
    exists p',
      progressSave valid p = (inr tt, p') /\
      derivedFields p' /\
      canRetakeStep1 p' = canRetakeStep1 p /\
      (levelsSet p = [] -> highestLevelAchieved p' = highestLevelAchieved p) /\
      (scoresSet p = [] -> averageScore p' = averageScore p)
  else progressSave valid p = (inl ValidationError, p).
Proof.
  unfold progressSave. run_method.
  destruct (valid p); [|done]. apply progressPreSave_derived.
Qed.

(** ** The progress operations end in a save *)

Lemma updateStepProgress_run valid step score level now p :
  exists p1,
    updateStepProgress valid step score level now p = progressSave valid p1 /\
    canRetakeStep1 p1 =
      (if bool_decide (step = 1) && bool_decide (score < 25)
       then false else canRetakeStep1 p).
Proof.
  unfold updateStepProgress. run_method. destruct p.
  destruct step as [|[[]|[]|]|]; cbn;
    try (eexists; split; [reflexivity|done]).
  case_bool_decide; cbn; eexists; (split; [reflexivity|done]).
Qed.

Lemma updateCompetencyScore_run valid competency score level attempted
    correct now p :
  exists p1,
    updateCompetencyScore valid competency score level attempted correct now p
      = progressSave valid p1 /\
    canRetakeStep1 p1 = canRetakeStep1 p.
Proof.
  unfold updateCompetencyScore. run_method. destruct p. cbn.
  destruct (list_find _ competencyScores0) as [[existingIndex existing]|];
    cbn; eexists; (split; [reflexivity|done]).
Qed.

Lemma addAchievement_run valid achievement p :
  addAchievement valid achievement p = (inr tt, p) \/
  exists p1,
    addAchievement valid achievement p = progressSave valid p1 /\
    canRetakeStep1 p1 = canRetakeStep1 p.
Proof.
  unfold addAchievement. run_method. destruct p. cbn.
  destruct (list_find _ achievements0) as [[i a]|]; cbn; [by left|].
  right. eexists. split; [reflexivity|done].
Qed.

Lemma progressPreSave_canRetakeStep1 p :
  canRetakeStep1 (state_after (progressPreSave p)) = canRetakeStep1 p.
Proof.
  destruct (progressPreSave_derived p) as (p' & -> & _ & Hflag & _). done.
Qed.

Lemma progressSave_canRetakeStep1 (valid : Progress.t -> bool) p :
  canRetakeStep1 (state_after (progressSave valid p)) = canRetakeStep1 p.
Proof.
  pose proof (progressSave_run valid p) as Hrun.
  destruct (valid p).
  - by destruct Hrun as (p' & -> & _ & Hflag & _).
  - by rewrite Hrun.
Qed.

Lemma performProgress_canRetakeStep1 valid op p :
  canRetakeStep1 p = false ->
  canRetakeStep1 (state_after (performProgress valid op p)) = false.
Proof.
  intros Hflag.
  destruct op as [step sc level now
                 |competency sc level questionsAttempted correctAnswers now
                 |achievement|]; cbn [performProgress].
  - destruct (updateStepProgress_run valid step sc level now p)
      as (p1 & -> & Hp1).
    rewrite progressSave_canRetakeStep1, Hp1, Hflag. by case_match.
  - destruct (updateCompetencyScore_run valid competency sc level
                questionsAttempted correctAnswers now p) as (p1 & -> & Hp1).
    by rewrite progressSave_canRetakeStep1, Hp1.
  - destruct (addAchievement_run valid achievement p)
      as [->|(p1 & -> & Hp1)]; [done|].
    by rewrite progressSave_canRetakeStep1, Hp1.
  - by rewrite progressSave_canRetakeStep1.
Qed.

Lemma runProgress_cons valid op ops p :
  runProgress valid (op :: ops) p =
  runProgress valid ops (state_after (performProgress valid op p)).
Proof. reflexivity. Qed.

(** C8. [updateStepProgress] with step 1 and a score below 25 leaves
    [canRetakeStep1] false; and once [canRetakeStep1] is false it stays
    false through the pre-save recomputation and through every sequence of
    [updateStepProgress], [updateCompetencyScore], [addAchievement] and
    [save]. *)
Theorem canRetakeStep1_cleared_for_good :
  (forall valid score level now p,
     score < 25 ->
     canRetakeStep1
       (state_after (updateStepProgress valid 1 score level now p)) = false) /\
  (forall p,
     canRetakeStep1 p = false ->
     canRetakeStep1 (state_after (progressPreSave p)) = false) /\
  (forall valid ops p,
     canRetakeStep1 p = false ->
     canRetakeStep1 (runProgress valid ops p) = false).
Proof.
  split_and!.
  - intros valid score level now p Hscore.
    destruct (updateStepProgress_run valid 1 score level now p)
      as (p1 & -> & Hp1).
    rewrite progressSave_canRetakeStep1, Hp1.
    by rewrite bool_decide_true, bool_decide_true.
  - intros p Hflag. by rewrite progressPreSave_canRetakeStep1.
  - intros valid ops. induction ops as [|op ops IH]; intros p Hflag; [done|].
    rewrite runProgress_cons. by apply IH, performProgress_canRetakeStep1.
Qed.

Lemma progressSave_succeeded (valid : Progress.t -> bool) p :
  succeeded (progressSave valid p) = true ->
  derivedFields (state_after (progressSave valid p)).
Proof.
  pose proof (progressSave_run valid p) as Hrun.
  destruct (valid p).
  - by destruct Hrun as (p' & -> & Hderived & _).
  - by rewrite Hrun.
Qed.

(** C9 (as amended). After every save of a progress record that succeeds,
    [currentStep] is 3 if step 2 or step 3 is completed, else 2 if step 1 is
    completed, else 1; when a per-step level is set,
    [highestLevelAchieved] is one of the levels that are set and no level
    that is set ranks above it in A1 < A2 < B1 < B2 < C1 < C2; and when a
    step score is set, [averageScore] is the mean of the step scores that
    are set (the others left out, not counted as zero) rounded to the
    nearest integer. With no level set the highest level keeps its value,
    with no score set the average keeps its value. The same holds after
    [updateStepProgress] and [updateCompetencyScore], which end in a
    save. *)
Theorem progressSave_derivedFields :
  (forall (valid : Progress.t -> bool) p,
     succeeded (progressSave valid p) = true ->
     derivedFields (state_after (progressSave valid p)) /\
     (levelsSet p = [] ->
      highestLevelAchieved (state_after (progressSave valid p)) =
        highestLevelAchieved p) /\
     (scoresSet p = [] ->
      averageScore (state_after (progressSave valid p)) = averageScore p)) /\
  (forall valid step score level now p,
     succeeded (updateStepProgress valid step score level now p) = true ->
     derivedFields
       (state_after (updateStepProgress valid step score level now p))) /\
  (forall valid competency score level attempted correct now p,
     succeeded (updateCompetencyScore valid competency score level attempted
                  correct now p) = true ->
     derivedFields
       (state_after (updateCompetencyScore valid competency score level
                       attempted correct now p))).
Proof.
  split_and!.
  - intros valid p Hok. split; [by apply progressSave_succeeded|].
    pose proof (progressSave_run valid p) as Hrun.
    destruct (valid p).
    + by destruct Hrun as (p' & -> & _ & _ & Hh & Ha).
    + by rewrite Hrun in Hok.
  - intros valid step score level now p.
    destruct (updateStepProgress_run valid step score level now p)
      as (p1 & -> & _).
    apply progressSave_succeeded.
  - intros valid competency score level attempted correct now p.
    destruct (updateCompetencyScore_run valid competency score level attempted
                correct now p) as (p1 & -> & _).
    apply progressSave_succeeded.
Qed.

(** ** Scenarios *)

(** A step-2 session with 34 of 44 one-point questions right: 77 percent,
    passed, eligible for the next step, which is unlocked at completion. *)
Example scenario_34_of_44 :
  let s := runSession acceptAll (answerFirst 34 ++ [MarkCompleted 5000 5001 5002])
             (newSession 2 questions44) in
  score s = Some 34 /\ percentage s = Some 77 /\ levelAchieved s = Some B2 /\
  passed s = true /\ canProceedToNextStep s = true /\
  nextStepUnlockedAt s = Some 5001 /\ endTime s = Some 5000 /\
  status s = COMPLETED.
Proof. by vm_compute. Qed.

(** A step-1 session with 5 of 44 right: 11 percent, failed, no level; the
    progress update then clears the retake flag. *)
Example scenario_5_of_44 :
  let s := runSession acceptAll (answerFirst 5 ++ [MarkCompleted 5000 5001 5002])
             (newSession 1 questions44) in
  percentage s = Some 11 /\ levelAchieved s = None /\ passed s = false /\
  canProceedToNextStep s = false /\ nextStepUnlockedAt s = None /\
  canRetakeStep1 progressFailed = false /\
  getNextAvailableStep progressFailed = None.
Proof. by vm_compute. Qed.

(** Resubmitting an answered question takes its change counter from 0 to 1
    and appends nothing. *)
Example scenario_resubmit :
  AssessmentAnswer.changedAnswers <$> answers oneQuestionAnswered = [0] /\
  AssessmentAnswer.changedAnswers <$>
    answers (state_after (submitAnswer "q1" ["a"] 9 20 oneQuestionAnswered))
    = [1].
Proof. by vm_compute. Qed.

(** ** Instances and counterexamples *)

(** C2 as stated fails. The session that answers 23 of 40 one-point
    questions right has 57.5 percent of the points; rounded to the nearest
    integer that is 58, and [calculateScore] returns 57: the quotient and
    then the product are rounded to doubles, and the product to one below
    57.5. And a document whose one answer carries five points for a
    one-point question has percentage 500. *)
Lemma calculateScore_percentage_counterexample :
  score_of (calculateScore session23of40) = 23 /\
  totalPossiblePoints session23of40 = 40 /\
  Math_round (inject_Z 23 / inject_Z 40 * 100)%Q = 58 /\
  percentage_of (calculateScore session23of40) = 57 /\
  ~ nearest 57 (100 * 23) 40 /\
  (Number_mul (Number_div (inject_Z 23) (inject_Z 40)) 100 < 575 # 10)%Q /\
  percentage_of (calculateScore sessionOverpaid) = 500.
Proof.
  split_and!; try by vm_compute.
  unfold nearest. lia.
Qed.

(** C2 as amended, on the session of the scenario and on the sessions with
    23 and with 24 right answers of 40. *)
Lemma calculateScore_percentage_witness :
  0 <= percentage_of (calculateScore session30of44) <= 100 /\
  closest (percentage_of (calculateScore session23of40))
          (100 * earnedPoints session23of40)
          (totalPossiblePoints session23of40) /\
  nearest (percentage_of (calculateScore session24of40))
          (100 * earnedPoints session24of40)
          (totalPossiblePoints session24of40) /\
  percentage_of (calculateScore session23of40) <=
    percentage_of (calculateScore session24of40).
Proof.
  refine (conj _ (conj _ (conj _ _))).
  - apply (proj1 (proj2 calculateScore_percentage_spec)
             acceptAll (answerFirst 30) (newSession 1 questions44)).
    + reflexivity.
    + apply Forall_fmap, Forall_forall. intros i _. cbn. lia.
  - destruct (proj1 calculateScore_percentage_spec session23of40)
      as (_ & _ & H).
    destruct H as [Hc _]; [by vm_compute|by vm_compute|exact Hc].
  - destruct (proj1 calculateScore_percentage_spec session24of40)
      as (_ & _ & H).
    destruct H as [_ Hn]; [by vm_compute|by vm_compute|].
    apply Hn. intros k.
    assert (earnedPoints session24of40 = 24) as -> by by vm_compute.
    assert (totalPossiblePoints session24of40 = 40) as -> by by vm_compute.
    lia.
  - apply (proj2 (proj2 calculateScore_percentage_spec)
             session23of40 session24of40).
    + by vm_compute.
    + by vm_compute.
Defined.

(** C3, on a step-1 session whose percentage is 0 and on the session of
    the scenario. *)
Lemma determineLevel_witness :
  determineLevel oneQuestionAnswered = None /\
  determineLevel session30of44 = Some A2.
Proof.
  split.
  - apply (proj1 determineLevel_spec oneQuestionAnswered).
    + by vm_compute.
    + by vm_compute.
  - apply (proj1 (proj2 determineLevel_spec) session30of44).
    + by vm_compute.
    + by vm_compute.
    + by vm_compute.
Defined.

(** C4 as stated fails: the one question of [oneQuestion] has the options
    "a" (correct) and "b"; the selection "a", "a" has the same set of ids as
    the correct options, and the entry recorded for it is incorrect with 0
    points. *)
Lemma submitAnswer_repeated_id_counterexample :
  findQuestion "q1" oneQuestion = Some (question "q1" MULTIPLE_CHOICE 1) /\
  correctOptionIds (question "q1" MULTIPLE_CHOICE 1) = ["a"] /\
  (forall x : string, x ∈ ["a"; "a"] <-> x ∈ ["a"]) /\
  submitAnswer "q1" ["a"; "a"] 5 7 oneQuestion =
    (inr tt,
     set_status IN_PROGRESS
       (set_answers
          [ {| AssessmentAnswer.questionId := "q1";
               AssessmentAnswer.selectedAnswers := ["a"; "a"];
               AssessmentAnswer.timeSpent := 5;
               AssessmentAnswer.isCorrect := false;
               AssessmentAnswer.pointsEarned := 0;
               AssessmentAnswer.answeredAt := 7;
               AssessmentAnswer.changedAnswers := 0;
               AssessmentAnswer.tabSwitches := 0;
               AssessmentAnswer.copyPasteDetected := false |} ]
          oneQuestion)).
Proof.
  split_and!; [by vm_compute..| |by vm_compute].
  intros x. rewrite !elem_of_cons. tauto.
Qed.

(** C4 as amended, on a resubmission: the question of [oneQuestion] is
    answered "b", then "a". *)
Lemma submitAnswer_one_entry_witness :
  exists s' entry,
    submitAnswer "q1" ["a"] 9 20 oneQuestionAnswered = (inr tt, s') /\
    answersFor "q1" s' = [entry] /\
    AssessmentAnswer.selectedAnswers entry = ["a"] /\
    (length (answers s') <= length (questions s'))%nat.
Proof.
  destruct (submitAnswer_one_entry acceptAll [SubmitAnswer "q1" ["b"] 5 7]
              oneQuestion "q1" ["a"] 9 20 (question "q1" MULTIPLE_CHOICE 1)
              eq_refl eq_refl)
    as (s' & entry & Hrun & Hone & Hsel & _ & _ & _ & Hlen).
  by exists s', entry.
Defined.


(** C6 as stated fails: [oneQuestionCompleted] started at 0 with 2640
    seconds allowed; one second later 2639 seconds are left of the time
    allowed, and [getRemainingTime] is 0. *)
Lemma getRemainingTime_completed_counterexample :
  startTime oneQuestionCompleted = Some 0 /\
  timeAllowed oneQuestionCompleted = 2640 /\
  Z.max 0 (timeAllowed oneQuestionCompleted - (1000 - 0) / 1000) = 2639 /\
  getRemainingTime 1000 oneQuestionCompleted = 0.
Proof. by vm_compute. Qed.

(** C6 as amended, at the instant [startTime + timeAllowed]. *)
Lemma getRemainingTime_witness :
  exists elapsed,
    1000 * elapsed <= 2640000 - 0 < 1000 * (elapsed + 1) /\
    getRemainingTime 2640000 oneQuestion =
      (if isCompleted oneQuestion then 0
       else Z.max 0 (timeAllowed oneQuestion - elapsed)).
Proof.
  destruct (getRemainingTime_spec 2640000 oneQuestion 0 eq_refl)
    as (elapsed & Hel & Hrem & _).
  by exists elapsed.
Defined.

(** C8, on a record that has just failed step 1. *)
Lemma canRetakeStep1_witness :
  canRetakeStep1
    (state_after (updateStepProgress acceptAll 1 11 A1 1000 newProgress))
    = false /\
  canRetakeStep1 (state_after (progressPreSave progressFailed)) = false /\
  canRetakeStep1
    (runProgress acceptAll
       [UpdateStepProgress 1 90 A2 2000;
        UpdateCompetencyScore "information_search" 90 A2 None None 2000;
        SaveProgress]
       progressFailed) = false.
Proof.
  split_and!.
  - apply (proj1 canRetakeStep1_cleared_for_good). lia.
  - apply (proj1 (proj2 canRetakeStep1_cleared_for_good)). reflexivity.
  - apply (proj2 (proj2 canRetakeStep1_cleared_for_good)). reflexivity.
Defined.

(** C9 as stated fails: with step scores 80 and 75 the mean is 77.5 and
    [averageScore] is 78. *)
Lemma averageScore_counterexample :
  scoresSet progress80and75 = [80; 75] /\
  averageScore progress80and75 = 78 /\
  averageScore progress80and75 * Z.of_nat (length (scoresSet progress80and75))
    <> sumZ (scoresSet progress80and75).
Proof. by vm_compute. Qed.

(** C9 as amended, on the record with step scores 80 and 75. *)
Lemma progressSave_derivedFields_witness :
  derivedFields (state_after (progressSave acceptAll progress80and75)) /\
  derivedFields
    (state_after (updateStepProgress acceptAll 3 60 C2 3000 progress80and75)).
Proof.
  split.
  - apply (proj1 progressSave_derivedFields acceptAll progress80and75).
    reflexivity.
  - apply (proj1 (proj2 progressSave_derivedFields)). reflexivity.
Defined.

(** C10, on a session whose only question is true/false. *)
Lemma submitAnswer_not_multiple_choice_witness :
  (exists s' index entry,
     submitAnswer "q1" ["a"] 5 7 oneTrueFalse = (inr tt, s') /\
     findAnswer "q1" s' = Some (index, entry) /\
     AssessmentAnswer.selectedAnswers entry = ["a"] /\
     AssessmentAnswer.isCorrect entry = false /\
     AssessmentAnswer.pointsEarned entry = 0) /\
  score_of (calculateScore
              (runSession acceptAll [SubmitAnswer "q1" ["a"] 5 7] oneTrueFalse))
    = 0.
Proof.
  split.
  - apply (proj1 submitAnswer_not_multiple_choice "q1" ["a"] 5 7 oneTrueFalse
             (question "q1" TRUE_FALSE 1)).
    + reflexivity.
    + discriminate.
  - apply (proj2 (proj2 submitAnswer_not_multiple_choice)).
    + reflexivity.
    + by repeat constructor.
Defined.
(** * Further properties *)

(** ** Completion, once and for all *)

Lemma markCompleted_isCompleted valid tEnd tUnlock tSave s :
  isCompleted (state_after (markCompleted valid tEnd tUnlock tSave s)) = true.
Proof.
  destruct (isCompleted s) eqn:Hc.
  - by rewrite markCompleted_done.
  - by destruct (markCompleted_run valid tEnd tUnlock tSave s Hc)
      as (_ & _ & _ & _ & _ & _ & ? & _).
Qed.

(** X1. A completed session is final for the clock and for
    [markCompleted]: after [markCompleted], whether or not its save was
    accepted, a second [markCompleted] returns at once and leaves the
    document as the first one left it, whatever the clock reads, the
    remaining time is 0 and [isExpired] is false at every reading of the
    clock. *)
Theorem markCompleted_final valid tEnd tUnlock tSave s :
  let s' := state_after (markCompleted valid tEnd tUnlock tSave s) in
  (forall tEnd' tUnlock' tSave',
     markCompleted valid tEnd' tUnlock' tSave' s' = (inr tt, s')) /\
  (forall now, getRemainingTime now s' = 0 /\ isExpired now s' = false).
Proof.
  intros s'.
  pose proof (markCompleted_isCompleted valid tEnd tUnlock tSave s) as Hc.
  fold s' in Hc. split.
  - intros tEnd' tUnlock' tSave'. by apply markCompleted_done.
  - intros now. split.
    + by apply getRemainingTime_completed.
    + unfold isExpired. rewrite Hc. apply andb_false_r.
Qed.

(** X2. The result fields that [markCompleted] writes agree with each
    other: for a session of step 1, 2 or 3 it is passed exactly when a level
    is achieved, the level achieved is one of the two levels of the step, and
    a session that can proceed is passed, is not on step 3 and gets its
    unlock time. For any other step number no level is achieved, passed or
    not. *)
Theorem markCompleted_coherent valid tEnd tUnlock tSave s :
  isCompleted s = false ->
  let s' := state_after (markCompleted valid tEnd tUnlock tSave s) in
  (1 <= step s <= 3 ->
   (passed s' = true <-> is_Some (levelAchieved s')) /\
   (forall l levels,
      levelAchieved s' = Some l -> stepLevelMap (step s) = Some levels ->
      l = low_level levels \/ l = high_level levels)) /\
  (~ 1 <= step s <= 3 -> levelAchieved s' = None) /\
  (canProceedToNextStep s' = true ->
   passed s' = true /\ step s < 3 /\ nextStepUnlockedAt s' = Some tUnlock).
Proof.
  intros Hc s'.
  destruct (markCompleted_run valid tEnd tUnlock tSave s Hc)
    as (_ & _ & Hlv & Hpa & Hcp & _ & _ & _ & _ & Hun & _ & _).
  fold s' in Hlv, Hpa, Hcp, Hun. rewrite Hlv, Hpa, Hcp, Hun.
  clear Hlv Hpa Hcp Hun.
  unfold determineLevel, canProceedToNext.
  generalize (percentage_of (calculateScore s)). intros pct.
  split_and!.
  - intros Hstep.
    assert (exists levels, stepLevelMap (step s) = Some levels) as [levels Hl].
    { assert (step s = 1 \/ step s = 2 \/ step s = 3) as [->|[->| ->]] by lia;
        by eexists. }
    rewrite Hl. split.
    + rewrite bool_decide_eq_true. case_bool_decide as Hp; split; intros H.
      * lia.
      * by destruct H as [? [=]].
      * by eexists.
      * lia.
    + intros l levels'. case_bool_decide; [done|].
      intros [= <-] [= <-]. case_bool_decide; auto.
  - intros Hstep. case_bool_decide; [done|].
    destruct (step s) as [|[[]|[]|]|]; try done; lia.
  - rewrite andb_true_iff, !bool_decide_eq_true. intros [H75 H3].
    split_and!; [lia|done|].
    by rewrite bool_decide_true, bool_decide_true.
Qed.

(** ** The pre-save hook of the session *)

Lemma sessionPreSave_run now s :
  sessionPreSave now s =
    (inr tt,
     set_hasCheatingFlags (bool_decide (0 < length (cheatingDetails s))%nat)
       (set_endTime
          (if isCompleted s && bool_decide (endTime s = None)
           then Some now else endTime s)
          (set_status
             (if isCompleted s && bool_decide (status s <> COMPLETED)
              then COMPLETED else status s) s))).
Proof.
  unfold sessionPreSave. run_method. destruct s. cbn.
  destruct isCompleted0; cbn; [|done].
  destruct (bool_decide (status0 <> COMPLETED)); cbn; by destruct endTime0.
Qed.

(** X3. After a save of a session that succeeds, a completed session has
    status completed and an end time, [hasCheatingFlags] is true exactly
    when the list of flags is not empty, an end time that was set is kept,
    and the hook has touched no field other than [status], [endTime] and
    [hasCheatingFlags]. *)
Theorem sessionSave_invariant (valid : Session.t -> bool) now s :
  succeeded (sessionSave valid now s) = true ->
  let s' := state_after (sessionSave valid now s) in
  (isCompleted s' = true -> status s' = COMPLETED /\ is_Some (endTime s')) /\
  (hasCheatingFlags s' = true <-> cheatingDetails s' <> []) /\
  (forall e, endTime s = Some e -> endTime s' = Some e) /\
  (isCompleted s = false -> status s' = status s /\ endTime s' = endTime s) /\
  s' = set_hasCheatingFlags (hasCheatingFlags s')
         (set_endTime (endTime s') (set_status (status s') s)).
Proof.
  unfold sessionSave. run_method. destruct (valid s); [|done]. intros _.
  rewrite sessionPreSave_run. destruct s. cbn.
  split_and!.
  - intros ->. cbn. split.
    + by case_bool_decide.
    + destruct endTime0; cbn; eauto.
  - rewrite bool_decide_eq_true. destruct cheatingDetails0; cbn; split;
      try done; lia.
  - intros e ->. by rewrite andb_false_r.
  - by intros ->.
  - done.
Qed.

(** ** Integrity flags *)

Lemma addCheatingFlag_run type details severity now s :
  addCheatingFlag type details severity now s =
    (inr tt,
     set_hasCheatingFlags true
       (set_cheatingDetails
          (cheatingDetails s ++
           [ {| CheatingFlag.type := type; CheatingFlag.details := details;
                CheatingFlag.timestamp := now;
                CheatingFlag.severity := severity |} ]) s)).
Proof. unfold addCheatingFlag. run_method. by destruct s. Qed.

Lemma sessionSave_run (valid : Session.t -> bool) now s :
  sessionSave valid now s =
    if valid s then sessionPreSave now s else (inl ValidationError, s).
Proof. unfold sessionSave. run_method. by destruct (valid s). Qed.

(** X4. [addCheatingFlag] appends one flag, with the given type, details,
    severity and time, after the flags already recorded, and sets
    [hasCheatingFlags], which a following save keeps set. It does not alter
    scoring: score, percentage, level and eligibility are computed as
    before. *)
Theorem addCheatingFlag_appends (valid : Session.t -> bool) type details
    severity now tSave s :
  let s' := state_after (addCheatingFlag type details severity now s) in
  succeeded (addCheatingFlag type details severity now s) = true /\
  cheatingDetails s' =
    cheatingDetails s ++
    [ {| CheatingFlag.type := type; CheatingFlag.details := details;
         CheatingFlag.timestamp := now; CheatingFlag.severity := severity |} ] /\
  hasCheatingFlags s' = true /\
  hasCheatingFlags (state_after (sessionSave valid tSave s')) = true /\
  calculateScore s' = calculateScore s /\
  determineLevel s' = determineLevel s /\
  canProceedToNext s' = canProceedToNext s.
Proof.
  intros s'. subst s'. rewrite addCheatingFlag_run, sessionSave_run.
  unfold state_after, succeeded. cbn [fst snd].
  split_and!; try by destruct s.
  destruct (valid _).
  - rewrite sessionPreSave_run. destruct s. cbn.
    rewrite length_app. cbn. apply bool_decide_eq_true. lia.
  - by destruct s.
Qed.

(** ** Expiry *)

(** X5. A session is expired exactly when it is not completed and either
    has no start time or the clock has reached [startTime + timeAllowed];
    a session that is expired stays expired as the clock advances. *)
Theorem isExpired_spec now s :
  (isExpired now s = true <->
   isCompleted s = false /\
   (startTime s = None \/
    exists start,
      startTime s = Some start /\ start + 1000 * timeAllowed s <= now)) /\
  (forall now', now <= now' -> isExpired now s = true ->
                isExpired now' s = true).
Proof.
  assert (Hspec : forall now,
    isExpired now s = true <->
    isCompleted s = false /\
    (startTime s = None \/
     exists start,
       startTime s = Some start /\ start + 1000 * timeAllowed s <= now)).
  { clear now. intros now. unfold isExpired, getRemainingTime.
    rewrite andb_true_iff, bool_decide_eq_true, negb_true_iff.
    destruct (startTime s) as [start|], (isCompleted s); split;
      try (intros [? ?]; done).
    - intros [Hr _]. split; [done|]. right. exists start. split; [done|].
      pose proof (Z.div_mod (now - start) 1000 ltac:(lia)).
      pose proof (Z.mod_pos_bound (now - start) 1000 ltac:(lia)). lia.
    - intros [_ [?|(start' & [= <-] & Hle)]]; [done|]. split; [|done].
      pose proof (Z.div_mod (now - start) 1000 ltac:(lia)).
      pose proof (Z.mod_pos_bound (now - start) 1000 ltac:(lia)). lia.
    - intros _. split; [done|]. by left.
  }
  split; [apply Hspec|].
  intros now' Hle. rewrite !Hspec.
  intros [Hc [Hs|(start & Hs & Hd)]]; (split; [done|]); [by left|].
  right. exists start. split; [done|lia].
Qed.

(** X6. The remaining time is never negative, does not grow as the clock
    advances, and from the start time onward is at most the time allowed. *)
Theorem getRemainingTime_bounds now s :
  0 <= getRemainingTime now s /\
  (forall now', now <= now' ->
                getRemainingTime now' s <= getRemainingTime now s) /\
  (forall start, startTime s = Some start -> start <= now ->
                 getRemainingTime now s <= Z.max 0 (timeAllowed s)).
Proof.
  unfold getRemainingTime.
  destruct (startTime s) as [start|]; [|by split_and!].
  destruct (isCompleted s).
  { split_and!; [lia|by intros|intros; lia]. }
  split_and!.
  - lia.
  - intros now' Hle.
    assert ((now - start) / 1000 <= (now' - start) / 1000)
      by (apply Z.div_le_mono; lia).
    lia.
  - intros start' [= <-] Hle.
    assert (0 <= (now - start) / 1000) by (apply Z.div_pos; lia).
    lia.
Qed.

(** ** What an answer changes *)

Lemma submitAnswer_frame questionId selectedAnswers timeSpent now s q :
  findQuestion questionId s = Some q ->
  exists newAnswers,
    submitAnswer questionId selectedAnswers timeSpent now s =
      (inr tt,
       set_status (if bool_decide (status s = NOT_STARTED)
                   then IN_PROGRESS else status s)
         (set_answers newAnswers s)).
Proof.
  intros Hq. unfold submitAnswer. run_method. rewrite Hq.
  unfold findAnswer. destruct s; cbn.
  destruct (list_find _ answers0) as [[index existing]|]; cbn;
    case_bool_decide; cbn; eexists; reflexivity.
Qed.

(** X7. A successful [submitAnswer] assigns [answers] and [status] and no
    other field; the status goes from not started to in progress and is
    otherwise left as it was, so it is never not started afterwards. In
    particular the result fields other than the status are as before. *)
Theorem submitAnswer_touches_answers_and_status questionId selectedAnswers
    timeSpent now s :
  succeeded (submitAnswer questionId selectedAnswers timeSpent now s) = true ->
  let s' := state_after (submitAnswer questionId selectedAnswers timeSpent now s) in
  s' = set_status (status s') (set_answers (answers s') s) /\
  status s' = (if bool_decide (status s = NOT_STARTED)
               then IN_PROGRESS else status s) /\
  status s' <> NOT_STARTED.
Proof.
  destruct (findQuestion questionId s) as [q|] eqn:Hq.
  2:{ by rewrite submitAnswer_unknown. }
  destruct (submitAnswer_frame questionId selectedAnswers timeSpent now s q Hq)
    as (newAnswers & ->).
  intros _. unfold state_after. cbn [snd]. destruct s. cbn.
  split_and!; [done..|]. by case_bool_decide.
Qed.

(** ** The outcome of a completion is final *)

Lemma performSession_frozen valid op s :
  isCompleted s = true -> status s = COMPLETED -> is_Some (endTime s) ->
  resultFields (state_after (performSession valid op s)) = resultFields s.
Proof.
  intros Hc Hst [e He]. destruct op; cbn [performSession].
  - destruct (findQuestion questionId s) as [q|] eqn:Hq.
    2:{ by rewrite submitAnswer_unknown. }
    destruct (submitAnswer_frame questionId selectedAnswers timeSpent now s q Hq)
      as (newAnswers & ->).
    unfold state_after. cbn [snd]. destruct s. cbn in *. by subst.
  - rewrite addCheatingFlag_run. unfold state_after. cbn [snd]. by destruct s.
  - by rewrite markCompleted_done.
  - rewrite sessionSave_run. destruct (valid s); [|done].
    rewrite sessionPreSave_run. unfold state_after. cbn [snd].
    destruct s. cbn in *. subst. done.
Qed.

Lemma runSession_frozen valid ops s :
  isCompleted s = true -> status s = COMPLETED -> is_Some (endTime s) ->
  resultFields (runSession valid ops s) = resultFields s.
Proof.
  revert s. induction ops as [|op ops IH]; intros s Hc Hst He; [done|].
  rewrite runSession_cons.
  pose proof (performSession_frozen valid op s Hc Hst He) as Hop.
  rewrite <- Hop. unfold resultFields in Hop.
  injection Hop as _ _ _ _ _ _ He' Hst' Hc' _.
  apply IH; congruence.
Qed.

(** X8. The outcome of a completion is final: once [markCompleted] has run
    on a session, no sequence of [submitAnswer], [addCheatingFlag],
    [markCompleted] and [save] changes its score, percentage, level, pass
    and eligibility flags, unlock time, end time, status or completion
    flags, even where an answer is accepted afterwards. *)
Theorem results_final valid tEnd tUnlock tSave ops s :
  isCompleted s = false ->
  let s' := state_after (markCompleted valid tEnd tUnlock tSave s) in
  resultFields (runSession valid ops s') = resultFields s'.
Proof.
  intros Hc s'.
  destruct (markCompleted_run valid tEnd tUnlock tSave s Hc)
    as (_ & _ & _ & _ & _ & Hst & Hic & _ & Het & _).
  subst s'. apply runSession_frozen; [done..|]. rewrite Het. eauto.
Qed.

(** ** How an answer moves the score *)

Lemma sumZ_app l k : sumZ (l ++ k) = sumZ l + sumZ k.
Proof.
  induction l as [|x l IH]; [done|].
  change ((x :: l) ++ k) with (x :: (l ++ k)). rewrite !sumZ_cons, IH. lia.
Qed.

Lemma sumZ_insert (l : list Z) i x y :
  l !! i = Some x -> sumZ (<[i := y]> l) = sumZ l - x + y.
Proof.
  revert i. induction l as [|z l IH]; intros i Hl; [done|].
  destruct i as [|i]; cbn in Hl.
  - injection Hl as ->. change (<[0%nat := y]> (x :: l)) with (y :: l).
    rewrite !sumZ_cons. lia.
  - change (<[S i := y]> (z :: l)) with (z :: <[i := y]> l).
    rewrite !sumZ_cons, (IH i Hl). lia.
Qed.

(** X9. A successful [submitAnswer] moves the score by the points of the
    new entry minus the points of the entry it replaces: a first answer adds
    its points, a resubmission takes the points of the prior entry back. *)
Theorem submitAnswer_score questionId selectedAnswers timeSpent now s q :
  findQuestion questionId s = Some q ->
  let s' := state_after (submitAnswer questionId selectedAnswers timeSpent now s) in
  score_of (calculateScore s') =
    score_of (calculateScore s)
    - match findAnswer questionId s with
      | Some (_, prior) => AssessmentAnswer.pointsEarned prior
      | None => 0
      end
    + (if checkAnswerCorrectness q selectedAnswers
       then AssessmentQuestion.points q else 0).
Proof.
  intros Hq s'. subst s'.
  destruct (submitAnswer_known questionId selectedAnswers timeSpent now s q Hq)
    as (s' & -> & _ & _ & _ & Hans).
  unfold state_after. cbn [snd]. rewrite !calculateScore_score.
  unfold earnedPoints. rewrite Hans.
  destruct (findAnswer questionId s) as [[index prior]|] eqn:Hfa.
  - apply findAnswer_Some in Hfa as [Hl _].
    rewrite list_fmap_insert.
    rewrite (sumZ_insert _ index (AssessmentAnswer.pointsEarned prior)).
    + done.
    + by rewrite list_lookup_fmap, Hl.
  - rewrite fmap_app, sumZ_app. cbn. lia.
Qed.

(** ** Correct answers and points *)

Lemma calculateScore_correctAnswers s :
  correctAnswers_of (calculateScore s) =
    length (filter (fun a => AssessmentAnswer.isCorrect a = true) (answers s)).
Proof.
  unfold calculateScore. case_bool_decide as Hlen; [|done].
  apply length_zero_iff_nil in Hlen. by rewrite Hlen.
Qed.

Lemma scoredAgainst_points s a :
  pointsPositive s -> scoredAgainst s a ->
  if AssessmentAnswer.isCorrect a
  then 1 <= AssessmentAnswer.pointsEarned a
  else AssessmentAnswer.pointsEarned a = 0.
Proof.
  intros Hpos (q & Hq & _ & Hp). rewrite Hp.
  destruct (AssessmentAnswer.isCorrect a); [|done].
  apply findQuestion_elem_of in Hq.
  by apply (proj1 (Forall_forall _ _) Hpos q).
Qed.

Lemma scoredAgainst_unit_points s a :
  unitPoints s -> scoredAgainst s a ->
  AssessmentAnswer.pointsEarned a =
    if AssessmentAnswer.isCorrect a then 1 else 0.
Proof.
  intros Hunit (q & Hq & _ & Hp). rewrite Hp.
  destruct (AssessmentAnswer.isCorrect a); [|done].
  apply findQuestion_elem_of in Hq.
  by apply (proj1 (Forall_forall _ _) Hunit q).
Qed.

Lemma correct_count_le_points (l : list AssessmentAnswer.t) :
  Forall (fun a => if AssessmentAnswer.isCorrect a
                   then 1 <= AssessmentAnswer.pointsEarned a
                   else AssessmentAnswer.pointsEarned a = 0) l ->
  let count :=
    Z.of_nat (length (filter (fun a => AssessmentAnswer.isCorrect a = true) l)) in
  let points := sumZ (AssessmentAnswer.pointsEarned <$> l) in
  count <= points /\ (points = 0 <-> count = 0).
Proof.
  induction 1 as [|a l Ha Hl IH]; [done|].
  cbn zeta in *. rewrite fmap_cons, sumZ_cons, filter_cons.
  destruct (AssessmentAnswer.isCorrect a) eqn:Hc.
  - rewrite decide_True by done. cbn [length]. lia.
  - rewrite decide_False by done. rewrite Ha. lia.
Qed.

Lemma correct_count_unit_points (l : list AssessmentAnswer.t) :
  Forall (fun a => AssessmentAnswer.pointsEarned a =
                   if AssessmentAnswer.isCorrect a then 1 else 0) l ->
  sumZ (AssessmentAnswer.pointsEarned <$> l) =
  Z.of_nat (length (filter (fun a => AssessmentAnswer.isCorrect a = true) l)).
Proof.
  induction 1 as [|a l Ha Hl IH]; [done|].
  rewrite fmap_cons, sumZ_cons, filter_cons, Ha, IH.
  destruct (AssessmentAnswer.isCorrect a).
  - rewrite decide_True by done. cbn [length]. lia.
  - rewrite decide_False by done. lia.
Qed.

(** X10. In every session that the engine operations produce from one
    created without answers whose questions have at least one point each,
    the number of correct answers that [calculateScore] reports is at most
    the score and at most the number of questions, and the score is 0
    exactly when no answer is correct. When every question has one point
    the score is the number of correct answers. *)
Theorem calculateScore_correct_answers valid ops s0 :
  noAnswers s0 -> pointsPositive s0 ->
  let r := calculateScore (runSession valid ops s0) in
  Z.of_nat (correctAnswers_of r) <= score_of r /\
  (correctAnswers_of r <= length (questions s0))%nat /\
  (score_of r = 0 <-> correctAnswers_of r = 0%nat) /\
  (unitPoints s0 -> score_of r = Z.of_nat (correctAnswers_of r)).
Proof.
  intros Hna Hpos r. subst r.
  set (s := runSession valid ops s0).
  assert (Hc : consistent s)
    by by apply runSession_consistent, noAnswers_consistent.
  assert (Hqs : questions s = questions s0) by apply runSession_questions.
  assert (Hpos' : pointsPositive s) by (unfold pointsPositive; by rewrite Hqs).
  rewrite calculateScore_score, calculateScore_correctAnswers.
  unfold earnedPoints.
  assert (Hall : Forall (fun a => if AssessmentAnswer.isCorrect a
                   then 1 <= AssessmentAnswer.pointsEarned a
                   else AssessmentAnswer.pointsEarned a = 0) (answers s)).
  { eapply Forall_impl; [exact (proj2 Hc)|]. intros a.
    by apply scoredAgainst_points. }
  destruct (correct_count_le_points _ Hall) as [Hle Hzero].
  split_and!.
  - done.
  - rewrite <- Hqs.
    etrans; [apply length_filter|]. by apply answers_within_questions.
  - rewrite Hzero. lia.
  - intros Hunit. apply correct_count_unit_points.
    eapply Forall_impl; [exact (proj2 Hc)|]. intros a.
    apply scoredAgainst_unit_points. unfold unitPoints. by rewrite Hqs.
Qed.

(** ** Virtuals of the session *)

(** X11. [completionPercentage] is 0 for a session without questions or
    without answers and 100 when there are as many answers as questions; in
    every session that the engine operations produce from one created
    without answers it lies between 0 and 100. *)
Theorem completionPercentage_range :
  (forall s, questions s = [] \/ answers s = [] -> completionPercentage s = 0) /\
  (forall s, questions s <> [] ->
             length (answers s) = length (questions s) ->
             completionPercentage s = 100) /\
  (forall valid ops s0,
     noAnswers s0 ->
     0 <= completionPercentage (runSession valid ops s0) <= 100).
Proof.
  assert (Hpct : forall s, questions s <> [] ->
    completionPercentage s =
      percent (Z.of_nat (length (answers s)))
              (Z.of_nat (length (questions s)))).
  { intros s Hq. unfold completionPercentage.
    rewrite bool_decide_false; [done|]. by intros ?%length_zero_iff_nil. }
  assert (Hlen : forall s, questions s <> [] ->
    0 < Z.of_nat (length (questions s))).
  { intros s Hq. destruct (questions s); [done|]. cbn [length]. lia. }
  split_and!.
  - intros s [Hq|Ha].
    + unfold completionPercentage. by rewrite Hq.
    + destruct (decide (questions s = [])) as [Hq|Hq].
      * unfold completionPercentage. by rewrite Hq.
      * rewrite Hpct, Ha by done. apply percent_zero.
  - intros s Hq Heq. rewrite Hpct, Heq by done. by apply percent_all, Hlen.
  - intros valid ops s0 Hna. set (s := runSession valid ops s0).
    assert (Hc : consistent s)
      by by apply runSession_consistent, noAnswers_consistent.
    apply answers_within_questions in Hc.
    destruct (decide (questions s = [])) as [Hq|Hq].
    + assert (completionPercentage s = 0) as ->
        by (unfold completionPercentage; by rewrite Hq).
      lia.
    + rewrite Hpct by done. apply percent_range; [lia|by apply Hlen].
Qed.

Lemma markCompleted_keeps valid tEnd tUnlock tSave s :
  let s' := state_after (markCompleted valid tEnd tUnlock tSave s) in
  startTime s' = startTime s /\ timeAllowed s' = timeAllowed s /\
  step s' = step s /\ Session.userId s' = Session.userId s /\
  cheatingDetails s' = cheatingDetails s.
Proof.
  intros s'. subst s'. destruct (isCompleted s) eqn:Hc.
  { by rewrite markCompleted_done. }
  unfold markCompleted, sessionSave, sessionPreSave. run_method.
  destruct s. cbn [isCompleted] in *. subst.
  cbn -[calculateScore determineLevel canProceedToNext].
  match goal with |- context [determineLevel ?o] =>
    match goal with |- context [canProceedToNext ?x] =>
      rewrite (canProceedToNext_ext x o) by reflexivity;
      generalize (canProceedToNext o) (determineLevel o) (calculateScore o)
    end end.
  intros b lv r.
  destruct b; cbn; destruct (valid _); cbn; repeat split.
Qed.

(** X12. The duration of a session with an end time does not depend on
    the clock. After [markCompleted] on a session that was not completed it
    is the time from [startTime] to the completion, in minutes, rounded to
    the nearest integer. *)
Theorem durationMinutes_completed valid tEnd tUnlock tSave s start :
  startTime s = Some start -> isCompleted s = false ->
  let s' := state_after (markCompleted valid tEnd tUnlock tSave s) in
  (forall now now', durationMinutes now s' = durationMinutes now' s') /\
  (forall now, nearest (durationMinutes now s') (tEnd - start) 60000).
Proof.
  intros Hs Hc s'.
  destruct (markCompleted_run valid tEnd tUnlock tSave s Hc)
    as (_ & _ & _ & _ & _ & _ & _ & _ & Het & _).
  destruct (markCompleted_keeps valid tEnd tUnlock tSave s) as (Hst & _).
  fold s' in Het, Hst.
  assert (Hd : forall now,
    durationMinutes now s' = (2 * (tEnd - start) + 60000) / (2 * 60000)).
  { intros now. unfold durationMinutes. rewrite Hst, Hs, Het.
    by rewrite Math_round_div. }
  split.
  - intros now now'. by rewrite !Hd.
  - intros now. rewrite Hd. by apply nearest_div.
Qed.

(** ** Recording the result of a step *)

Lemma progressSave_frame (valid : Progress.t -> bool) p :
  exists current highest average,
    state_after (progressSave valid p) =
      set_averageScore average
        (set_highestLevelAchieved highest (set_currentStep current p)) /\
    (current = currentStep p \/ current = stepReached p).
Proof.
  unfold progressSave. run_method. destruct (valid p).
  - destruct (progressPreSave_run p) as (highest & average & -> & _).
    eexists _, highest, average. split; [reflexivity|]. by right.
  - exists (currentStep p), (highestLevelAchieved p), (averageScore p).
    split; [by destruct p|by left].
Qed.

Lemma updateStepProgress_unfold valid step score level now p :
  updateStepProgress valid step score level now p =
    progressSave valid
      (set_totalAssessmentsTaken (totalAssessmentsTaken p + 1)
         match step with
         | 1 =>
             (if bool_decide (score < 25) then set_canRetakeStep1 false
              else fun p => p)
               (set_step1 true (Some score) (Some level) (Some now) p)
         | 2 => set_step2 true (Some score) (Some level) (Some now) p
         | 3 => set_step3 true (Some score) (Some level) (Some now) p
         | _ => p
         end).
Proof.
  unfold updateStepProgress. run_method. destruct p.
  destruct step as [|[[]|[]|]|]; cbn; try done.
  by case_bool_decide.
Qed.

Lemma updateStepProgress_fields valid step score level now p :
  let p' := state_after (updateStepProgress valid step score level now p) in
  totalAssessmentsTaken p' = totalAssessmentsTaken p + 1 /\
  (forall k,
     stepFields k p' =
       if bool_decide (k = step /\ 1 <= step <= 3)
       then Some (true, Some score, Some level, Some now)
       else stepFields k p) /\
  competencyScores p' = competencyScores p /\
  achievements p' = achievements p /\
  canRetakeStep1 p' =
    (if bool_decide (step = 1) && bool_decide (score < 25)
     then false else canRetakeStep1 p).
Proof.
  intros p'. subst p'. rewrite updateStepProgress_unfold.
  match goal with |- context [progressSave valid ?q] =>
    destruct (progressSave_frame valid q) as (c & h & a & -> & _) end.
  destruct p.
  split_and!.
  - by destruct step as [|[[]|[]|]|]; cbn; try case_bool_decide.
  - intros k.
    destruct step as [|[[]|[]|]|]; cbn;
      destruct k as [|[[]|[]|]|]; cbn; try done;
      try (case_bool_decide; done);
      by rewrite bool_decide_false by lia.
  - by destruct step as [|[[]|[]|]|]; cbn; try case_bool_decide.
  - by destruct step as [|[[]|[]|]|]; cbn; try case_bool_decide.
  - by destruct step as [|[[]|[]|]|]; cbn; try case_bool_decide.
Qed.

(** X13. [updateStepProgress] counts one more assessment taken, whatever
    the step number. For step 1, 2 or 3 it marks that step completed with
    the given score, level and time and leaves the fields of the other two
    steps as they were; for any other step number it changes the fields of
    no step. It leaves the competency scores and the achievements alone, and
    it clears the retake flag exactly for step 1 with a score below 25. *)
Theorem updateStepProgress_effect valid step score level now p :
  let p' := state_after (updateStepProgress valid step score level now p) in
  totalAssessmentsTaken p' = totalAssessmentsTaken p + 1 /\
  (forall k,
     stepFields k p' =
       if bool_decide (k = step /\ 1 <= step <= 3)
       then Some (true, Some score, Some level, Some now)
       else stepFields k p) /\
  competencyScores p' = competencyScores p /\
  achievements p' = achievements p /\
  canRetakeStep1 p' =
    (if bool_decide (step = 1) && bool_decide (score < 25)
     then false else canRetakeStep1 p).
Proof.
  intros p'.
  destruct (updateStepProgress_fields valid step score level now p)
    as (Hcount & Hsteps & Hscores & Hachievements & Hflag).
  by split_and!.
Qed.

(** ** Eligibility after a result *)

Lemma or_zero_Some_ge v : bool_decide (75 <= or_zero (Some v)) = bool_decide (75 <= v).
Proof.
  apply bool_decide_ext. rewrite or_zero_ge. split.
  - by intros (v' & [= <-] & ?).
  - intros. by exists v.
Qed.

Lemma canTakeStep_ext step p1 p2 :
  stepFields 1 p1 = stepFields 1 p2 -> stepFields 2 p1 = stepFields 2 p2 ->
  canRetakeStep1 p1 = canRetakeStep1 p2 ->
  canTakeStep step p1 = canTakeStep step p2.
Proof.
  unfold stepFields. intros [= H1 H2 _ _] [= H3 H4 _ _] H5.
  unfold canTakeStep. by rewrite H1, H2, H3, H4, H5.
Qed.

(** X14. How a recorded result moves eligibility. After a step-1 result,
    step 2 can be taken exactly when the score is at least 75, and step 1
    can be taken again exactly when the retake flag was set and the score is
    at least 25. After a step-2 result, step 3 can be taken exactly when the
    score is at least 75, and the eligibility for steps 1 and 2 is as
    before. A step-3 result changes no eligibility. *)
Theorem updateStepProgress_eligibility valid score level now p :
  (let p' := state_after (updateStepProgress valid 1 score level now p) in
   canTakeStep 2 p' = bool_decide (75 <= score) /\
   canTakeStep 1 p' = canRetakeStep1 p && bool_decide (25 <= score) /\
   canTakeStep 3 p' = canTakeStep 3 p) /\
  (let p' := state_after (updateStepProgress valid 2 score level now p) in
   canTakeStep 3 p' = bool_decide (75 <= score) /\
   canTakeStep 1 p' = canTakeStep 1 p /\
   canTakeStep 2 p' = canTakeStep 2 p) /\
  (let p' := state_after (updateStepProgress valid 3 score level now p) in
   forall k, canTakeStep k p' = canTakeStep k p).
Proof.
  split_and!; intros p'.
  - destruct (updateStepProgress_fields valid 1 score level now p)
      as (_ & Hsteps & _ & _ & Hflag). fold p' in Hsteps, Hflag.
    pose proof (Hsteps 1) as H1. pose proof (Hsteps 2) as H2.
    cbn in H1, H2, Hflag.
    rewrite bool_decide_true in H1 by lia.
    rewrite bool_decide_false in H2 by lia.
    injection H1 as H1a H1b _ _. injection H2 as H2a H2b _ _.
    unfold canTakeStep. rewrite H1a, H1b, H2a, H2b, Hflag, or_zero_Some_ge.
    split_and!; [done| |done].
    cbn. rewrite orb_false_r.
    destruct (bool_decide_reflect (score < 25));
      [rewrite (bool_decide_false (25 <= score)) by lia
      |rewrite (bool_decide_true (25 <= score)) by lia];
      by rewrite ?andb_false_r, ?andb_true_r.
  - destruct (updateStepProgress_fields valid 2 score level now p)
      as (_ & Hsteps & _ & _ & Hflag). fold p' in Hsteps, Hflag.
    pose proof (Hsteps 1) as H1. pose proof (Hsteps 2) as H2.
    cbn in H1, H2, Hflag.
    rewrite bool_decide_false in H1 by lia.
    rewrite bool_decide_true in H2 by lia.
    injection H1 as H1a H1b _ _. injection H2 as H2a H2b _ _.
    unfold canTakeStep. rewrite H1a, H1b, H2a, H2b, Hflag, or_zero_Some_ge.
    done.
  - destruct (updateStepProgress_fields valid 3 score level now p)
      as (_ & Hsteps & _ & _ & Hflag). fold p' in Hsteps, Hflag.
    intros k. apply canTakeStep_ext.
    + by rewrite (Hsteps 1), bool_decide_false by lia.
    + by rewrite (Hsteps 2), bool_decide_false by lia.
    + done.
Qed.

Lemma performProgress_keeps_retake valid op p :
  failsStep1 op = false -> canRetakeStep1 p = true ->
  canRetakeStep1 (state_after (performProgress valid op p)) = true.
Proof.
  intros Hop Hflag.
  destruct op as [step sc level now
                 |competency sc level questionsAttempted correctAnswers now
                 |achievement|]; cbn [performProgress].
  - destruct (updateStepProgress_run valid step sc level now p)
      as (p1 & -> & Hp1).
    rewrite progressSave_canRetakeStep1, Hp1, Hflag.
    cbn in Hop. by rewrite Hop.
  - destruct (updateCompetencyScore_run valid competency sc level
                questionsAttempted correctAnswers now p) as (p1 & -> & Hp1).
    by rewrite progressSave_canRetakeStep1, Hp1.
  - destruct (addAchievement_run valid achievement p)
      as [->|(p1 & -> & Hp1)]; [done|].
    by rewrite progressSave_canRetakeStep1, Hp1.
  - by rewrite progressSave_canRetakeStep1.
Qed.

(** X15. While the retake flag is set, step 1 is the next available step:
    from a record with the flag set, after any sequence of operations that
    records no step-1 score below 25, [getNextAvailableStep] returns 1,
    whichever steps have been completed and with whatever scores. Step 2 or
    3 is returned only for a record whose flag has been cleared. *)
Theorem getNextAvailableStep_while_retake valid ops p :
  canRetakeStep1 p = true ->
  forallb (fun op => negb (failsStep1 op)) ops = true ->
  getNextAvailableStep (runProgress valid ops p) = Some 1 /\
  (forall q k, getNextAvailableStep q = Some k -> k <> 1 ->
               canRetakeStep1 q = false).
Proof.
  intros Hflag Hops. split.
  - assert (Hkeep : canRetakeStep1 (runProgress valid ops p) = true).
    { revert p Hflag. induction ops as [|op ops IH]; intros p Hflag; [done|].
      cbn in Hops. apply andb_true_iff in Hops as [Hop Hops].
      apply negb_true_iff in Hop.
      rewrite runProgress_cons. apply IH; [done|].
      by apply performProgress_keeps_retake. }
    unfold getNextAvailableStep, canTakeStep. by rewrite Hkeep.
  - intros q k. unfold getNextAvailableStep.
    destruct (canTakeStep 1 q) eqn:H1; [by intros [= <-]|].
    intros _ _. cbn in H1. by apply orb_false_iff in H1 as [? _].
Qed.

(** ** Competency scores *)

Lemma list_find_insert_same {A} (P : A -> Prop) `{forall x, Decision (P x)}
    (l : list A) i x y :
  list_find P l = Some (i, x) -> P y ->
  list_find P (<[i := y]> l) = Some (i, y).
Proof.
  intros (Hl & _ & Hfirst)%list_find_Some Hy. apply list_find_Some.
  split_and!; [|done|].
  - apply list_lookup_insert_eq. by eapply lookup_lt_Some.
  - intros j z Hj Hlt. rewrite list_lookup_insert_ne in Hj by lia.
    by eapply Hfirst.
Qed.

Lemma list_find_insert_other {A} (P : A -> Prop) `{forall x, Decision (P x)}
    (l : list A) i x y :
  l !! i = Some x -> ~ P x -> ~ P y ->
  list_find P (<[i := y]> l) = list_find P l.
Proof.
  revert i. induction l as [|z l IH]; intros i Hl Hx Hy; [done|].
  destruct i as [|i]; cbn in Hl.
  - injection Hl as ->. change (<[0%nat := y]> (x :: l)) with (y :: l).
    cbn [list_find]. by rewrite !decide_False.
  - change (<[S i := y]> (z :: l)) with (z :: <[i := y]> l).
    cbn [list_find]. by rewrite (IH i).
Qed.

Lemma list_find_snoc_new {A} (P : A -> Prop) `{forall x, Decision (P x)}
    (l : list A) y :
  list_find P l = None -> P y -> list_find P (l ++ [y]) = Some (length l, y).
Proof.
  intros Hn Hy. rewrite list_find_app_r by done. cbn [list_find].
  by rewrite decide_True.
Qed.

Lemma list_find_snoc_other {A} (P : A -> Prop) `{forall x, Decision (P x)}
    (l : list A) y :
  ~ P y -> list_find P (l ++ [y]) = list_find P l.
Proof.
  intros Hy. destruct (list_find P l) as [[i x]|] eqn:Hf.
  - by apply list_find_app_l.
  - rewrite list_find_app_r by done. cbn [list_find].
    by rewrite decide_False.
Qed.

Lemma progressSave_keeps (valid : Progress.t -> bool) p :
  let p' := state_after (progressSave valid p) in
  competencyScores p' = competencyScores p /\
  achievements p' = achievements p /\
  totalAssessmentsTaken p' = totalAssessmentsTaken p /\
  (forall k, stepFields k p' = stepFields k p).
Proof.
  intros p'. subst p'.
  destruct (progressSave_frame valid p) as (c & h & a & -> & _).
  by destruct p.
Qed.

Lemma updateCompetencyScore_unfold valid competency score level attempted
    correct now p :
  updateCompetencyScore valid competency score level attempted correct now p =
    progressSave valid
      (set_competencyScores
         match list_find (fun cs => CompetencyScore.competency cs = competency)
                 (competencyScores p) with
         | Some (existingIndex, existing) =>
             <[existingIndex :=
                 {| CompetencyScore.competency :=
                      CompetencyScore.competency existing;
                    CompetencyScore.score :=
                      Z.max (CompetencyScore.score existing) score;
                    CompetencyScore.level := level;
                    CompetencyScore.questionsAttempted :=
                      CompetencyScore.questionsAttempted existing +
                      default 1 attempted;
                    CompetencyScore.correctAnswers :=
                      CompetencyScore.correctAnswers existing +
                      default 0 correct;
                    CompetencyScore.lastUpdated := now |}]>
               (competencyScores p)
         | None =>
             competencyScores p ++
             [ {| CompetencyScore.competency := competency;
                  CompetencyScore.score := score;
                  CompetencyScore.level := level;
                  CompetencyScore.questionsAttempted := default 1 attempted;
                  CompetencyScore.correctAnswers := default 0 correct;
                  CompetencyScore.lastUpdated := now |} ]
         end p).
Proof.
  unfold updateCompetencyScore. run_method. destruct p. cbn.
  by destruct (list_find _ competencyScores0) as [[existingIndex existing]|].
Qed.

Lemma updateCompetencyScore_find valid competency score level attempted
    correct now p :
  let p' := state_after (updateCompetencyScore valid competency score level
                           attempted correct now p) in
  match findCompetency competency p with
  | Some old =>
      findCompetency competency p' =
        Some {| CompetencyScore.competency := competency;
                CompetencyScore.score := Z.max (CompetencyScore.score old) score;
                CompetencyScore.level := level;
                CompetencyScore.questionsAttempted :=
                  CompetencyScore.questionsAttempted old + default 1 attempted;
                CompetencyScore.correctAnswers :=
                  CompetencyScore.correctAnswers old + default 0 correct;
                CompetencyScore.lastUpdated := now |} /\
      length (competencyScores p') = length (competencyScores p)
  | None =>
      findCompetency competency p' =
        Some {| CompetencyScore.competency := competency;
                CompetencyScore.score := score;
                CompetencyScore.level := level;
                CompetencyScore.questionsAttempted := default 1 attempted;
                CompetencyScore.correctAnswers := default 0 correct;
                CompetencyScore.lastUpdated := now |} /\
      length (competencyScores p') = S (length (competencyScores p))
  end /\
  (forall other, other <> competency ->
                 findCompetency other p' = findCompetency other p).
Proof.
  intros p'. subst p'. rewrite updateCompetencyScore_unfold.
  unfold findCompetency.
  match goal with |- context [progressSave valid ?q] =>
    destruct (progressSave_keeps valid q) as (-> & _) end.
  destruct p. cbn [competencyScores set_competencyScores].
  destruct (list_find _ competencyScores0) as [[index old]|] eqn:Hf.
  - pose proof Hf as (Hl & Hid & _)%list_find_Some. cbn [fmap option_fmap option_map snd].
    split; [split|].
    + erewrite list_find_insert_same; [|exact Hf|done]. cbn. by rewrite Hid.
    + apply length_insert.
    + intros other Hne. erewrite list_find_insert_other; [done|exact Hl|..];
        cbn; congruence.
  - cbn [fmap option_fmap option_map]. split; [split|].
    + by rewrite list_find_snoc_new.
    + rewrite length_app. cbn. lia.
    + intros other Hne. rewrite list_find_snoc_other; [done|]. cbn. congruence.
Qed.

Lemma updateCompetencyScore_place valid competency score level attempted
    correct now p :
  let p' := state_after (updateCompetencyScore valid competency score level
                           attempted correct now p) in
  let place := default (length (competencyScores p))
                       (findCompetencyIndex competency p) in
  findCompetencyIndex competency p' = Some place /\
  forall j,
    competencyScores p' !! j =
      if bool_decide (j = place) then findCompetency competency p'
      else competencyScores p !! j.
Proof.
  intros p'. subst p'. rewrite updateCompetencyScore_unfold.
  unfold findCompetency, findCompetencyIndex.
  match goal with |- context [progressSave valid ?q] =>
    destruct (progressSave_keeps valid q) as (-> & _) end.
  destruct p. cbn [competencyScores set_competencyScores].
  destruct (list_find _ competencyScores0) as [[index old]|] eqn:Hf.
  - pose proof Hf as (Hl & Hid & _)%list_find_Some.
    cbn [fmap option_fmap option_map fst snd default].
    erewrite list_find_insert_same; [|exact Hf|done].
    cbn [fmap option_fmap option_map fst snd].
    split; [done|].
    intros j. case_bool_decide as Hj.
    + subst j. apply list_lookup_insert_eq. by eapply lookup_lt_Some.
    + by apply list_lookup_insert_ne.
  - cbn [fmap option_fmap option_map fst snd default].
    rewrite list_find_snoc_new by done.
    cbn [fmap option_fmap option_map fst snd].
    split; [done|].
    intros j. case_bool_decide as Hj.
    + subst j. by rewrite lookup_app_r, Nat.sub_diag by lia.
    + destruct (decide (j < length competencyScores0)%nat) as [Hlt|Hge].
      * by rewrite lookup_app_l.
      * rewrite !lookup_ge_None_2; [done|lia|].
        rewrite length_app. cbn. lia.
Qed.

(** X16. [updateCompetencyScore] upserts the entry of the competency. An
    entry that exists keeps its place and gets the greater of its score and
    the new one, the new level, the attempted and correct counts increased
    by the arguments (by 1 and 0 when they are left out) and the current
    time; the list keeps its length. Otherwise an entry with the given
    values is appended. Every other position of the list holds what it
    held, and the entry found for any other competency is as before. *)
Theorem updateCompetencyScore_upsert valid competency score level attempted
    correct now p :
  let p' := state_after (updateCompetencyScore valid competency score level
                           attempted correct now p) in
  match findCompetency competency p with
  | Some old =>
      findCompetency competency p' =
        Some {| CompetencyScore.competency := competency;
                CompetencyScore.score := Z.max (CompetencyScore.score old) score;
                CompetencyScore.level := level;
                CompetencyScore.questionsAttempted :=
                  CompetencyScore.questionsAttempted old + default 1 attempted;
                CompetencyScore.correctAnswers :=
                  CompetencyScore.correctAnswers old + default 0 correct;
                CompetencyScore.lastUpdated := now |} /\
      length (competencyScores p') = length (competencyScores p)
  | None =>
      findCompetency competency p' =
        Some {| CompetencyScore.competency := competency;
                CompetencyScore.score := score;
                CompetencyScore.level := level;
                CompetencyScore.questionsAttempted := default 1 attempted;
                CompetencyScore.correctAnswers := default 0 correct;
                CompetencyScore.lastUpdated := now |} /\
      length (competencyScores p') = S (length (competencyScores p))
  end /\
  (forall other, other <> competency ->
                 findCompetency other p' = findCompetency other p) /\
  (let place := default (length (competencyScores p))
                        (findCompetencyIndex competency p) in
   findCompetencyIndex competency p' = Some place /\
   forall j,
     competencyScores p' !! j =
       if bool_decide (j = place) then findCompetency competency p'
       else competencyScores p !! j).
Proof.
  intros p'.
  pose proof (updateCompetencyScore_find valid competency score level
                attempted correct now p) as [Hfind Hother].
  pose proof (updateCompetencyScore_place valid competency score level
                attempted correct now p) as Hplace.
  by split_and!.
Qed.

Lemma addAchievement_unfold valid achievement p :
  addAchievement valid achievement p =
    match list_find (fun a => Achievement.id a = Achievement.id achievement)
            (achievements p) with
    | Some _ => (inr tt, p)
    | None =>
        progressSave valid
          (set_achievements (achievements p ++ [achievement]) p)
    end.
Proof.
  unfold addAchievement. run_method.
  by destruct (list_find _ (achievements p)).
Qed.

Lemma performProgress_competencyScores valid op p :
  match op with
  | UpdateCompetencyScore _ _ _ _ _ _ => True
  | _ =>
      competencyScores (state_after (performProgress valid op p)) =
      competencyScores p
  end.
Proof.
  destruct op as [step sc level now
                 |competency sc level questionsAttempted correctAnswers now
                 |achievement|]; cbn [performProgress]; [| done | |].
  - apply updateStepProgress_fields.
  - rewrite addAchievement_unfold.
    destruct (list_find _ (achievements p)); [done|].
    match goal with |- context [progressSave valid ?q] =>
      destruct (progressSave_keeps valid q) as (-> & _) end.
    by destruct p.
  - apply progressSave_keeps.
Qed.

Lemma performProgress_best_score valid op p competency old :
  findCompetency competency p = Some old ->
  exists new,
    findCompetency competency (state_after (performProgress valid op p))
      = Some new /\
    CompetencyScore.score old <= CompetencyScore.score new.
Proof.
  intros Hold.
  pose proof (performProgress_competencyScores valid op p) as Hkeep.
  destruct op as [step sc level now
                 |competency' sc level questionsAttempted correctAnswers now
                 |achievement|];
    try (exists old; unfold findCompetency in *; rewrite Hkeep; split; [done|lia]).
  cbn [performProgress].
  pose proof (updateCompetencyScore_find valid competency' sc level
                questionsAttempted correctAnswers now p) as [Hsame Hother].
  destruct (decide (competency = competency')) as [<-|Hne].
  - rewrite Hold in Hsame. destruct Hsame as [-> _]. eexists. split; [done|].
    cbn. lia.
  - exists old. rewrite Hother by done. split; [done|lia].
Qed.

Lemma performProgress_competencies_NoDup valid op p :
  NoDup (CompetencyScore.competency <$> competencyScores p) ->
  NoDup (CompetencyScore.competency <$>
           competencyScores (state_after (performProgress valid op p))).
Proof.
  intros Hnd.
  pose proof (performProgress_competencyScores valid op p) as Hkeep.
  destruct op as [step sc level now
                 |competency sc level questionsAttempted correctAnswers now
                 |achievement|];
    try (by rewrite Hkeep).
  cbn [performProgress]. rewrite updateCompetencyScore_unfold.
  match goal with |- context [progressSave valid ?q] =>
    destruct (progressSave_keeps valid q) as (-> & _) end.
  destruct p. cbn [competencyScores set_competencyScores] in *.
  destruct (list_find _ competencyScores0) as [[index old]|] eqn:Hf.
  - apply list_find_Some in Hf as (Hl & _ & _).
    rewrite list_fmap_insert. cbn.
    rewrite list_insert_id; [done|]. by rewrite list_lookup_fmap, Hl.
  - apply list_find_None in Hf.
    rewrite fmap_app. apply NoDup_app. split_and!; [done| |apply NoDup_singleton].
    intros x (cs & -> & Hcs)%list_elem_of_fmap. cbn.
    rewrite list_elem_of_singleton.
    by apply (proj1 (Forall_forall _ _) Hf cs).
Qed.

(** X17. Through every sequence of progress operations a competency keeps
    an entry once it has one, its score never goes down (the best score
    seen is kept), and a list of scores with one entry per competency stays
    that way. *)
Theorem competency_scores_kept valid ops p :
  (forall competency old,
     findCompetency competency p = Some old ->
     exists new,
       findCompetency competency (runProgress valid ops p) = Some new /\
       CompetencyScore.score old <= CompetencyScore.score new) /\
  (NoDup (CompetencyScore.competency <$> competencyScores p) ->
   NoDup (CompetencyScore.competency <$>
            competencyScores (runProgress valid ops p))).
Proof.
  revert p. induction ops as [|op ops IH]; intros p.
  { split; [|done]. intros competency old Hold. exists old. split; [done|lia]. }
  rewrite runProgress_cons.
  destruct (IH (state_after (performProgress valid op p))) as [IH1 IH2].
  split.
  - intros competency old Hold.
    destruct (performProgress_best_score valid op p competency old Hold)
      as (mid & Hmid & Hle).
    destruct (IH1 competency mid Hmid) as (new & Hnew & Hle').
    exists new. split; [done|lia].
  - intros Hnd. by apply IH2, performProgress_competencies_NoDup.
Qed.

(** ** Achievements *)

Lemma addAchievement_achievements valid achievement p :
  achievements (state_after (addAchievement valid achievement p)) =
    if decide (Achievement.id achievement ∈ Achievement.id <$> achievements p)
    then achievements p else achievements p ++ [achievement].
Proof.
  rewrite addAchievement_unfold.
  destruct (list_find _ (achievements p)) as [[i a]|] eqn:Hf.
  - apply list_find_Some in Hf as (Hl & Hid & _).
    rewrite decide_True; [done|].
    apply list_elem_of_fmap. exists a. split; [done|].
    by eapply list_elem_of_lookup_2.
  - apply list_find_None in Hf.
    rewrite decide_False.
    + match goal with |- context [progressSave valid ?q] =>
        destruct (progressSave_keeps valid q) as (_ & -> & _) end.
      by destruct p.
    + intros (a & Hid & Ha)%list_elem_of_fmap.
      by apply (proj1 (Forall_forall _ _) Hf a).
Qed.

Lemma performProgress_achievements valid op p :
  achievements (state_after (performProgress valid op p)) =
    match op with
    | AddAchievement achievement =>
        if decide (Achievement.id achievement ∈
                   Achievement.id <$> achievements p)
        then achievements p else achievements p ++ [achievement]
    | _ => achievements p
    end.
Proof.
  destruct op as [step sc level now
                 |competency sc level questionsAttempted correctAnswers now
                 |achievement|]; cbn [performProgress].
  - apply updateStepProgress_fields.
  - rewrite updateCompetencyScore_unfold.
    match goal with |- context [progressSave valid ?q] =>
      destruct (progressSave_keeps valid q) as (_ & -> & _) end.
    by destruct p.
  - apply addAchievement_achievements.
  - apply progressSave_keeps.
Qed.

(** X18. [addAchievement] with an id that the record already has returns
    at once and leaves the record as it is, without a save; with a new id it
    appends the achievement. So adding an achievement twice is adding it
    once. Through every sequence of progress operations the achievements
    already there stay, in their order, at the head of the list, and a list
    without a repeated id stays without one. *)
Theorem addAchievement_once :
  (forall valid achievement p,
     Achievement.id achievement ∈ Achievement.id <$> achievements p ->
     addAchievement valid achievement p = (inr tt, p)) /\
  (forall valid achievement p,
     Achievement.id achievement ∉ Achievement.id <$> achievements p ->
     achievements (state_after (addAchievement valid achievement p)) =
       achievements p ++ [achievement]) /\
  (forall valid achievement p,
     addAchievement valid achievement
       (state_after (addAchievement valid achievement p))
     = (inr tt, state_after (addAchievement valid achievement p))) /\
  (forall valid ops p,
     achievements p `prefix_of` achievements (runProgress valid ops p) /\
     (NoDup (Achievement.id <$> achievements p) ->
      NoDup (Achievement.id <$> achievements (runProgress valid ops p)))).
Proof.
  assert (Hexisting : forall valid achievement p,
     Achievement.id achievement ∈ Achievement.id <$> achievements p ->
     addAchievement valid achievement p = (inr tt, p)).
  { intros valid achievement p (a & Hid & Ha)%list_elem_of_fmap.
    rewrite addAchievement_unfold.
    destruct (list_find _ (achievements p)) as [[i b]|] eqn:Hf; [done|].
    apply list_find_None in Hf.
    by destruct (proj1 (Forall_forall _ _) Hf a Ha). }
  split_and!.
  - exact Hexisting.
  - intros valid achievement p Hnew.
    by rewrite addAchievement_achievements, decide_False.
  - intros valid achievement p. apply Hexisting.
    rewrite addAchievement_achievements. case_decide as Hin; [done|].
    rewrite fmap_app. apply elem_of_app. right. cbn. by left.
  - intros valid ops. induction ops as [|op ops IH]; intros p; [done|].
    rewrite runProgress_cons.
    destruct (IH (state_after (performProgress valid op p))) as [IH1 IH2].
    pose proof (performProgress_achievements valid op p) as Hop.
    split.
    + etrans; [|exact IH1]. rewrite Hop.
      destruct op; try done. case_decide; [done|]. by apply prefix_app_r.
    + intros Hnd. apply IH2. rewrite Hop.
      destruct op; try done. case_decide as Hin; [done|].
      rewrite fmap_app. apply NoDup_app. split_and!; [done| |apply NoDup_singleton].
      intros x Hx. cbn. rewrite list_elem_of_singleton. by intros ->.
Qed.

(** ** The pre-save hook of the progress record, again *)

Lemma rank_inj l1 l2 : rank l1 = rank l2 -> l1 = l2.
Proof. by destruct l1, l2. Qed.

Lemma set_currentStep_same p : set_currentStep (currentStep p) p = p.
Proof. by destruct p. Qed.

(** X19. The pre-save hook changes nothing in a record whose derived
    fields already agree with its per-step fields; hence running the hook a
    second time changes nothing. *)
Theorem progressPreSave_fixed_point :
  (forall p, derivedFields p -> progressPreSave p = (inr tt, p)) /\
  (forall p,
     progressPreSave (state_after (progressPreSave p))
     = (inr tt, state_after (progressPreSave p))).
Proof.
  assert (Hfix : forall p, derivedFields p -> progressPreSave p = (inr tt, p)).
  { intros p (Hcur & Hhigh & Havg).
    destruct (progressPreSave_run p)
      as (highest & average & -> & Hh1 & Hh2 & Ha1 & Ha2).
    rewrite <- Hcur, set_currentStep_same.
    assert (highest = highestLevelAchieved p) as ->.
    { destruct (decide (levelsSet p = [])) as [Hl|Hl]; [by apply Hh1|].
      destruct (Hh2 Hl) as [Hin Hmax]. destruct (Hhigh Hl) as [Hin' Hmax'].
      apply rank_inj. specialize (Hmax _ Hin'). specialize (Hmax' _ Hin). lia. }
    rewrite set_highestLevelAchieved_same.
    assert (average = averageScore p) as ->.
    { destruct (decide (scoresSet p = [])) as [Hs|Hs]; [by apply Ha1|].
      eapply nearest_unique; [|by apply Ha2|by apply Havg].
      destruct (scoresSet p); [done|]. cbn [length]. lia. }
    by rewrite set_averageScore_same. }
  split; [exact Hfix|].
  intros p. apply Hfix.
  by destruct (progressPreSave_derived p) as (p' & -> & Hd & _).
Qed.

(** X20. If the step scores that are set lie between two integers, so
    does the average score after a save that succeeds; in particular it is
    within the 0 to 100 of the schema when the step scores are. *)
Theorem averageScore_between (valid : Progress.t -> bool) p lo hi :
  succeeded (progressSave valid p) = true ->
  scoresSet p <> [] ->
  Forall (fun x => lo <= x <= hi) (scoresSet p) ->
  lo <= averageScore (state_after (progressSave valid p)) <= hi.
Proof.
  intros Hok Hne Hall.
  pose proof (progressSave_run valid p) as Hrun.
  destruct (valid p); [|by rewrite Hrun in Hok].
  destruct Hrun as (p' & Hrun & (_ & _ & Havg) & _). rewrite Hrun.
  unfold state_after. cbn [snd].
  assert (Hscores : scoresSet p' = scoresSet p).
  { pose proof (progressSave_keeps valid p) as (_ & _ & _ & Hsteps).
    rewrite Hrun in Hsteps. unfold state_after in Hsteps. cbn [snd] in Hsteps.
    pose proof (Hsteps 1) as [= _ H1 _ _]. pose proof (Hsteps 2) as [= _ H2 _ _].
    pose proof (Hsteps 3) as [= _ H3 _ _].
    unfold scoresSet. by rewrite H1, H2, H3. }
  rewrite Hscores in Havg. specialize (Havg Hne). destruct Havg as [H1 H2].
  assert (Hsum : Z.of_nat (length (scoresSet p)) * lo <= sumZ (scoresSet p)
                 <= Z.of_nat (length (scoresSet p)) * hi).
  { clear -Hall. induction Hall as [|x l Hx Hl IH]; [cbn; lia|].
    rewrite sumZ_cons. cbn [length]. lia. }
  assert (0 < Z.of_nat (length (scoresSet p))).
  { destruct (scoresSet p); [done|]. cbn [length]. lia. }
  nia.
Qed.

(** ** Steps are never undone *)

Lemma performProgress_stepFields valid op p k :
  stepFields k (state_after (performProgress valid op p)) =
    match op with
    | UpdateStepProgress step score level now =>
        if bool_decide (k = step /\ 1 <= step <= 3)
        then Some (true, Some score, Some level, Some now)
        else stepFields k p
    | _ => stepFields k p
    end.
Proof.
  destruct op as [step sc level now
                 |competency sc level questionsAttempted correctAnswers now
                 |achievement|]; cbn [performProgress].
  - apply updateStepProgress_fields.
  - rewrite updateCompetencyScore_unfold.
    match goal with |- context [progressSave valid ?q] =>
      destruct (progressSave_keeps valid q) as (_ & _ & _ & ->) end.
    by destruct p, k as [|[[]|[]|]|].
  - rewrite addAchievement_unfold.
    destruct (list_find _ (achievements p)); [done|].
    match goal with |- context [progressSave valid ?q] =>
      destruct (progressSave_keeps valid q) as (_ & _ & _ & ->) end.
    by destruct p, k as [|[[]|[]|]|].
  - apply progressSave_keeps.
Qed.

Lemma performProgress_completed valid op p :
  let p' := state_after (performProgress valid op p) in
  (step1Completed p = true -> step1Completed p' = true) /\
  (step2Completed p = true -> step2Completed p' = true) /\
  (step3Completed p = true -> step3Completed p' = true).
Proof.
  intros p'.
  pose proof (performProgress_stepFields valid op p 1) as H1.
  pose proof (performProgress_stepFields valid op p 2) as H2.
  pose proof (performProgress_stepFields valid op p 3) as H3.
  fold p' in H1, H2, H3.
  destruct op; cbn in H1, H2, H3;
    try (injection H1 as -> _ _ _; injection H2 as -> _ _ _;
         injection H3 as -> _ _ _; done).
  split_and!; intros Hc.
  - clear H2 H3. case_bool_decide; by injection H1 as -> _ _ _.
  - clear H1 H3. case_bool_decide; by injection H2 as -> _ _ _.
  - clear H1 H2. case_bool_decide; by injection H3 as -> _ _ _.
Qed.

Lemma performProgress_currentStep valid op p :
  let p' := state_after (performProgress valid op p) in
  currentStep p' = currentStep p \/ currentStep p' = stepReached p'.
Proof.
  intros p'. subst p'.
  assert (Hsave : forall q,
    currentStep q = currentStep p ->
    currentStep (state_after (progressSave valid q)) = currentStep p \/
    currentStep (state_after (progressSave valid q)) =
      stepReached (state_after (progressSave valid q))).
  { intros q Hq.
    destruct (progressSave_frame valid q) as (c & h & a & -> & [->| ->]).
    - left. by destruct q.
    - right. by destruct q. }
  destruct op as [step sc level now
                 |competency sc level questionsAttempted correctAnswers now
                 |achievement|]; cbn [performProgress].
  - rewrite updateStepProgress_unfold. apply Hsave.
    destruct p. by destruct step as [|[[]|[]|]|]; cbn; try case_bool_decide.
  - rewrite updateCompetencyScore_unfold. apply Hsave. by destruct p.
  - rewrite addAchievement_unfold.
    destruct (list_find _ (achievements p)); [by left|].
    apply Hsave. by destruct p.
  - by apply Hsave.
Qed.

Lemma stepReached_mono p p' :
  (step1Completed p = true -> step1Completed p' = true) ->
  (step2Completed p = true -> step2Completed p' = true) ->
  (step3Completed p = true -> step3Completed p' = true) ->
  stepReached p <= stepReached p' /\ stepsCompleted p <= stepsCompleted p'.
Proof.
  unfold stepReached, stepsCompleted. intros H1 H2 H3.
  destruct (step1Completed p), (step2Completed p), (step3Completed p);
    rewrite ?H1, ?H2, ?H3 by done; cbn;
    destruct (step1Completed p'), (step2Completed p'), (step3Completed p');
    cbn; lia.
Qed.

Lemma calculateOverallProgress_table p :
  calculateOverallProgress p =
    match stepsCompleted p with 0 => 0 | 1 => 33 | 2 => 67 | _ => 100 end.
Proof.
  unfold calculateOverallProgress, stepsCompleted.
  by destruct (step1Completed p), (step2Completed p), (step3Completed p).
Qed.

Lemma stepsCompleted_range p : 0 <= stepsCompleted p <= 3.
Proof.
  unfold stepsCompleted.
  destruct (step1Completed p), (step2Completed p), (step3Completed p);
    cbn; lia.
Qed.

(** X21. [calculateOverallProgress] depends only on how many steps are
    completed, not on which: it is 0, 33, 67 or 100 for 0, 1, 2 or 3
    completed steps, and 100 exactly when all three are completed. *)
Theorem calculateOverallProgress_by_count p :
  calculateOverallProgress p =
    match stepsCompleted p with 0 => 0 | 1 => 33 | 2 => 67 | _ => 100 end /\
  0 <= stepsCompleted p <= 3 /\
  (calculateOverallProgress p = 100 <->
   step1Completed p = true /\ step2Completed p = true /\
   step3Completed p = true).
Proof.
  split; [apply calculateOverallProgress_table|].
  unfold calculateOverallProgress, stepsCompleted.
  destruct (step1Completed p), (step2Completed p), (step3Completed p);
    cbn; (split; [lia|]); split; try done; by intros (? & ? & ?).
Qed.

(** X22. No sequence of progress operations undoes a step: a step that is
    completed stays completed, so the number of completed steps and the
    overall progress never go down; and from a record whose current step is
    not ahead of its completed steps, the current step never goes down
    either and never gets ahead of them. *)
Theorem steps_never_undone valid ops p :
  let p' := runProgress valid ops p in
  (step1Completed p = true -> step1Completed p' = true) /\
  (step2Completed p = true -> step2Completed p' = true) /\
  (step3Completed p = true -> step3Completed p' = true) /\
  stepsCompleted p <= stepsCompleted p' /\
  calculateOverallProgress p <= calculateOverallProgress p' /\
  (currentStep p <= stepReached p ->
   currentStep p <= currentStep p' <= stepReached p').
Proof.
  intros p'. subst p'.
  assert (Hflags : forall ops p,
    (step1Completed p = true -> step1Completed (runProgress valid ops p) = true) /\
    (step2Completed p = true -> step2Completed (runProgress valid ops p) = true) /\
    (step3Completed p = true -> step3Completed (runProgress valid ops p) = true)).
  { clear. intros ops. induction ops as [|op ops IH]; intros p; [done|].
    rewrite runProgress_cons.
    destruct (performProgress_completed valid op p) as (H1 & H2 & H3).
    destruct (IH (state_after (performProgress valid op p))) as (K1 & K2 & K3).
    split_and!; auto. }
  destruct (Hflags ops p) as (H1 & H2 & H3).
  destruct (stepReached_mono p (runProgress valid ops p) H1 H2 H3) as [_ Hcount].
  split_and!; try done.
  - rewrite !calculateOverallProgress_table.
    pose proof (stepsCompleted_range p).
    pose proof (stepsCompleted_range (runProgress valid ops p)).
    destruct (stepsCompleted p) as [|[[]|[]|]|]; try lia;
      destruct (stepsCompleted (runProgress valid ops p)) as [|[[]|[]|]|];
      lia.
  - clear H1 H2 H3 Hcount. revert p.
    induction ops as [|op ops IH]; intros p Hinv; [cbn; lia|].
    rewrite runProgress_cons.
    set (q := state_after (performProgress valid op p)).
    destruct (performProgress_completed valid op p) as (H1 & H2 & H3).
    fold q in H1, H2, H3.
    destruct (stepReached_mono p q H1 H2 H3) as [Hreach _].
    assert (Hq : currentStep p <= currentStep q <= stepReached q).
    { destruct (performProgress_currentStep valid op p) as [Hc|Hc];
        fold q in Hc; rewrite Hc; lia. }
    specialize (IH q ltac:(lia)). lia.
Qed.

(** ** Best and weakest competency *)

Lemma reduce1_argmax {A} (g : A -> Z) (first : A) (rest : list A) :
  let r := reduce1 (fun best current =>
                      if bool_decide (g best < g current) then current else best)
                   first rest in
  exists i,
    (first :: rest) !! i = Some r /\
    (forall y, y ∈ first :: rest -> g y <= g r) /\
    (forall j y, (j < i)%nat -> (first :: rest) !! j = Some y -> g y < g r).
Proof.
  unfold reduce1. induction rest as [|x rest IH] using rev_ind.
  - exists 0%nat. cbn. split_and!; [done| |lia].
    intros y ->%list_elem_of_singleton. lia.
  - rewrite foldl_app. cbn [foldl].
    destruct IH as (i & Hi & Hmax & Hfirst).
    set (r := foldl _ first rest) in *.
    case_bool_decide as Hlt.
    + exists (length (first :: rest)). split_and!.
      * change (first :: rest ++ [x]) with ((first :: rest) ++ [x]).
        rewrite lookup_app_r by lia. by rewrite Nat.sub_diag.
      * intros y. change (first :: rest ++ [x]) with ((first :: rest) ++ [x]).
        rewrite elem_of_app, list_elem_of_singleton.
        intros [Hy| ->]; [|lia]. specialize (Hmax y Hy). lia.
      * intros j y Hj.
        change (first :: rest ++ [x]) with ((first :: rest) ++ [x]).
        rewrite lookup_app_l by lia. intros Hy%list_elem_of_lookup_2.
        specialize (Hmax y Hy). lia.
    + exists i. apply lookup_lt_Some in Hi as Hlen. split_and!.
      * change (first :: rest ++ [x]) with ((first :: rest) ++ [x]).
        by rewrite lookup_app_l by lia.
      * intros y. change (first :: rest ++ [x]) with ((first :: rest) ++ [x]).
        rewrite elem_of_app, list_elem_of_singleton.
        intros [Hy| ->]; [by apply Hmax|lia].
      * intros j y Hj.
        change (first :: rest ++ [x]) with ((first :: rest) ++ [x]).
        rewrite lookup_app_l by lia. by apply Hfirst.
Qed.

Lemma reduce1_weakest (first : CompetencyScore.t) rest :
  reduce1 (fun weakest current =>
             if bool_decide (CompetencyScore.score current <
                             CompetencyScore.score weakest)
             then current else weakest) first rest =
  reduce1 (fun best current =>
             if bool_decide (- CompetencyScore.score best <
                             - CompetencyScore.score current)
             then current else best) first rest.
Proof.
  unfold reduce1. revert first. induction rest as [|x rest IH];
    intros acc; [done|]. cbn [foldl]. rewrite IH. f_equal.
  destruct (bool_decide_reflect (CompetencyScore.score x <
                                 CompetencyScore.score acc));
    [rewrite bool_decide_true by lia|rewrite bool_decide_false by lia]; done.
Qed.

(** X23. [bestCompetency] and [weakestCompetency] are null exactly for a
    record without competency scores. Otherwise the best is the first entry
    of the list among those with the highest score and the weakest the first
    among those with the lowest, so the weakest score is at most the best. *)
Theorem best_and_weakest_competency p :
  (bestCompetency p = None <-> competencyScores p = []) /\
  (weakestCompetency p = None <-> competencyScores p = []) /\
  (forall best,
     bestCompetency p = Some best ->
     exists i,
       competencyScores p !! i = Some best /\
       (forall cs, cs ∈ competencyScores p ->
                   CompetencyScore.score cs <= CompetencyScore.score best) /\
       (forall j cs, (j < i)%nat -> competencyScores p !! j = Some cs ->
                     CompetencyScore.score cs < CompetencyScore.score best)) /\
  (forall weakest,
     weakestCompetency p = Some weakest ->
     exists i,
       competencyScores p !! i = Some weakest /\
       (forall cs, cs ∈ competencyScores p ->
                   CompetencyScore.score weakest <= CompetencyScore.score cs) /\
       (forall j cs, (j < i)%nat -> competencyScores p !! j = Some cs ->
                     CompetencyScore.score weakest < CompetencyScore.score cs)) /\
  (forall best weakest,
     bestCompetency p = Some best -> weakestCompetency p = Some weakest ->
     CompetencyScore.score weakest <= CompetencyScore.score best).
Proof.
  assert (Hbest : forall best,
     bestCompetency p = Some best ->
     exists i,
       competencyScores p !! i = Some best /\
       (forall cs, cs ∈ competencyScores p ->
                   CompetencyScore.score cs <= CompetencyScore.score best) /\
       (forall j cs, (j < i)%nat -> competencyScores p !! j = Some cs ->
                     CompetencyScore.score cs < CompetencyScore.score best)).
  { unfold bestCompetency. destruct (competencyScores p) as [|first rest]; [done|].
    intros best [= <-]. apply (reduce1_argmax CompetencyScore.score). }
  assert (Hweak : forall weakest,
     weakestCompetency p = Some weakest ->
     exists i,
       competencyScores p !! i = Some weakest /\
       (forall cs, cs ∈ competencyScores p ->
                   CompetencyScore.score weakest <= CompetencyScore.score cs) /\
       (forall j cs, (j < i)%nat -> competencyScores p !! j = Some cs ->
                     CompetencyScore.score weakest < CompetencyScore.score cs)).
  { unfold weakestCompetency.
    destruct (competencyScores p) as [|first rest]; [done|].
    intros weakest [= <-].
    destruct (reduce1_argmax (fun cs => - CompetencyScore.score cs) first rest)
      as (i & Hi & Hmax & Hfirst).
    rewrite reduce1_weakest. exists i. split_and!; [done| |].
    - intros cs Hcs. specialize (Hmax cs Hcs). cbn in Hmax. lia.
    - intros j cs Hj Hcs. specialize (Hfirst j cs Hj Hcs). cbn in Hfirst. lia. }
  split_and!; [| |exact Hbest|exact Hweak|].
  - unfold bestCompetency. by destruct (competencyScores p).
  - unfold weakestCompetency. by destruct (competencyScores p).
  - intros best weakest (i & Hi & _)%Hbest (_ & _ & Hmin & _)%Hweak.
    apply Hmin. by eapply list_elem_of_lookup_2.
Qed.

(** ** Recommendations *)

Lemma getRecommendations_parts p :
  getRecommendations p =
    (if bool_decide
          (0 < length (filter (fun cs => (CompetencyScore.score cs < 50)%Z)
                         (competencyScores p)))%nat
     then ["Focus on improving: " +:+
           join ", " (CompetencyScore.competency <$>
                        filter (fun cs => CompetencyScore.score cs < 50)
                          (competencyScores p))]
     else []) ++
    (match getNextAvailableStep p with
     | Some n => if bool_decide (n = 0) then []
                 else ["You're ready to take Step " +:+ pretty n +:+ "!"]
     | None => []
     end) ++
    (if step3Completed p
     then ["Congratulations! You have completed all assessment steps."]
     else []) ++
    (if bool_decide (averageScore p < 75)
     then ["Consider practicing more to improve your overall score."]
     else []).
Proof.
  unfold getRecommendations.
  destruct (bool_decide (0 < length _)%nat);
    destruct (getNextAvailableStep p) as [n|];
    try destruct (bool_decide (n = 0));
    destruct (step3Completed p);
    destruct (bool_decide (averageScore p < 75)); reflexivity.
Qed.

Lemma getNextAvailableStep_nonzero p n :
  getNextAvailableStep p = Some n -> n <> 0.
Proof.
  unfold getNextAvailableStep. repeat case_match; intros [= <-]; lia.
Qed.

(** X24. [getRecommendations] returns at most four messages. It returns
    none exactly when no competency score is below 50, no step is available,
    step 3 is not completed and the average score is at least 75. Whenever a
    step is available the list has the message that names it, so a record
    with the retake flag set is always told it is ready for step 1; and the
    congratulation is in the list exactly when step 3 is completed. *)
Theorem getRecommendations_spec p :
  (length (getRecommendations p) <= 4)%nat /\
  (getRecommendations p = [] <->
   Forall (fun cs => 50 <= CompetencyScore.score cs) (competencyScores p) /\
   getNextAvailableStep p = None /\
   step3Completed p = false /\
   75 <= averageScore p) /\
  (forall n,
     getNextAvailableStep p = Some n ->
     "You're ready to take Step " +:+ pretty n +:+ "!" ∈ getRecommendations p) /\
  (canRetakeStep1 p = true ->
   "You're ready to take Step 1!" ∈ getRecommendations p) /\
  ("Congratulations! You have completed all assessment steps."
     ∈ getRecommendations p <-> step3Completed p = true).
Proof.
  rewrite getRecommendations_parts.
  assert (Hweak :
    (0 < length (filter (fun cs => (CompetencyScore.score cs < 50)%Z)
                   (competencyScores p)))%nat <->
    ~ Forall (fun cs => 50 <= CompetencyScore.score cs) (competencyScores p)).
  { induction (competencyScores p) as [|cs l IH].
    - cbn. split; [lia|]. intros H. by destruct H.
    - rewrite filter_cons, Forall_cons. case_decide; cbn [length].
      + split; [|lia]. intros _ [? _]. lia.
      + rewrite IH. split; [tauto|]. intros H1 H2. apply H1. split; [lia|done]. }
  assert (Hstep : forall n,
    getNextAvailableStep p = Some n ->
    "You're ready to take Step " +:+ pretty n +:+ "!" ∈
      match getNextAvailableStep p with
      | Some n => if bool_decide (n = 0) then []
                  else ["You're ready to take Step " +:+ pretty n +:+ "!"]
      | None => []
      end).
  { intros n Hn. rewrite Hn.
    rewrite bool_decide_false by by eapply getNextAvailableStep_nonzero.
    by left. }
  split_and!.
  - rewrite !length_app.
    destruct (bool_decide (0 < length _)%nat);
      destruct (getNextAvailableStep p) as [n|];
      try destruct (bool_decide (n = 0));
      destruct (step3Completed p);
      destruct (bool_decide (averageScore p < 75)); cbn; lia.
  - split.
    + intros Hnil.
      apply app_eq_nil in Hnil as [H1 Hnil].
      apply app_eq_nil in Hnil as [H2 Hnil].
      apply app_eq_nil in Hnil as [H3 H4].
      split_and!.
      * destruct (decide (Forall (fun cs => 50 <= CompetencyScore.score cs)
                            (competencyScores p))) as [|Hn]; [done|].
        apply Hweak in Hn. by rewrite bool_decide_true in H1.
      * destruct (getNextAvailableStep p) as [n|] eqn:Hn; [|done].
        by rewrite bool_decide_false in H2
          by by eapply getNextAvailableStep_nonzero.
      * by destruct (step3Completed p).
      * case_bool_decide; [done|lia].
    + intros (Hall & -> & -> & Havg).
      rewrite bool_decide_false; [|by intros ?%Hweak].
      rewrite bool_decide_false by lia. done.
  - intros n Hn. rewrite !elem_of_app. right. left. by apply Hstep.
  - intros Hflag. rewrite !elem_of_app. right. left.
    assert (getNextAvailableStep p = Some 1) as Hn.
    { unfold getNextAvailableStep, canTakeStep. by rewrite Hflag. }
    apply (Hstep 1 Hn).
  - rewrite !elem_of_app. split.
    + intros [H|[H|[H|H]]].
      * case_bool_decide; [|by apply elem_of_nil in H].
        apply list_elem_of_singleton in H. by destruct (join _ _).
      * destruct (getNextAvailableStep p) as [n|]; [|by apply elem_of_nil in H].
        case_bool_decide; [by apply elem_of_nil in H|].
        apply list_elem_of_singleton in H. discriminate H.
      * by destruct (step3Completed p); [|apply elem_of_nil in H].
      * case_bool_decide; [|by apply elem_of_nil in H].
        apply list_elem_of_singleton in H. discriminate H.
    + intros ->. right. right. left. by left.
Qed.

(** ** One-time passwords *)

Lemma verifyOTP_run candidateOTP now u :
  verifyOTP candidateOTP now u =
    match User.otp u with
    | None => (inr false, u)
    | Some otp =>
        if OTPData.isUsed otp || bool_decide (OTPData.expiresAt otp < now)
        then (inr false, u)
        else if bool_decide (5 < OTPData.attempts otp + 1) then
          (inr false,
           User.set_otp
             (Some {| OTPData.code := OTPData.code otp;
                      OTPData.expiresAt := OTPData.expiresAt otp;
                      OTPData.attempts := OTPData.attempts otp + 1;
                      OTPData.isUsed := true |}) u)
        else if bool_decide (OTPData.code otp = candidateOTP) then
          (inr true,
           User.set_otp
             (Some {| OTPData.code := OTPData.code otp;
                      OTPData.expiresAt := OTPData.expiresAt otp;
                      OTPData.attempts := OTPData.attempts otp + 1;
                      OTPData.isUsed := true |}) u)
        else
          (inr false,
           User.set_otp
             (Some {| OTPData.code := OTPData.code otp;
                      OTPData.expiresAt := OTPData.expiresAt otp;
                      OTPData.attempts := OTPData.attempts otp + 1;
                      OTPData.isUsed := OTPData.isUsed otp |}) u)
    end.
Proof.
  unfold verifyOTP. run_method. destruct u. cbn.
  destruct otp as [o|]; [|done].
  destruct (OTPData.isUsed o || bool_decide (OTPData.expiresAt o < now));
    [done|]. cbn.
  by repeat case_bool_decide.
Qed.

Lemma verifyOTP_used candidateOTP now u otp :
  User.otp u = Some otp -> OTPData.isUsed otp = true ->
  verifyOTP candidateOTP now u = (inr false, u).
Proof. intros Ho Hu. by rewrite verifyOTP_run, Ho, Hu. Qed.

Lemma verifyOTP_cases candidateOTP now u :
  (fst (verifyOTP candidateOTP now u) = inr true <->
   exists otp,
     User.otp u = Some otp /\ OTPData.isUsed otp = false /\
     now <= OTPData.expiresAt otp /\ OTPData.attempts otp < 5 /\
     OTPData.code otp = candidateOTP) /\
  (fst (verifyOTP candidateOTP now u) = inr true ->
   forall candidate' now',
     verifyOTP candidate' now' (state_after (verifyOTP candidateOTP now u))
     = (inr false, state_after (verifyOTP candidateOTP now u))).
Proof.
  rewrite verifyOTP_run. destruct (User.otp u) as [otp|] eqn:Ho.
  2:{ split; [|done]. split; [done|]. by intros (? & ? & _). }
  destruct (OTPData.isUsed otp) eqn:Hu; cbn [orb].
  { split; [|done]. split; [done|]. intros (o & [= <-] & Hu' & _). congruence. }
  case_bool_decide as Hexp; cbn [fst].
  { split; [|done]. split; [done|]. intros (o & [= <-] & _ & ? & _). lia. }
  case_bool_decide as Hatt; cbn [fst].
  { split; [|done]. split; [done|]. intros (o & [= <-] & _ & _ & ? & _). lia. }
  case_bool_decide as Hcode; cbn [fst].
  - split.
    + split; [|done]. intros _. exists otp. split_and!; [done..|lia|lia|done].
    + intros _ candidate' now'. unfold state_after. cbn [snd].
      eapply verifyOTP_used; [by destruct u|done].
  - split; [|done]. split; [done|]. by intros (o & [= <-] & _ & _ & _ & ?).
Qed.

(** X25. [verifyOTP] accepts a candidate exactly when the user has a
    one-time password that is not used, has not expired, has had fewer than
    five attempts and has that code. Accepting it uses it up: every later
    [verifyOTP], with any candidate at any time, answers false and leaves
    the document as it is. *)
Theorem verifyOTP_accepts candidateOTP now u :
  (fst (verifyOTP candidateOTP now u) = inr true <->
   exists otp,
     User.otp u = Some otp /\ OTPData.isUsed otp = false /\
     now <= OTPData.expiresAt otp /\ OTPData.attempts otp < 5 /\
     OTPData.code otp = candidateOTP) /\
  (fst (verifyOTP candidateOTP now u) = inr true ->
   forall candidate' now',
     verifyOTP candidate' now' (state_after (verifyOTP candidateOTP now u))
     = (inr false, state_after (verifyOTP candidateOTP now u))).
Proof.
  destruct (verifyOTP_cases candidateOTP now u) as [Hiff Hused].
  split; [exact Hiff|exact Hused].
Qed.

Lemma verifyAll_used calls u otp :
  User.otp u = Some otp -> OTPData.isUsed otp = true ->
  verifyAll calls u = (replicate (length calls) false, u).
Proof.
  intros Ho Hu. induction calls as [|[candidate now] calls IH]; [done|].
  cbn [verifyAll]. rewrite (verifyOTP_used _ _ _ _ Ho Hu), IH. done.
Qed.

Lemma verifyAll_wrong calls u otp :
  User.otp u = Some otp -> OTPData.isUsed otp = false ->
  Forall (fun call => call.1 <> OTPData.code otp /\
                      call.2 <= OTPData.expiresAt otp) calls ->
  exists otp',
    User.otp (verifyAll calls u).2 = Some otp' /\
    OTPData.code otp' = OTPData.code otp /\
    OTPData.expiresAt otp' = OTPData.expiresAt otp /\
    (OTPData.isUsed otp' = true \/
     OTPData.attempts otp' = OTPData.attempts otp + Z.of_nat (length calls)).
Proof.
  intros Ho Hu Hall. revert u otp Ho Hu Hall.
  induction calls as [|[candidate now] calls IH]; intros u otp Ho Hu Hall.
  { exists otp. cbn. split_and!; [done..|]. right. lia. }
  apply Forall_cons in Hall as [[Hwrong Hnow] Hall]. cbn in Hwrong, Hnow.
  cbn [verifyAll]. rewrite verifyOTP_run, Ho, Hu. cbn [orb].
  rewrite bool_decide_false by lia.
  rewrite (bool_decide_false (OTPData.code otp = candidate)) by done.
  case_bool_decide as Hatt.
  - match goal with |- context [verifyAll calls ?v] =>
      rewrite (verifyAll_used calls v
                 {| OTPData.code := OTPData.code otp;
                    OTPData.expiresAt := OTPData.expiresAt otp;
                    OTPData.attempts := OTPData.attempts otp + 1;
                    OTPData.isUsed := true |}) by by destruct u end.
    cbn [snd]. eexists. split; [by destruct u|]. cbn. split_and!; [done..|by left].
  - match goal with |- context [verifyAll calls ?v] =>
      destruct (IH v {| OTPData.code := OTPData.code otp;
                        OTPData.expiresAt := OTPData.expiresAt otp;
                        OTPData.attempts := OTPData.attempts otp + 1;
                        OTPData.isUsed := false |})
        as (otp' & Ho' & Hc' & He' & Hcount);
        [by destruct u|done|done|];
      destruct (verifyAll calls v) as [rs u''] end.
    cbn [snd] in *. exists otp'. split_and!; [done..|].
    destruct Hcount as [?|Hcount]; [by left|right].
    rewrite Hcount. cbn [OTPData.attempts length]. lia.
Qed.

(** X26. A one-time password can be tried five times and used once. In
    any sequence of [verifyOTP] calls at most one is accepted; and after
    five or more calls with a wrong candidate, made before the expiry time
    on a password that had no attempt yet, the right code is refused, at any
    time. *)
Theorem verifyOTP_limits :
  (forall calls u,
     (length (filter (fun r => r = true) (verifyAll calls u).1) <= 1)%nat) /\
  (forall calls u otp now,
     User.otp u = Some otp -> OTPData.isUsed otp = false ->
     OTPData.attempts otp = 0 ->
     Forall (fun call => call.1 <> OTPData.code otp /\
                         call.2 <= OTPData.expiresAt otp) calls ->
     (5 <= length calls)%nat ->
     fst (verifyOTP (OTPData.code otp) now (verifyAll calls u).2) = inr false).
Proof.
  split.
  - intros calls. induction calls as [|[candidate now] calls IH]; intros u.
    { cbn. lia. }
    cbn [verifyAll].
    destruct (verifyOTP candidate now u) as [r u'] eqn:Hrun.
    specialize (IH u').
    destruct (verifyAll calls u') as [rs u''] eqn:Hrest. cbn [fst] in *.
    destruct r as [e|[|]]; rewrite filter_cons; cbn;
      try (rewrite decide_False by done; exact IH).
    rewrite decide_True by done.
    pose proof (proj1 (proj1 (verifyOTP_cases candidate now u))) as Hacc.
    rewrite Hrun in Hacc. destruct (Hacc eq_refl) as (otp & Ho & Hu & Hexp & Hatt & Hcode).
    assert (Hused : exists otp', User.otp u' = Some otp' /\ OTPData.isUsed otp' = true).
    { rewrite verifyOTP_run, Ho, Hu in Hrun. cbn [orb] in Hrun.
      rewrite bool_decide_false in Hrun by lia.
      rewrite bool_decide_false in Hrun by lia.
      rewrite bool_decide_true in Hrun by done.
      injection Hrun as <-. eexists. split; [by destruct u|done]. }
    destruct Hused as (otp' & Ho' & Hu').
    rewrite (verifyAll_used calls u' otp' Ho' Hu') in Hrest.
    injection Hrest as <- _. cbn [length].
    assert (filter (fun r => r = true) (replicate (length calls) false) = []) as ->.
    { generalize (length calls). intros n. induction n as [|n IHn]; [done|].
      cbn [replicate]. rewrite filter_cons_False by done. exact IHn. }
    cbn. lia.
  - intros calls u otp now Ho Hu Hatt Hall Hlen.
    destruct (verifyAll_wrong calls u otp Ho Hu Hall)
      as (otp' & Ho' & Hc' & He' & Hcount).
    rewrite verifyOTP_run, Ho'.
    destruct Hcount as [Hused|Hcount].
    + by rewrite Hused.
    + destruct (OTPData.isUsed otp' || bool_decide (OTPData.expiresAt otp' < now));
        [done|].
      by rewrite bool_decide_true by lia.
Qed.

Lemma generateOTP_run expireMinutes random now u :
  generateOTP expireMinutes random now u =
    (inr (pretty (Qfloor (100000 + random * 900000)%Q)),
     User.set_otp
       (Some {| OTPData.code := pretty (Qfloor (100000 + random * 900000)%Q);
                OTPData.expiresAt := now + expireMinutes * 60 * 1000;
                OTPData.attempts := 0;
                OTPData.isUsed := false |}) u).
Proof. unfold generateOTP. run_method. by destruct u. Qed.

(** X27. The code that [generateOTP] returns is the decimal notation of a
    number from 100000 to 999999 (for a random value from 0 up to, not
    including, 1), and [verifyOTP] accepts it on the first try at any time up
    to and including the expiry time, [expireMinutes] minutes later; after
    that time it refuses it, and after [clearOTP] it refuses every
    candidate. *)
Theorem generateOTP_verifyOTP expireMinutes random now u :
  (0 <= random)%Q -> (random < 1)%Q ->
  let u' := state_after (generateOTP expireMinutes random now u) in
  exists n,
    100000 <= n <= 999999 /\
    fst (generateOTP expireMinutes random now u) = inr (pretty n) /\
    (forall now', now' <= now + expireMinutes * 60 * 1000 ->
                  fst (verifyOTP (pretty n) now' u') = inr true) /\
    (forall now', now + expireMinutes * 60 * 1000 < now' ->
                  verifyOTP (pretty n) now' u' = (inr false, u')) /\
    (forall candidate now',
       fst (verifyOTP candidate now' (state_after (clearOTP u'))) = inr false).
Proof.
  intros H0 H1 u'. subst u'. rewrite generateOTP_run.
  unfold state_after. cbn [fst snd].
  set (n := Qfloor (100000 + random * 900000)%Q).
  exists n. split_and!.
  - assert (Hlo : (inject_Z 100000 <= 100000 + random * 900000)%Q).
    { unfold Qle, inject_Z in *. cbn in *. nia. }
    apply Qfloor_resp_le in Hlo. rewrite Qfloor_Z in Hlo. exact Hlo.
  - assert (Hhi : (100000 + random * 900000 < inject_Z 1000000)%Q).
    { unfold Qlt, inject_Z in *. cbn in *. nia. }
    pose proof (Qfloor_le (100000 + random * 900000)%Q) as Hfl.
    assert (Hlt : (inject_Z n < inject_Z 1000000)%Q)
      by (eapply Qle_lt_trans; [exact Hfl|exact Hhi]).
    rewrite <- Zlt_Qlt in Hlt. lia.
  - done.
  - intros now' Hnow. rewrite verifyOTP_run. destruct u. cbn.
    case_bool_decide as Hexp; [lia|].
    case_bool_decide as Hatt; [lia|].
    by case_bool_decide.
  - intros now' Hnow. rewrite verifyOTP_run. destruct u. cbn.
    case_bool_decide as Hexp; [done|lia].
  - intros candidate now'. rewrite verifyOTP_run. unfold clearOTP, assign.
    by destruct u.
Qed.

(** ** The question model *)

Lemma Question_isCorrectAnswer_iff selectedAnswers q :
  QuestionModel.isCorrectAnswer selectedAnswers q = true <->
  selectedAnswers <> [] /\ selectedAnswers ≡ₚ QuestionModel.correctAnswers q.
Proof.
  unfold QuestionModel.isCorrectAnswer. case_bool_decide as Hlen.
  - apply length_zero_iff_nil in Hlen. split; [done|]. by intros [? _].
  - rewrite same_arrays, sort_eq_Permutation. split.
    + intros Hp. split; [by intros ->|done].
    + by intros [_ Hp].
Qed.

(** X28. [isCorrectAnswer] of a question accepts a selection exactly when
    it is not empty and has the ids of [correctAnswers] up to order,
    repetitions counted; [calculateScore] gives the points of the question
    for such a selection and 0 for every other. The check that a session makes on its snapshot
    of a multiple-choice question agrees with it whenever the options
    marked correct in the snapshot are the correct answers of the question
    and there is at least one; with no correct answer the session accepts
    the empty selection, which the question never does. *)
Theorem Question_isCorrectAnswer_spec selectedAnswers q :
  (QuestionModel.isCorrectAnswer selectedAnswers q = true <->
   selectedAnswers <> [] /\
   selectedAnswers ≡ₚ QuestionModel.correctAnswers q) /\
  QuestionModel.isCorrectAnswer [] q = false /\
  (selectedAnswers <> [] /\
   selectedAnswers ≡ₚ QuestionModel.correctAnswers q ->
   QuestionModel.calculateScore selectedAnswers q = QuestionModel.points q) /\
  (~ (selectedAnswers <> [] /\
      selectedAnswers ≡ₚ QuestionModel.correctAnswers q) ->
   QuestionModel.calculateScore selectedAnswers q = 0) /\
  (QuestionModel.calculateScore selectedAnswers q <> 0 ->
   QuestionModel.calculateScore selectedAnswers q = QuestionModel.points q /\
   selectedAnswers ≡ₚ QuestionModel.correctAnswers q) /\
  (forall snapshot,
     AssessmentQuestion.questionType snapshot = MULTIPLE_CHOICE ->
     is_Some (AssessmentQuestion.options snapshot) ->
     correctOptionIds snapshot ≡ₚ QuestionModel.correctAnswers q ->
     (QuestionModel.correctAnswers q <> [] ->
      checkAnswerCorrectness snapshot selectedAnswers =
        QuestionModel.isCorrectAnswer selectedAnswers q) /\
     (QuestionModel.correctAnswers q = [] ->
      checkAnswerCorrectness snapshot [] = true)).
Proof.
  split_and!.
  - apply Question_isCorrectAnswer_iff.
  - done.
  - intros Hsel%Question_isCorrectAnswer_iff.
    unfold QuestionModel.calculateScore. by rewrite Hsel.
  - intros Hsel. unfold QuestionModel.calculateScore.
    destruct (QuestionModel.isCorrectAnswer selectedAnswers q) eqn:Hc; [|done].
    by apply Question_isCorrectAnswer_iff in Hc.
  - unfold QuestionModel.calculateScore.
    destruct (QuestionModel.isCorrectAnswer selectedAnswers q) eqn:Hc; [|done].
    intros _. split; [done|]. by apply Question_isCorrectAnswer_iff in Hc as [_ ?].
  - intros snapshot Hmc [options Ho] Hsame. split.
    + intros Hne.
      pose proof (checkAnswerCorrectness_multiple_choice snapshot options
                    selectedAnswers Hmc Ho) as Hs.
      pose proof (Question_isCorrectAnswer_iff selectedAnswers q) as Hq.
      destruct (checkAnswerCorrectness snapshot selectedAnswers) eqn:E1,
               (QuestionModel.isCorrectAnswer selectedAnswers q) eqn:E2;
        try done.
      * assert (Hp : selectedAnswers ≡ₚ correctOptionIds snapshot) by by apply Hs.
        assert (selectedAnswers <> [] /\
                selectedAnswers ≡ₚ QuestionModel.correctAnswers q) as Habs;
          [|by apply Hq in Habs].
        split; [|by rewrite Hp].
        intros ->. apply Hne.
        assert (Hnil : [] ≡ₚ QuestionModel.correctAnswers q)
          by by rewrite <- Hsame, <- Hp.
        by apply Permutation_nil in Hnil.
      * destruct (proj1 Hq eq_refl) as [_ Hp].
        assert (selectedAnswers ≡ₚ correctOptionIds snapshot) as Habs
          by by rewrite Hsame.
        by apply Hs in Habs.
    + intros Hnil. rewrite Hnil in Hsame.
      apply (checkAnswerCorrectness_multiple_choice snapshot options [] Hmc Ho).
      by symmetry.
Qed.

(** ** Saving a question *)

Lemma checkStepLevel_run q :
  state_after (QuestionModel.checkStepLevel q) = q /\
  (succeeded (QuestionModel.checkStepLevel q) = true ->
   exists levels,
     QuestionModel.stepLevels (QuestionModel.step q) = Some levels /\
     QuestionModel.level q ∈ levels).
Proof.
  unfold QuestionModel.checkStepLevel. run_method.
  destruct (QuestionModel.stepLevels _) as [levels|]; [|done].
  case_bool_decide; cbn; [|done]. split; [done|]. intros _. by exists levels.
Qed.

Lemma generateOptionIds_run q :
  exists opts,
    QuestionModel.generateOptionIds q =
      (inr tt, QuestionModel.set_options opts q) /\
    (QuestionModel.questionType q <> MULTIPLE_CHOICE ->
     opts = QuestionModel.options q) /\
    (opts = None <-> QuestionModel.options q = None) /\
    (QuestionModel.questionType q = MULTIPLE_CHOICE ->
     forall l, opts = Some l ->
               Forall (fun o => QuestionOption.id o <> EmptyString) l).
Proof.
  unfold QuestionModel.generateOptionIds. run_method.
  destruct q as [qt ty co lv st op ca di ta po ex tg ac im au vi tm cr]. cbn.
  destruct ty, op as [l|];
    try (eexists; split; [reflexivity|]; split_and!; try done).
  - cbn. intros _ l' [= <-]. apply Forall_lookup. intros i o.
    rewrite list_lookup_imap. destruct (l !! i) as [o'|]; [|done]. cbn.
    intros [= <-]. case_bool_decide; [|done]. cbn. done.
Qed.

Lemma checkMultipleChoice_run q :
  state_after (QuestionModel.checkMultipleChoice q) = q /\
  (succeeded (QuestionModel.checkMultipleChoice q) = true ->
   QuestionModel.questionType q = MULTIPLE_CHOICE ->
   exists opts,
     QuestionModel.options q = Some opts /\ opts <> [] /\
     Forall (fun a => a ∈ QuestionOption.id <$> opts)
            (QuestionModel.correctAnswers q)).
Proof.
  unfold QuestionModel.checkMultipleChoice. run_method.
  destruct (QuestionModel.questionType q); try done.
  destruct (QuestionModel.options q) as [[|o l]|]; try done.
  case_bool_decide as Hinv; cbn; [done|]. split; [done|]. intros _ _.
  eexists. split_and!; [done..|].
  apply Forall_forall. intros a Ha.
  destruct (decide (a ∈ QuestionOption.id <$> o :: l)) as [|Hni]; [done|].
  exfalso. apply Hinv.
  assert (a ∈ filter (fun answer => answer ∉ QuestionOption.id <$> o :: l)
                (QuestionModel.correctAnswers q)) as Hin
    by by apply list_elem_of_filter.
  destruct (filter _ _); [by apply elem_of_nil in Hin|]. cbn. lia.
Qed.

Lemma checkTrueFalse_run q :
  state_after (QuestionModel.checkTrueFalse q) = q /\
  (succeeded (QuestionModel.checkTrueFalse q) = true ->
   QuestionModel.questionType q = TRUE_FALSE ->
   Forall (fun a => QuestionModel.toLowerCase a = "true" \/
                    QuestionModel.toLowerCase a = "false")
          (QuestionModel.correctAnswers q)).
Proof.
  unfold QuestionModel.checkTrueFalse. run_method.
  destruct (QuestionModel.questionType q); try done.
  case_bool_decide as Hinv; cbn; [done|]. split; [done|]. intros _ _.
  apply Forall_forall. intros a Ha.
  destruct (decide (QuestionModel.toLowerCase a ∈ ["true"; "false"]))
    as [Hin|Hni].
  - apply elem_of_cons in Hin as [?|Hin]; [by left|].
    apply list_elem_of_singleton in Hin. by right.
  - exfalso. apply Hinv.
    assert (a ∈ filter (fun answer =>
                          QuestionModel.toLowerCase answer ∉ ["true"; "false"])
                  (QuestionModel.correctAnswers q)) as Hin
      by by apply list_elem_of_filter.
    destruct (filter _ _); [by apply elem_of_nil in Hin|]. cbn. lia.
Qed.

Lemma set_options_same q :
  QuestionModel.set_options (QuestionModel.options q) q = q.
Proof. by destruct q. Qed.

Lemma questionPreSave_frame q :
  exists opts,
    state_after (QuestionModel.questionPreSave q) =
      QuestionModel.set_options opts q /\
    (QuestionModel.questionType q <> MULTIPLE_CHOICE ->
     opts = QuestionModel.options q).
Proof.
  unfold QuestionModel.questionPreSave. unfold mbind at 1 2 3, M_bind.
  destruct (checkStepLevel_run q) as [Hs1 _]. unfold state_after in Hs1.
  destruct (QuestionModel.checkStepLevel q) as [[e|[]] q1]; cbn in Hs1; subst q1.
  { exists (QuestionModel.options q). by rewrite set_options_same. }
  destruct (generateOptionIds_run q) as (opts & -> & Hsame & _).
  exists opts.
  destruct (checkMultipleChoice_run (QuestionModel.set_options opts q)) as [Hs3 _].
  unfold state_after in Hs3.
  destruct (QuestionModel.checkMultipleChoice _) as [[e|[]] q3]; cbn in Hs3;
    subst q3; [done|].
  destruct (checkTrueFalse_run (QuestionModel.set_options opts q)) as [Hs4 _].
  by rewrite Hs4.
Qed.

(** X29. A question that is saved has passed the hook: its level is one of
    the two levels of its step; if it is multiple-choice it has at least one
    option, no option is without id (an id that was missing is generated),
    and every correct answer is the id of an option; if it is true/false,
    every correct answer is true or false up to the case of the letters. The
    save assigns no field but [options], and nothing for a question that is
    not multiple-choice. *)
Theorem questionSave_validated (valid : QuestionModel.t -> bool) q :
  succeeded (QuestionModel.questionSave valid q) = true ->
  let q' := state_after (QuestionModel.questionSave valid q) in
  (exists levels,
     QuestionModel.stepLevels (QuestionModel.step q') = Some levels /\
     QuestionModel.level q' ∈ levels) /\
  (QuestionModel.questionType q' = MULTIPLE_CHOICE ->
   exists opts,
     QuestionModel.options q' = Some opts /\ opts <> [] /\
     Forall (fun o => QuestionOption.id o <> EmptyString) opts /\
     Forall (fun a => a ∈ QuestionOption.id <$> opts)
            (QuestionModel.correctAnswers q')) /\
  (QuestionModel.questionType q' = TRUE_FALSE ->
   Forall (fun a => QuestionModel.toLowerCase a = "true" \/
                    QuestionModel.toLowerCase a = "false")
          (QuestionModel.correctAnswers q')) /\
  (exists opts, q' = QuestionModel.set_options opts q) /\
  (QuestionModel.questionType q <> MULTIPLE_CHOICE -> q' = q).
Proof.
  unfold QuestionModel.questionSave. run_method.
  destruct (valid q); [|done].
  remember (QuestionModel.questionPreSave q) as r eqn:Hr.
  unfold QuestionModel.questionPreSave, mbind, M_bind in Hr.
  destruct (checkStepLevel_run q) as [Hs1 Hok1].
  unfold state_after, succeeded in Hs1, Hok1.
  destruct (QuestionModel.checkStepLevel q) as [[e|[]] q1]; cbn in Hs1, Hok1;
    subst q1; [by subst r|].
  destruct (generateOptionIds_run q) as (opts & Hgen & Hsame & Hnone & Hids).
  rewrite Hgen in Hr. clear Hgen.
  set (q2 := QuestionModel.set_options opts q) in *.
  destruct (checkMultipleChoice_run q2) as [Hs3 Hok3].
  unfold state_after, succeeded in Hs3, Hok3.
  destruct (QuestionModel.checkMultipleChoice q2) as [[e|[]] q3];
    cbn in Hs3, Hok3; subst q3; [by subst r|].
  destruct (checkTrueFalse_run q2) as [Hs4 Hok4].
  unfold state_after, succeeded in Hs4, Hok4.
  destruct (QuestionModel.checkTrueFalse q2) as [[e|[]] q4];
    cbn in Hs4, Hok4; subst q4; subst r; [done|].
  intros _. cbn.
  assert (Hty : QuestionModel.questionType q2 = QuestionModel.questionType q)
    by by destruct q.
  assert (Hopt : QuestionModel.options q2 = opts) by by destruct q.
  assert (Hst : QuestionModel.step q2 = QuestionModel.step q)
    by by destruct q.
  assert (Hlv : QuestionModel.level q2 = QuestionModel.level q)
    by by destruct q.
  split_and!.
  - rewrite Hst, Hlv. by apply Hok1.
  - intros Hmc. destruct (Hok3 eq_refl Hmc) as (l & Hl & Hne & Hall).
    exists l. split_and!; [done..| |done].
    apply Hids; [congruence|]. congruence.
  - intros Htf. by apply Hok4.
  - by exists opts.
  - intros Hne. subst q2. rewrite (Hsame Hne). apply set_options_same.
Qed.

(** ** Statistics of a question *)

(** The rate that [incrementStats] computes from a rate [r] and [n]
    answers, the last of them adding [c] correct answers. *)
Lemma rate_range (r n c : Z) :
  0 <= r <= 100 -> 2 <= n -> 0 <= c <= 1 ->
  0 <= percent
         (Math_round (Number_mul (Number_div (inject_Z r) 100)
                                 (inject_Z (n - 1))) + c) n
    <= 100.
Proof.
  intros Hr Hn Hc.
  set (M := inject_Z (n - 1)).
  assert (HM : (1 <= M)%Q).
  { subst M. change 1%Q with (inject_Z 1). rewrite <- Zle_Qle. lia. }
  set (d := Number_div (inject_Z r) 100).
  assert (Hd : (0 <= d)%Q /\ (d <= 1)%Q).
  { subst d. unfold Number_div. split.
    - apply toDouble_nonneg. apply Qle_shift_div_l; [lra|].
      change (0 * 100)%Q with (inject_Z 0). rewrite <- Zle_Qle. lia.
    - rewrite <- (toDouble_integer 1) by lia. apply toDouble_mono.
      apply Qle_shift_div_r; [lra|].
      change (inject_Z 1 * 100)%Q with (inject_Z 100). rewrite <- Zle_Qle. lia. }
  set (w := Number_mul d M).
  assert (Hw : (0 <= w)%Q /\ (w <= toDouble M)%Q).
  { subst w. unfold Number_mul. split.
    - apply toDouble_nonneg. apply Qmult_le_0_compat; lra.
    - apply toDouble_mono.
      apply Qle_trans with (1 * M)%Q; [|lra].
      apply Qmult_le_compat_r; lra. }
  set (prev := Math_round w).
  assert (Hprev : 0 <= prev).
  { subst prev. rewrite <- (Math_round_Z 0) at 1.
    apply Math_round_mono. exact (proj1 Hw). }
  split.
  - rewrite <- (percent_zero n). apply percent_mono; lia.
  - destruct (Z.le_gt_cases (n - 1) 9007199254740992) as [Hsmall|Hbig].
    + assert (prev <= n - 1).
      { subst prev. rewrite <- (Math_round_Z (n - 1)). apply Math_round_mono.
        rewrite <- (toDouble_integer (n - 1)) by lia. exact (proj2 Hw). }
      rewrite <- (percent_all n) by lia. apply percent_mono; lia.
    + destruct (toDouble_error M) as [_ HtM]; [lra|].
      assert (HMbig : (9007199254740992 <= M)%Q).
      { subst M. change 9007199254740992%Q with (inject_Z 9007199254740992).
        rewrite <- Zle_Qle. lia. }
      pose proof (Qfloor_le (w + (1 # 2))) as Hfl.
      fold (Math_round w) in Hfl. fold prev in Hfl.
      set (K := inject_Z (prev + c)). set (N := inject_Z n).
      assert (HN : (N == M + 1)%Q).
      { subst N M. change 1%Q with (inject_Z 1). rewrite <- inject_Z_plus.
        by replace (n - 1 + 1) with n by lia. }
      assert (HK : (0 <= K)%Q /\ (K <= N * (1 + 3 * roundoff))%Q).
      { subst K. split.
        - change 0%Q with (inject_Z 0). rewrite <- Zle_Qle. lia.
        - rewrite inject_Z_plus.
          assert (inject_Z c <= 1)%Q.
          { change 1%Q with (inject_Z 1). rewrite <- Zle_Qle. lia. }
          unfold roundoff in *. lra. }
      unfold percent, Number_mul, Number_div. fold K. fold N.
      set (y := (K / N)%Q).
      assert (Hy : (0 <= y)%Q /\ (y <= 1 + 3 * roundoff)%Q).
      { subst y. split.
        - apply Qle_shift_div_l; [lra|]. lra.
        - apply Qle_shift_div_r; [lra|]. lra. }
      destruct (toDouble_error y) as [_ Hty]; [lra|].
      pose proof (toDouble_nonneg y (proj1 Hy)) as Hty0.
      set (dy := toDouble y) in *.
      destruct (toDouble_error (dy * 100)) as [_ Htv]; [lra|].
      set (v := toDouble (dy * 100)) in *.
      change 100 with (Math_round (100 + (1 # 4))).
      apply Math_round_mono. unfold roundoff in *. lra.
Qed.

#[local] Arguments Math_round : simpl never.
#[local] Arguments Number_div : simpl never.
#[local] Arguments Number_mul : simpl never.
#[local] Strategy opaque [Math_round Number_div Number_mul].

Lemma questionSave_keeps (valid : QuestionModel.t -> bool) q :
  QuestionModel.timesAnswered (QuestionModel.questionSave valid q).2 =
    QuestionModel.timesAnswered q /\
  QuestionModel.correctAnswerRate (QuestionModel.questionSave valid q).2 =
    QuestionModel.correctAnswerRate q /\
  QuestionModel.difficulty (QuestionModel.questionSave valid q).2 =
    QuestionModel.difficulty q.
Proof.
  unfold QuestionModel.questionSave. run_method. destruct (valid q); [|done].
  cbn. destruct (questionPreSave_frame q) as (opts & Hf & _).
  unfold state_after in Hf. rewrite Hf. by destruct q.
Qed.

(** X30. The statistics of a question stay within the bounds of the
    schema. [incrementStats] counts one more answer and, for a question
    answered a non-negative number of times with a rate from 0 to 100,
    leaves a rate from 0 to 100, which is 100 or 0 after the first answer.
    [updateDifficulty] does nothing before the tenth answer; otherwise it
    keeps the difficulty for a rate from 40 to 80, and takes a difficulty
    from 1 to 5 to one from 1 to 5 that differs by at most one, not above
    for a rate above 80 and not below for a rate below 40. *)
Theorem question_statistics (valid : QuestionModel.t -> bool) q :
  (forall isCorrect,
     let q' := state_after (QuestionModel.incrementStats valid isCorrect q) in
     QuestionModel.timesAnswered q' = QuestionModel.timesAnswered q + 1 /\
     (0 <= QuestionModel.timesAnswered q ->
      0 <= QuestionModel.correctAnswerRate q <= 100 ->
      0 <= QuestionModel.correctAnswerRate q' <= 100) /\
     (QuestionModel.timesAnswered q = 0 ->
      QuestionModel.correctAnswerRate q' = if isCorrect then 100 else 0)) /\
  (let q' := state_after (QuestionModel.updateDifficulty valid q) in
   (QuestionModel.timesAnswered q < 10 ->
    QuestionModel.updateDifficulty valid q = (inr tt, q)) /\
   (1 <= QuestionModel.difficulty q <= 5 ->
    1 <= QuestionModel.difficulty q' <= 5 /\
    QuestionModel.difficulty q - 1 <= QuestionModel.difficulty q'
      <= QuestionModel.difficulty q + 1 /\
    (80 < QuestionModel.correctAnswerRate q ->
     QuestionModel.difficulty q' <= QuestionModel.difficulty q) /\
    (QuestionModel.correctAnswerRate q < 40 ->
     QuestionModel.difficulty q <= QuestionModel.difficulty q')) /\
   (40 <= QuestionModel.correctAnswerRate q <= 80 ->
    QuestionModel.difficulty q' = QuestionModel.difficulty q)).
Proof.
  split.
  - intros isCorrect q'. subst q'.
    unfold QuestionModel.incrementStats. run_method.
    destruct q as [qt ty co lv st op ca di ta po ex tg ac im au vi tm cr]. cbn.
    case_bool_decide as Hfirst; cbn.
    + match goal with |- context [QuestionModel.questionSave valid ?x] =>
        destruct (questionSave_keeps valid x) as (-> & -> & _) end.
      cbn. split_and!; [done| |done]. intros _ _. destruct isCorrect; lia.
    + match goal with |- context [QuestionModel.questionSave valid ?x] =>
        destruct (questionSave_keeps valid x) as (-> & -> & _) end.
      cbn. split_and!; [done| |lia]. intros Htm Hcr.
      pose proof (rate_range cr (tm + 1) (if isCorrect then 1 else 0)) as Hrate.
      unfold percent in Hrate.
      apply Hrate; [done|lia|destruct isCorrect; lia].
  - intros q'. subst q'.
    unfold QuestionModel.updateDifficulty. run_method.
    destruct q as [qt ty co lv st op ca di ta po ex tg ac im au vi tm cr]. cbn.
    case_bool_decide as Hten; cbn.
    2:{ split_and!; try done; lia. }
    case_bool_decide as Hhigh; cbn; [|case_bool_decide as Hlow; cbn];
      match goal with |- context [QuestionModel.questionSave valid ?x] =>
        destruct (questionSave_keeps valid x) as (_ & _ & ->) end;
      cbn; split_and!; lia.
Qed.

(** ** Instances of the further properties *)

(** X2, on the session of the scenario, completed at time 1000. *)
Lemma markCompleted_coherent_witness :
  passed (state_after (markCompleted acceptAll 1000 1000 1000 session30of44))
    = true <->
  is_Some (levelAchieved
             (state_after (markCompleted acceptAll 1000 1000 1000
                             session30of44))).
Proof.
  destruct (markCompleted_coherent acceptAll 1000 1000 1000 session30of44)
    as (H & _ & _).
  - by vm_compute.
  - apply H. by vm_compute.
Defined.

(** X3, on a save of the completed one-question session. *)
Lemma sessionSave_invariant_witness :
  status (state_after (sessionSave acceptAll 5000 oneQuestionCompleted))
    = COMPLETED /\
  is_Some (endTime (state_after (sessionSave acceptAll 5000
                                   oneQuestionCompleted))).
Proof.
  destruct (sessionSave_invariant acceptAll 5000 oneQuestionCompleted)
    as (H & _).
  - by vm_compute.
  - apply H. by vm_compute.
Defined.

(** X7, on the first answer to the one-question session. *)
Lemma submitAnswer_touches_answers_and_status_witness :
  status (state_after (submitAnswer "q1" ["a"] 5 7 oneQuestion))
    <> NOT_STARTED.
Proof.
  destruct (submitAnswer_touches_answers_and_status "q1" ["a"] 5 7 oneQuestion)
    as (_ & _ & H).
  - by vm_compute.
  - exact H.
Defined.

(** X8, on an answer, a flag and a save after the completion of the
    one-question session. *)
Lemma results_final_witness :
  resultFields
    (runSession acceptAll
       [SubmitAnswer "q1" ["a"] 5 2000;
        AddCheatingFlag "tab_switch" "left the page" high 2500;
        MarkCompleted 3000 3000 3000; SaveSession 4000]
       (state_after (markCompleted acceptAll 1000 1000 1000 oneQuestion)))
  = resultFields (state_after (markCompleted acceptAll 1000 1000 1000
                                 oneQuestion)).
Proof.
  apply (results_final acceptAll 1000 1000 1000). by vm_compute.
Defined.

(** X9, on a resubmission that turns a wrong answer into the right one. *)
Lemma submitAnswer_score_witness :
  score_of (calculateScore
              (state_after (submitAnswer "q1" ["a"] 9 20 oneQuestionAnswered)))
  = 1.
Proof.
  rewrite (submitAnswer_score "q1" ["a"] 9 20 oneQuestionAnswered
             (question "q1" MULTIPLE_CHOICE 1)).
  - by vm_compute.
  - by vm_compute.
Defined.

(** X10, on the session of the scenario. *)
Lemma calculateScore_correct_answers_witness :
  score_of (calculateScore session30of44) =
    Z.of_nat (correctAnswers_of (calculateScore session30of44)).
Proof.
  destruct (calculateScore_correct_answers acceptAll (answerFirst 30)
              (newSession 1 questions44)) as (_ & _ & _ & H).
  - reflexivity.
  - apply Forall_fmap, Forall_forall. intros i _. cbn. lia.
  - apply H. apply Forall_fmap, Forall_forall. intros i _. reflexivity.
Defined.

(** X12, on the one-question session completed 90 seconds after its
    start. *)
Lemma durationMinutes_completed_witness :
  nearest
    (durationMinutes 5000
       (state_after (markCompleted acceptAll 90000 90000 90000 oneQuestion)))
    (90000 - 0) 60000.
Proof.
  destruct (durationMinutes_completed acceptAll 90000 90000 90000 oneQuestion 0)
    as (_ & H).
  - reflexivity.
  - reflexivity.
  - apply H.
Defined.

(** X15, on the record with step scores 80 and 75, whose retake flag is
    still set. *)
Lemma getNextAvailableStep_while_retake_witness :
  getNextAvailableStep progress80and75 = Some 1.
Proof.
  destruct (getNextAvailableStep_while_retake acceptAll
              [UpdateStepProgress 1 80 A2 1000; UpdateStepProgress 2 75 B2 2000]
              newProgress) as (H & _).
  - reflexivity.
  - reflexivity.
  - exact H.
Defined.

(** X20, on the record with step scores 80 and 75. *)
Lemma averageScore_between_witness :
  75 <= averageScore (state_after (progressSave acceptAll progress80and75))
     <= 80.
Proof.
  apply (averageScore_between acceptAll progress80and75 75 80).
  - reflexivity.
  - by vm_compute.
  - vm_compute. repeat constructor; by vm_compute.
Defined.

(** X27, for the random value one half and an expiry of ten minutes. *)
Lemma generateOTP_verifyOTP_witness :
  exists n,
    100000 <= n <= 999999 /\
    fst (generateOTP 10 (1 # 2) 0 newUser) = inr (pretty n) /\
    fst (verifyOTP (pretty n) 600000
           (state_after (generateOTP 10 (1 # 2) 0 newUser))) = inr true.
Proof.
  destruct (generateOTP_verifyOTP 10 (1 # 2) 0 newUser)
    as (n & Hn & Hcode & Hok & _).
  - by vm_compute.
  - by vm_compute.
  - exists n. split_and!; [lia..|done|]. apply Hok. lia.
Defined.

(** X29, on the question whose first option has no id. *)
Lemma questionSave_validated_witness :
  exists opts,
    QuestionModel.options
      (state_after (QuestionModel.questionSave acceptAll newQuestion))
      = Some opts /\
    opts <> [] /\
    Forall (fun o => QuestionOption.id o <> EmptyString) opts /\
    Forall (fun a => a ∈ QuestionOption.id <$> opts)
           (QuestionModel.correctAnswers
              (state_after (QuestionModel.questionSave acceptAll newQuestion))).
Proof.
  destruct (questionSave_validated acceptAll newQuestion)
    as (_ & H & _).
  - by vm_compute.
  - apply H. by vm_compute.
Defined.
